(** * Quoridor engine: board, game state and search

    A shallow embedding of the engine of the repository
    ([engine/types.js], [engine/board.js], [engine/gamestate.js],
    [ai/search.js]) and of the handlers of [App.jsx] that drive it, together
    with the properties its specification states and further properties of
    the code.

    Conventions of the embedding.
    - Row and column numbers are JavaScript integers, modelled as [Z].
    - The string key [`${r},${c}`] of a cell or of a wall anchor is modelled
      as the pair [(r, c)]: on integers the string is an injective image of
      the pair, and the only operations of the code on it are equality and
      the parse back into the pair.
    - The wall [Set]s and owner [Map]s of a board are insertion ordered in
      JavaScript and the order is observable (snapshots and [posKey] read
      it), so they are lists with the [Set]/[Map] operations written out.
      The [seen], [gScore], [fScore] and [parent] collections of the path
      searches are never iterated, so they are [gset]/[gmap].
    - Methods that assign to [this] are functions in the monad [M] of state
      and exceptions; a thrown exception keeps the state reached so far.
    - Numbers of the search that JavaScript computes in binary64 (scores and
      values) are primitive floats. *)

From Stdlib Require Uint63.
From Stdlib Require Import PrimFloat.
From stdpp Require Import gmap list sets.

(** Decimal literals such as [0.001] denote the nearest binary64 number, as
    they do in JavaScript. *)
#[local] Set Warnings "-inexact-float,-clear-no-such-hyp".

Local Open Scope Z_scope.

(** ** types.js *)

Definition Key : Type := Z * Z.

Record Cell := mkCell { cell_r : Z; cell_c : Z }.

Inductive Orient := oH | oV.

Record Wall := mkWall { wall_r : Z; wall_c : Z; wall_o : Orient }.

(** Player index, [0] or [1]. *)
Inductive Player := P0 | P1.

Inductive Move :=
| PAWN (to : Cell)
| WALL (wall : Wall).

#[global] Instance Cell_eq_dec : EqDecision Cell.
Proof. solve_decision. Defined.
#[global] Instance Orient_eq_dec : EqDecision Orient.
Proof. solve_decision. Defined.
#[global] Instance Wall_eq_dec : EqDecision Wall.
Proof. solve_decision. Defined.
#[global] Instance Player_eq_dec : EqDecision Player.
Proof. solve_decision. Defined.
#[global] Instance Move_eq_dec : EqDecision Move.
Proof. solve_decision. Defined.

(** [keyCell p] is [`${p.r},${p.c}`]. *)
Definition keyCell (p : Cell) : Key := (cell_r p, cell_c p).

(** [uKey.split(',').map(Number)] followed by [{ r: ur, c: uc }]. *)
Definition cellOfKey (k : Key) : Cell := mkCell k.1 k.2.

(** [a.r===b.r && a.c===b.c] *)
Definition sameCell (a b : Cell) : bool :=
  (cell_r a =? cell_r b) && (cell_c a =? cell_c b).

(** [1 - p] on a player index. *)
Definition other (p : Player) : Player :=
  match p with P0 => P1 | P1 => P0 end.

(** A two-element array indexed by the player. *)
Definition at2 {A} (xs : A * A) (p : Player) : A :=
  match p with P0 => xs.1 | P1 => xs.2 end.

Definition set2 {A} (xs : A * A) (p : Player) (x : A) : A * A :=
  match p with P0 => (x, xs.2) | P1 => (xs.1, x) end.

(** ** JavaScript [Set] and [Map], insertion ordered *)

Module JSSet.
Definition has {A} `{EqDecision A} (x : A) (s : list A) : bool :=
  bool_decide (x ∈ s).
Definition add {A} `{EqDecision A} (x : A) (s : list A) : list A :=
  if has x s then s else s ++ [x].
Definition delete {A} `{EqDecision A} (x : A) (s : list A) : list A :=
  filter (λ y, y ≠ x) s.
End JSSet.

Module JSMap.
Definition has {K V} `{EqDecision K} (k : K) (m : list (K * V)) : bool :=
  bool_decide (k ∈ m.*1).
Definition set {K V} `{EqDecision K} (k : K) (v : V) (m : list (K * V))
  : list (K * V) :=
  if has k m
  then (λ kv, if decide (kv.1 = k) then (k, v) else kv) <$> m
  else m ++ [(k, v)].
Definition delete {K V} `{EqDecision K} (k : K) (m : list (K * V))
  : list (K * V) :=
  filter (λ kv, kv.1 ≠ k) m.
End JSMap.

(** ** Exceptions and the state monad *)

(** The four [Error]s of the engine, by the names of the specification:
    ['Illegal pawn move'], ['No walls left'], ['Illegal wall placement'],
    ['Wall blocks all paths']. *)
Inductive Error :=
| IllegalMove
| NoWallsLeft
| IllegalPlacement
| BlocksAllPaths.

Inductive Outcome (A : Type) :=
| Ret (a : A)
| Throw (e : Error).
Arguments Ret {A} a.
Arguments Throw {A} e.

Definition M (S A : Type) : Type := S → Outcome A * S.

Definition ret {S A} (a : A) : M S A := λ s, (Ret a, s).
Definition throw {S A} (e : Error) : M S A := λ s, (Throw e, s).
Definition bind {S A B} (m : M S A) (f : A → M S B) : M S B :=
  λ s, match m s with
       | (Ret a, s') => f a s'
       | (Throw e, s') => (Throw e, s')
       end.
Definition get {S} : M S S := λ s, (Ret s, s).
Definition modify {S} (f : S → S) : M S unit := λ s, (Ret tt, f s).

#[global] Instance M_ret {S} : MRet (M S) := λ A, ret.
#[global] Instance M_bind {S} : MBind (M S) := λ A B f m, bind m f.

(** [for (const x of xs) body(x)] with an accumulator. *)
Fixpoint forM {S A B} (xs : list A) (acc : B) (body : B → A → M S B)
  : M S B :=
  match xs with
  | [] => ret acc
  | x :: xs' => acc' ← body acc x; forM xs' acc' body
  end.

(** ** board.js *)

Module MinPQ.
(** The array [_a] of [[key, priority]] pairs. *)
Abbreviation t := (list (Key * Z)) (only parsing).

Definition empty (a : t) : bool := bool_decide (length a = 0%nat).

(** [;[a[i], a[j]] = [a[j], a[i]]] *)
Definition swap (a : t) (i j : nat) : t :=
  match a !! i, a !! j with
  | Some x, Some y => <[i:=y]> (<[j:=x]> a)
  | _, _ => a
  end.

(** [this._a[i][1] < this._a[j][1]] *)
Definition priLt (a : t) (i j : nat) : bool :=
  match a !! i, a !! j with
  | Some x, Some y => bool_decide (x.2 < y.2)
  | _, _ => false
  end.

(** [this._a[i][1] <= this._a[j][1]] *)
Definition priLe (a : t) (i j : nat) : bool :=
  match a !! i, a !! j with
  | Some x, Some y => bool_decide (x.2 ≤ y.2)
  | _, _ => true
  end.

(** The loop of [_siftUp]: [p] is [((i-1)|0) >> 1]. The index decreases at
    every turn, so [i] turns are enough and [_siftUp] starts it with [i]. *)
Fixpoint siftUp_loop (fuel : nat) (a : t) (i : nat) : t :=
  match fuel with
  | O => a
  | S fuel' =>
      if bool_decide (0 < i)%nat then
        let p := ((i - 1) / 2)%nat in
        if priLe a p i then a
        else siftUp_loop fuel' (swap a p i) p
      else a
  end.

Definition siftUp (a : t) (i : nat) : t := siftUp_loop i a i.

(** The loop of [_siftDown]; the index grows at every turn and a turn that
    swaps has [i < n], so [n] turns are enough. *)
Fixpoint siftDown_loop (fuel : nat) (a : t) (i : nat) : t :=
  match fuel with
  | O => a
  | S fuel' =>
      let n := length a in
      let l := (i * 2 + 1)%nat in
      let r := (l + 1)%nat in
      let s := i in
      let s := if bool_decide (l < n)%nat && priLt a l s then l else s in
      let s := if bool_decide (r < n)%nat && priLt a r s then r else s in
      if bool_decide (s = i) then a
      else siftDown_loop fuel' (swap a s i) s
  end.

Definition siftDown (a : t) (i : nat) : t := siftDown_loop (length a) a i.

Definition push (a : t) (key : Key) (pri : Z) : t :=
  let a := a ++ [(key, pri)] in
  siftUp a (length a - 1).

(** [pop] returns the key on top ([null] on an empty queue) and the array
    left. *)
Definition pop (a : t) : option Key * t :=
  match a with
  | [] => (None, a)
  | top :: _ =>
      match last a with
      | None => (None, a)
      | Some lst =>
          let a := removelast a in
          if bool_decide (length a ≠ 0%nat)
          then (Some top.1, siftDown (<[0%nat:=lst]> a) 0)
          else (Some top.1, a)
      end
  end.
End MinPQ.

Module Board.
Record t := mk {
  N : Z;
  hWalls : list Key;
  vWalls : list Key;
  hOwners : list (Key * Player);
  vOwners : list (Key * Player)
}.

(** [new Board(N)] *)
Definition new (n : Z) : t := mk n [] [] [] [].

Definition hHalfOverlap (b : t) (r c : Z) : bool :=
  JSSet.has (r, c - 1) (hWalls b) || JSSet.has (r, c + 1) (hWalls b).

Definition vHalfOverlap (b : t) (r c : Z) : bool :=
  JSSet.has (r - 1, c) (vWalls b) || JSSet.has (r + 1, c) (vWalls b).

Definition wallLegal (b : t) (w : Wall) : bool :=
  let r := wall_r w in
  let c := wall_c w in
  if negb ((0 <=? r) && (r <? N b - 1) && (0 <=? c) && (c <? N b - 1))
  then false
  else
    match wall_o w with
    | oH =>
        if JSSet.has (r, c) (hWalls b) then false
        else if JSSet.has (r, c) (vWalls b) then false
        else if hHalfOverlap b r c then false
        else true
    | oV =>
        if JSSet.has (r, c) (vWalls b) then false
        else if JSSet.has (r, c) (hWalls b) then false
        else if vHalfOverlap b r c then false
        else true
    end.

(** [placeWall(w, owner)]; [owner] is [None] when the argument is left
    out ([undefined]). *)
Definition placeWall (w : Wall) (owner : option Player) : M t unit :=
  λ b,
    if negb (wallLegal b w) then (Throw IllegalPlacement, b)
    else
      let key := (wall_r w, wall_c w) in
      match wall_o w with
      | oH =>
          (Ret tt,
           mk (N b) (JSSet.add key (hWalls b)) (vWalls b)
              (match owner with
               | Some o => JSMap.set key o (hOwners b)
               | None => hOwners b
               end)
              (vOwners b))
      | oV =>
          (Ret tt,
           mk (N b) (hWalls b) (JSSet.add key (vWalls b)) (hOwners b)
              (match owner with
               | Some o => JSMap.set key o (vOwners b)
               | None => vOwners b
               end))
      end.

Definition removeWall (w : Wall) : M t unit :=
  λ b,
    let key := (wall_r w, wall_c w) in
    match wall_o w with
    | oH =>
        (Ret tt,
         mk (N b) (JSSet.delete key (hWalls b)) (vWalls b)
            (JSMap.delete key (hOwners b)) (vOwners b))
    | oV =>
        (Ret tt,
         mk (N b) (hWalls b) (JSSet.delete key (vWalls b))
            (hOwners b) (JSMap.delete key (vOwners b)))
    end.

Definition blockedEdge (b : t) (p q : Cell) : bool :=
  let ar := cell_r p in
  let ac := cell_c p in
  let br := cell_r q in
  let bc := cell_c q in
  if ar =? br then
    if negb (Z.abs (ac - bc) =? 1) then true
    else
      let cmin := Z.min ac bc in
      if JSSet.has (ar, cmin) (vWalls b) || JSSet.has (ar - 1, cmin) (vWalls b)
      then true else false
  else if ac =? bc then
    if negb (Z.abs (ar - br) =? 1) then true
    else
      let rmin := Z.min ar br in
      if JSSet.has (rmin, ac) (hWalls b) || JSSet.has (rmin, ac - 1) (hWalls b)
      then true else false
  else true.

Definition neighbors (b : t) (p : Cell) : list Cell :=
  let cand :=
    (if 0 <? cell_r p then [mkCell (cell_r p - 1) (cell_c p)] else [])
    ++ (if cell_r p + 1 <? N b then [mkCell (cell_r p + 1) (cell_c p)] else [])
    ++ (if 0 <? cell_c p then [mkCell (cell_r p) (cell_c p - 1)] else [])
    ++ (if cell_c p + 1 <? N b then [mkCell (cell_r p) (cell_c p + 1)] else [])
  in
  filter (λ q, blockedEdge b p q = false) cand.

(** Turns allotted to the [while] loops of the path searches. The cells a
    search started at [start] can meet lie in the rectangle spanned by the
    board and [start]; [cellBound] is the number of its cells. *)
Definition span (n x : Z) : Z := Z.max x (n - 1) - Z.min x 0 + 1.

Definition cellBound (b : t) (start : Cell) : nat :=
  Z.to_nat (span (N b) (cell_r start) * span (N b) (cell_c start)).

(** The body of [for (const v of this.neighbors(u))] in [bfsDistToGoal]. *)
Definition bfsVisit (d : Z) (st : gset Key * list (Cell * Z)) (v : Cell)
  : gset Key * list (Cell * Z) :=
  let k := keyCell v in
  if bool_decide (k ∈ st.1) then st
  else ({[k]} ∪ st.1, st.2 ++ [(v, d + 1)]).

(** The [while (q.length)] loop of [bfsDistToGoal]. The result is [None]
    when the turns run out, [Some None] for [null]. *)
Fixpoint bfsDist_loop (fuel : nat) (b : t) (goalRows : list Z)
    (seen : gset Key) (q : list (Cell * Z)) : option (option Z) :=
  match fuel with
  | O => None
  | S fuel' =>
      match q with
      | [] => Some None
      | (u, d) :: q' =>
          if JSSet.has (cell_r u) goalRows then Some (Some d)
          else
            let st := fold_left (bfsVisit d) (neighbors b u) (seen, q') in
            bfsDist_loop fuel' b goalRows st.1 st.2
      end
  end.

Definition bfsDistToGoal_fuel (fuel : nat) (b : t) (start : Cell)
    (goalRows : list Z) : option (option Z) :=
  bfsDist_loop fuel b goalRows {[keyCell start]} [(start, 0)].

(** [bfsDistToGoal(start, goalRows)]: every cell is queued at most once, so
    [cellBound + 1] turns always complete the loop
    (lemma [bfsDistToGoal_fuel_enough]). *)
Definition bfsDistToGoal (b : t) (start : Cell) (goalRows : list Z)
  : option Z :=
  default None (bfsDistToGoal_fuel (S (cellBound b start)) b start goalRows).

Definition pathExistsFor (b : t) (start : Cell) (goalRows : list Z) : bool :=
  bool_decide (bfsDistToGoal b start goalRows ≠ None).

(** The result [{ dist, next }] of the next-step searches. *)
Record PathStep := mkPathStep { dist : option Z; next : option Cell }.

(** The body of [for (const v of this.neighbors(u))] in
    [bfsNextStepToGoal]. *)
Definition bfsNextVisit (u : Cell)
    (st : gset Key * gmap Key Cell * list Cell) (v : Cell)
  : gset Key * gmap Key Cell * list Cell :=
  let kv := keyCell v in
  if bool_decide (kv ∈ st.1.1) then st
  else ({[kv]} ∪ st.1.1, <[kv:=u]> st.1.2, st.2 ++ [v]).

(** [while (prev && !(prev.r===start.r && prev.c===start.c))]: the walk
    back along [parent] to the first step; its value is the final [cur]. *)
Fixpoint firstStep_loop (fuel : nat) (parent : gmap Key Cell)
    (start cur : Cell) (prev : option Cell) : option Cell :=
  match fuel with
  | O => None
  | S fuel' =>
      match prev with
      | Some pv =>
          if negb (sameCell pv start)
          then firstStep_loop fuel' parent start pv (parent !! keyCell pv)
          else Some cur
      | None => Some cur
      end
  end.

(** The [while (true)] loop of [_reconstructDist]. *)
Fixpoint reconstructDist_loop (fuel : nat) (parent : gmap Key Cell)
    (d : Z) (cur : Cell) : option Z :=
  match fuel with
  | O => None
  | S fuel' =>
      match parent !! keyCell cur with
      | None => Some d
      | Some p => reconstructDist_loop fuel' parent (d + 1) p
      end
  end.

(** The [while (q.length)] loop of [bfsNextStepToGoal]; [bound] is the
    number of turns given to each of the two inner loops. *)
Fixpoint bfsNext_loop (fuel bound : nat) (b : t) (start : Cell)
    (goalRows : list Z) (seen : gset Key) (parent : gmap Key Cell)
    (q : list Cell) : option PathStep :=
  match fuel with
  | O => None
  | S fuel' =>
      match q with
      | [] => Some (mkPathStep None None)
      | u :: q' =>
          if JSSet.has (cell_r u) goalRows then
            cur ← firstStep_loop bound parent start u (parent !! keyCell u);
            d ← reconstructDist_loop bound parent 0 u;
            let nxt := if sameCell cur start then start else cur in
            Some (mkPathStep (Some d) (Some nxt))
          else
            let st := fold_left (bfsNextVisit u) (neighbors b u)
                        (seen, parent, q') in
            bfsNext_loop fuel' bound b start goalRows st.1.1 st.1.2 st.2
      end
  end.

Definition bfsNextStepToGoal_fuel (fuel : nat) (b : t) (start : Cell)
    (goalRows : list Z) : option PathStep :=
  bfsNext_loop fuel fuel b start goalRows {[keyCell start]} ∅ [start].

(** [bfsNextStepToGoal(start, goalRows)]; the turns always suffice
    (lemma [bfsNextStepToGoal_fuel_enough]). *)
Definition bfsNextStepToGoal (b : t) (start : Cell) (goalRows : list Z)
  : PathStep :=
  default (mkPathStep None None)
    (bfsNextStepToGoal_fuel (S (cellBound b start)) b start goalRows).

(** [Math.min(best, x)] with [None] for [Infinity]. *)
Definition minInf (best : option Z) (x : Z) : option Z :=
  match best with
  | None => Some x
  | Some y => Some (Z.min y x)
  end.

(** [_hToGoal(p, goalRows)] *)
Definition hToGoal (p : Cell) (goalRows : list Z) : Z :=
  if bool_decide (length goalRows = 0%nat) then 0
  else
    default 0
      (fold_left (λ best g, minInf best (Z.abs (cell_r p - g)))
         goalRows None).

(** The body of [for (const v of this.neighbors(u))] in
    [astarDistToGoal]; [gu] is [gScore.get(uKey)], [None] standing for the
    [Infinity] of [?? Infinity], with which no comparison succeeds. *)
Definition astarRelax (goalRows : list Z) (gu : option Z)
    (st : gmap Key Z * gmap Key Z * MinPQ.t) (v : Cell)
  : gmap Key Z * gmap Key Z * MinPQ.t :=
  let vKey := keyCell v in
  match gu with
  | None => st
  | Some g =>
      let tentative := g + 1 in
      if match st.1.1 !! vKey with
         | None => true
         | Some gv => bool_decide (tentative < gv)
         end
      then
        let fv := tentative + hToGoal v goalRows in
        (<[vKey:=tentative]> st.1.1, <[vKey:=fv]> st.1.2,
         MinPQ.push st.2 vKey fv)
      else st
  end.

(** The [while (!open.empty())] loop of [astarDistToGoal]. *)
Fixpoint astar_loop (fuel : nat) (b : t) (goalRows : list Z)
    (gScore fScore : gmap Key Z) (open : MinPQ.t) (seen : gset Key)
  : option (option Z) :=
  match fuel with
  | O => None
  | S fuel' =>
      if MinPQ.empty open then Some None
      else
        match MinPQ.pop open with
        | (None, _) => Some None
        | (Some uKey, open) =>
            if bool_decide (uKey ∈ seen)
            then astar_loop fuel' b goalRows gScore fScore open seen
            else
              let seen := {[uKey]} ∪ seen in
              let u := cellOfKey uKey in
              if JSSet.has (cell_r u) goalRows then Some (gScore !! uKey)
              else
                let gu := gScore !! uKey in
                let st := fold_left (astarRelax goalRows gu) (neighbors b u)
                            (gScore, fScore, open) in
                astar_loop fuel' b goalRows st.1.1 st.1.2 st.2 seen
        end
  end.

Definition astarDistToGoal_fuel (fuel : nat) (b : t) (start : Cell)
    (goalRows : list Z) : option (option Z) :=
  let h0 := hToGoal start goalRows in
  astar_loop fuel b goalRows {[keyCell start := 0]} {[keyCell start := h0]}
    (MinPQ.push [] (keyCell start) h0) ∅.

(** [astarDistToGoal(start, goalRows)]: a cell is closed at most once and
    closing it pushes at most four entries, so [4 * cellBound + 2] turns
    always complete the loop (lemma [astarDistToGoal_fuel_enough]). *)
Definition astarDistToGoal (b : t) (start : Cell) (goalRows : list Z)
  : option Z :=
  default None
    (astarDistToGoal_fuel (4 * cellBound b start + 2) b start goalRows).

(** The body of [for (const v of this.neighbors(u))] in
    [astarNextStepToGoal]: that of [astarDistToGoal] with
    [cameFrom.set(vKey, u)]. *)
Definition astarNextRelax (u : Cell) (goalRows : list Z) (gu : option Z)
    (st : gmap Key Z * gmap Key Z * gmap Key Cell * MinPQ.t) (v : Cell)
  : gmap Key Z * gmap Key Z * gmap Key Cell * MinPQ.t :=
  let vKey := keyCell v in
  match gu with
  | None => st
  | Some g =>
      let tentative := g + 1 in
      if match st.1.1.1 !! vKey with
         | None => true
         | Some gv => bool_decide (tentative < gv)
         end
      then
        let fv := tentative + hToGoal v goalRows in
        (<[vKey:=tentative]> st.1.1.1, <[vKey:=fv]> st.1.1.2,
         <[vKey:=u]> st.1.2, MinPQ.push st.2 vKey fv)
      else st
  end.

(** The [while (!open.empty())] loop of [astarNextStepToGoal]; the walk
    back to the first step and [_astarReconstructDist] are the loops of
    [bfsNextStepToGoal] and [_reconstructDist], run on [cameFrom]; [bound]
    is the number of turns given to each of them. *)
Fixpoint astarNext_loop (fuel bound : nat) (b : t) (start : Cell)
    (goalRows : list Z) (gScore fScore : gmap Key Z) (cameFrom : gmap Key Cell)
    (open : MinPQ.t) (closed : gset Key) : option PathStep :=
  match fuel with
  | O => None
  | S fuel' =>
      if MinPQ.empty open then Some (mkPathStep None None)
      else
        match MinPQ.pop open with
        | (None, _) => Some (mkPathStep None None)
        | (Some uKey, open) =>
            if bool_decide (uKey ∈ closed)
            then astarNext_loop fuel' bound b start goalRows gScore fScore
                   cameFrom open closed
            else
              let closed := {[uKey]} ∪ closed in
              let u := cellOfKey uKey in
              if JSSet.has (cell_r u) goalRows then
                cur ← firstStep_loop bound cameFrom start u
                         (cameFrom !! keyCell u);
                d ← reconstructDist_loop bound cameFrom 0 u;
                let nxt := if sameCell cur start then start else cur in
                Some (mkPathStep (Some d) (Some nxt))
              else
                let gu := gScore !! uKey in
                let st := fold_left (astarNextRelax u goalRows gu)
                            (neighbors b u) (gScore, fScore, cameFrom, open) in
                astarNext_loop fuel' bound b start goalRows st.1.1.1 st.1.1.2
                  st.1.2 st.2 closed
        end
  end.

Definition astarNextStepToGoal_fuel (fuel bound : nat) (b : t) (start : Cell)
    (goalRows : list Z) : option PathStep :=
  let h0 := hToGoal start goalRows in
  astarNext_loop fuel bound b start goalRows {[keyCell start := 0]}
    {[keyCell start := h0]} ∅ (MinPQ.push [] (keyCell start) h0) ∅.

(** [astarNextStepToGoal(start, goalRows)]: the turns of [astarDistToGoal]
    complete the loop and [cellBound] turns each walk back
    (lemma [astarNext_loop_sim]). *)
Definition astarNextStepToGoal (b : t) (start : Cell) (goalRows : list Z)
  : PathStep :=
  default (mkPathStep None None)
    (astarNextStepToGoal_fuel (4 * cellBound b start + 2) (cellBound b start)
       b start goalRows).
End Board.

(** ** gamestate.js *)

Module GameState.
(** The object [snapshot()] returns. *)
Record Snapshot := mkSnapshot {
  s_pawns : Cell * Cell;
  s_h : list Key;
  s_v : list Key;
  s_hOwn : list (Key * Player);
  s_vOwn : list (Key * Player);
  s_wl : Z * Z;
  s_tm : Player
}.

Record t := mk {
  board : Board.t;
  N : Z;
  pawns : Cell * Cell;
  wallsLeft : Z * Z;
  toMove : Player;
  history : list Snapshot
}.

(** [new GameState(N)] *)
Definition new (n : Z) : t :=
  mk (Board.new n) n (mkCell 0 (n / 2), mkCell (n - 1) (n / 2)) (10, 10) P0 [].

Definition setBoard (b : Board.t) (s : t) : t :=
  mk b (N s) (pawns s) (wallsLeft s) (toMove s) (history s).
Definition setPawns (ps : Cell * Cell) (s : t) : t :=
  mk (board s) (N s) ps (wallsLeft s) (toMove s) (history s).
Definition setWallsLeft (wl : Z * Z) (s : t) : t :=
  mk (board s) (N s) (pawns s) wl (toMove s) (history s).
Definition setToMove (p : Player) (s : t) : t :=
  mk (board s) (N s) (pawns s) (wallsLeft s) p (history s).
Definition setHistory (h : list Snapshot) (s : t) : t :=
  mk (board s) (N s) (pawns s) (wallsLeft s) (toMove s) h.

(** A method of [this.board] run on the board of the state. *)
Definition onBoard {A} (m : M Board.t A) : M t A :=
  λ s, let r := m (board s) in (r.1, setBoard r.2 s).

Definition goalRows (s : t) (p : Player) : list Z :=
  match p with P0 => [N s - 1] | P1 => [0] end.

Definition inBounds (s : t) (p : Cell) : bool :=
  (0 <=? cell_r p) && (cell_r p <? N s) && (0 <=? cell_c p) && (cell_c p <? N s).

Definition shortestPathNext (s : t) (me : Player) : Board.PathStep :=
  Board.bfsNextStepToGoal (board s) (at2 (pawns s) me) (goalRows s me).

(** The four offsets [{r:-1,c:0},{r:1,c:0},{r:0,c:-1},{r:0,c:1}]. *)
Definition sideOffsets : list Cell :=
  [mkCell (-1) 0; mkCell 1 0; mkCell 0 (-1); mkCell 0 1].

(** The [// dedup] loop of [legalPawnMoves]. *)
Fixpoint dedup (seen : list Key) (out : list Cell) : list Cell :=
  match out with
  | [] => []
  | m :: out' =>
      let k := keyCell m in
      if negb (JSSet.has k seen) then m :: dedup (JSSet.add k seen) out'
      else dedup seen out'
  end.

(** What one neighbour [q] of the mover's pawn pushes on [out]. *)
Definition pawnTargets (s : t) (myp opp q : Cell) : list Cell :=
  if sameCell q opp then
    let dr := cell_r opp - cell_r myp in
    let dc := cell_c opp - cell_c myp in
    let dest := mkCell (cell_r opp + dr) (cell_c opp + dc) in
    if inBounds s dest && negb (Board.blockedEdge (board s) opp dest)
    then [dest]
    else
      d ← sideOffsets;
      let side := mkCell (cell_r opp + cell_r d) (cell_c opp + cell_c d) in
      if negb (inBounds s side) then []
      else if negb (Board.blockedEdge (board s) opp side)
              && negb (Board.blockedEdge (board s) myp opp)
      then [side] else []
  else [q].

Definition legalPawnMoves (s : t) : list Cell :=
  let me := toMove s in
  let you := other me in
  let myp := at2 (pawns s) me in
  let opp := at2 (pawns s) you in
  let nbrs := Board.neighbors (board s) myp in
  let out := q ← nbrs; pawnTargets s myp opp q in
  dedup [] out.

(** [pathExistsFor(pawns[0], goalRows(0)) && pathExistsFor(pawns[1], goalRows(1))] *)
Definition bothConnected (s : t) : bool :=
  Board.pathExistsFor (board s) (at2 (pawns s) P0) (goalRows s P0)
  && Board.pathExistsFor (board s) (at2 (pawns s) P1) (goalRows s P1).

(** The walls the three nested [for] loops of [legalWallMoves] visit, in
    order. *)
Definition wallCandidates (n : Z) : list Wall :=
  r ← seqZ 0 (n - 1); c ← seqZ 0 (n - 1); o ← [oH; oV]; [mkWall r c o].

(** One turn of the loops of [legalWallMoves]: the probe. *)
Definition probeWall (cand : list Wall) (w : Wall) : M t (list Wall) :=
  s ← get;
  if negb (Board.wallLegal (board s) w) then mret cand
  else
    onBoard (Board.placeWall w None);;
    s ← get;
    let ok := bothConnected s in
    onBoard (Board.removeWall w);;
    mret (if ok then cand ++ [w] else cand).

Definition legalWallMoves : M t (list Wall) :=
  s ← get;
  let me := toMove s in
  if bool_decide (at2 (wallsLeft s) me ≤ 0) then mret []
  else forM (wallCandidates (N s)) [] probeWall.

Definition snapshot (s : t) : Snapshot :=
  mkSnapshot (pawns s) (Board.hWalls (board s)) (Board.vWalls (board s))
    (Board.hOwners (board s)) (Board.vOwners (board s))
    (wallsLeft s) (toMove s).

Definition restore (sn : Snapshot) : M t unit :=
  modify (λ s,
    mk (Board.mk (Board.N (board s)) (s_h sn) (s_v sn) (s_hOwn sn) (s_vOwn sn))
       (N s) (s_pawns sn) (s_wl sn) (s_tm sn) (history s)).

Definition apply (mv : Move) (recordHistory : bool) : M t unit :=
  (if recordHistory
   then modify (λ s, setHistory (history s ++ [snapshot s]) s)
   else mret tt);;
  match mv with
  | PAWN to =>
      s ← get;
      let legal := existsb (λ p, sameCell p to) (legalPawnMoves s) in
      if negb legal then throw IllegalMove
      else modify (λ s, setPawns (set2 (pawns s) (toMove s) to) s)
  | WALL w =>
      s ← get;
      let me := toMove s in
      if bool_decide (at2 (wallsLeft s) me ≤ 0) then throw NoWallsLeft
      else if negb (Board.wallLegal (board s) w) then throw IllegalPlacement
      else
        onBoard (Board.placeWall w (Some me));;
        s ← get;
        let ok := bothConnected s in
        if negb ok then onBoard (Board.removeWall w);; throw BlocksAllPaths
        else
          modify (λ s,
            setWallsLeft (set2 (wallsLeft s) me (at2 (wallsLeft s) me - 1)) s)
  end;;
  modify (λ s, setToMove (other (toMove s)) s).

Definition legalMoves : M t (list Move) :=
  s ← get;
  let pm := legalPawnMoves s in
  wm ← legalWallMoves;
  mret ((PAWN <$> pm) ++ (WALL <$> wm)).

(** [const s = this.history.pop(); if (s) this.restore(s)] *)
Definition undo : M t unit :=
  s ← get;
  match last (history s) with
  | None => mret tt
  | Some sn =>
      modify (λ s, setHistory (removelast (history s)) s);;
      restore sn
  end.

Definition winner (s : t) : option Player :=
  if cell_r (at2 (pawns s) P0) =? N s - 1 then Some P0
  else if cell_r (at2 (pawns s) P1) =? 0 then Some P1
  else None.
End GameState.

(** ** Numbers of the search *)

(** An integer as a binary64 number (exact below [2^53]). *)
Definition Z2F (z : Z) : PrimFloat.float :=
  match z with
  | Z0 => PrimFloat.zero
  | Zpos _ => PrimFloat.of_uint63 (Uint63.of_Z z)
  | Zneg p => PrimFloat.opp (PrimFloat.of_uint63 (Uint63.of_Z (Zpos p)))
  end.

Module GameEval.
Import GameState.

(** [GameState.evaluate(me)] *)
Definition evaluate (s : t) (me : Player) : PrimFloat.float :=
  let you := other me in
  let dMe := Board.bfsDistToGoal (board s) (at2 (pawns s) me) (goalRows s me) in
  let dYou := Board.bfsDistToGoal (board s) (at2 (pawns s) you) (goalRows s you) in
  match dMe, dYou with
  | Some dMe, Some dYou =>
      PrimFloat.add
        (PrimFloat.mul (Z2F (dYou - dMe)) 10%float)
        (PrimFloat.mul (Z2F (at2 (wallsLeft s) me - at2 (wallsLeft s) you))
           0.5%float)
  | _, _ => PrimFloat.zero
  end.
End GameEval.

(** ** search.js *)

Module Search.
Import GameState.

(** The distance [orderedMoves] scores with: [board.astarDistToGoal] in the
    documented copy of [search.js], [board.bfsDistToGoal] in the other. *)
Definition DistFn : Type := Board.t → Cell → list Z → option Z.

(** The loop of [recentMySquares]; [i] steps down by two from
    [history.length - 2], so [history.length] turns are enough. *)
Fixpoint recent_loop (fuel : nat) (history : list Snapshot) (me : Player)
    (k : nat) (i : Z) (squares : list Cell) : list Cell :=
  match fuel with
  | O => squares
  | S fuel' =>
      if (0 <=? i) && bool_decide (length squares < k)%nat then
        match history !! Z.to_nat i with
        | Some snap =>
            recent_loop fuel' history me k (i - 2)
              (squares ++ [at2 (s_pawns snap) me])
        | None => recent_loop fuel' history me k (i - 2) squares
        end
      else squares
  end.

Definition recentMySquares (history : list Snapshot) (me : Player) (k : nat)
  : list Cell :=
  recent_loop (length history) history me k (Z.of_nat (length history) - 2) [].

(** [lastMyTurnSquareFromHistory(history, me)]; [None] is [null]. *)
Definition lastMyTurnSquareFromHistory (history : list Snapshot) (me : Player)
  : option Cell :=
  if bool_decide (length history < 2)%nat then None
  else (λ sn, at2 (s_pawns sn) me) <$> history !! (length history - 2)%nat.

(** [scored.sort((a,b)=>b[0]-a[0])]: the sort is stable, so an entry goes
    in front of the later entries that are not strictly better. *)
Fixpoint insertScored (x : PrimFloat.float * Move)
    (l : list (PrimFloat.float * Move)) : list (PrimFloat.float * Move) :=
  match l with
  | [] => [x]
  | y :: l' =>
      if PrimFloat.ltb x.1 y.1 then y :: insertScored x l' else x :: l
  end.

Definition sortScored (l : list (PrimFloat.float * Move))
  : list (PrimFloat.float * Move) :=
  foldr insertScored [] l.

(** The body of [for (const mv of state.legalMoves())] in [orderedMoves]. *)
Definition scoreMove (distFn : DistFn) (me : Player) (myGoal oppGoal : list Z)
    (backSquare : option Cell) (recent : list Cell) (sp : Board.PathStep)
    (scored : list (PrimFloat.float * Move)) (mv : Move)
  : M t (list (PrimFloat.float * Move)) :=
  let you := other me in
  s ← get;
  let snap := snapshot s in
  apply mv false;;
  s ← get;
  let dMe := default 99 (distFn (board s) (at2 (pawns s) me) myGoal) in
  let dYou := default 99 (distFn (board s) (at2 (pawns s) you) oppGoal) in
  let score := Z2F (dYou - dMe) in
  let score :=
    match mv with
    | PAWN _ =>
        let dest := at2 (pawns s) me in
        let score :=
          match Board.next sp with
          | Some nx =>
              if sameCell dest nx then PrimFloat.add score 2%float else score
          | None => score
          end in
        let score :=
          match backSquare with
          | Some bs =>
              if sameCell dest bs then PrimFloat.sub score 1.5%float else score
          | None => score
          end in
        if existsb (λ sq, sameCell sq dest) recent
        then PrimFloat.sub score 0.7%float else score
    | WALL _ => score
    end in
  restore snap;;
  mret (scored ++ [(score, mv)]).

Definition orderedMoves (distFn : DistFn) : M t (list Move) :=
  s ← get;
  let me := toMove s in
  let you := other me in
  let myGoal := goalRows s me in
  let oppGoal := goalRows s you in
  let backSquare :=
    if bool_decide (2 ≤ length (history s))%nat
    then (λ sn, at2 (s_pawns sn) me) <$> history s !! (length (history s) - 2)%nat
    else None in
  let recent := recentMySquares (history s) me 6 in
  let sp := shortestPathNext s me in
  mvs ← legalMoves;
  scored ← forM mvs [] (scoreMove distFn me myGoal oppGoal backSquare recent sp);
  mret ((sortScored scored).*2).

(** The string [posKey(state)], as the tuple it prints. *)
Definition PosKey : Type := (Cell * Cell) * list Key * list Key * Player.

Definition posKey (s : t) : PosKey :=
  (pawns s, Board.hWalls (board s), Board.vWalls (board s), toMove s).

(** The local variables of the [for] loop of [negamax]. *)
Record Best := mkBest {
  alpha : PrimFloat.float;
  bestVal : PrimFloat.float;
  bestMove : option Move;
  seenKeys : list PosKey
}.

(** The [for (const mv of orderedMoves(state))] loop of [negamax];
    [recurse] is the call [negamax(state, depth-1, ., ., seen)]. *)
Definition negamaxLoop
  (recurse : PrimFloat.float → PrimFloat.float → list PosKey →
             M t (PrimFloat.float * option Move * list PosKey))
  (beta : PrimFloat.float) : list Move → Best → M t Best :=
fix loop (mvs : list Move) (st : Best) : M t Best :=
  match mvs with
  | [] => mret st
  | mv :: mvs' =>
      s ← get;
      let snap := snapshot s in
      apply mv false;;
      c ← recurse (PrimFloat.opp beta) (PrimFloat.opp (alpha st)) (seenKeys st);
      let val := PrimFloat.opp c.1.1 in
      restore snap;;
      let better := PrimFloat.ltb (bestVal st) val in
      let bv := if better then val else bestVal st in
      let bm := if better then Some mv else bestMove st in
      let al := if PrimFloat.ltb (alpha st) bv then bv else alpha st in
      let st := mkBest al bv bm c.2 in
      if PrimFloat.leb beta al then mret st
      else loop mvs' st
  end.

(** [negamax(state, depth, alpha, beta, seen)]: the result is the pair
    [[value, move]] together with the set [seen] as the call leaves it. *)
Fixpoint negamax (distFn : DistFn) (depth : nat)
  (alpha0 beta : PrimFloat.float) (seen : list PosKey)
: M t (PrimFloat.float * option Move * list PosKey) :=
s ← get;
let k := posKey s in
if JSSet.has k seen
then mret (PrimFloat.mul (-0.001)%float (Z2F (Z.of_nat depth)), None, seen)
else
  let seen := JSSet.add k seen in
  match winner s with
  | Some w =>
      mret (if bool_decide (w = toMove s) then 1e6%float else (-1e6)%float,
            None, JSSet.delete k seen)
  | None =>
      match depth with
      | O => mret (GameEval.evaluate s (toMove s), None, JSSet.delete k seen)
      | S depth' =>
          mvs ← orderedMoves distFn;
          r ← negamaxLoop (negamax distFn depth') beta mvs
                (mkBest alpha0 PrimFloat.neg_infinity None seen);
          mret (bestVal r, bestMove r, JSSet.delete k (seenKeys r))
      end
  end.

(** The [for (let d=1; d<=maxDepth; d++)] loop of [searchWithTime];
    [now i] is the reading of [performance.now()] after depth [i] (and
    [now 0] the reading [start]). The loop makes at most [maxDepth] turns. *)
Fixpoint deepen (distFn : DistFn) (fuel : nat) (d : nat) (maxDepth : Z)
    (now : nat → PrimFloat.float) (timeLimitMs : PrimFloat.float)
    (best : option Move) : M t (option Move) :=
  match fuel with
  | O => mret best
  | S fuel' =>
      if bool_decide (Z.of_nat d ≤ maxDepth) then
        r ← negamax distFn d PrimFloat.neg_infinity PrimFloat.infinity [];
        let best := match r.1.2 with Some mv => Some mv | None => best end in
        if PrimFloat.ltb timeLimitMs (PrimFloat.sub (now d) (now O))
        then mret best
        else deepen distFn fuel' (S d) maxDepth now timeLimitMs best
      else mret best
  end.

(** [searchWithTime(state, maxDepth, timeLimitMs)]; the result is [None]
    when the function returns [undefined]. *)
Definition searchWithTime (distFn : DistFn) (maxDepth : Z)
    (timeLimitMs : PrimFloat.float) (now : nat → PrimFloat.float)
  : M t (option Move) :=
  s ← get;
  let me := toMove s in
  let fast :=
    if bool_decide (at2 (wallsLeft s) me ≤ 0) then
      match Board.next (shortestPathNext s me) with
      | Some nx =>
          if existsb (λ p, sameCell p nx) (legalPawnMoves s)
          then Some (PAWN nx) else None
      | None => None
      end
    else None in
  match fast with
  | Some mv => mret (Some mv)
  | None =>
      best ← deepen distFn (Z.to_nat maxDepth) 1 maxDepth now timeLimitMs None;
      match best with
      | Some mv => mret (Some mv)
      | None => mvs ← legalMoves; mret (head mvs)
      end
  end.
End Search.

(** ** App.jsx *)

Module App.
Import GameState.

(** [cloneFrom(base)] *)
Definition cloneFrom (base : t) : t :=
  let s := new (N base) in
  let s := (restore (snapshot base) s).2 in
  setHistory (history base) s.

(** The handlers of [App.jsx] that drive the engine, as functions of the
    state [gs] of the component: the second component of the result is the
    state of the component after the handler, the argument of [setGs] when
    the handler calls it and [gs] when it does not; the first is [Throw]
    when an exception leaves the handler. *)

(** [doPawnMove(rc)]; the [catch {}] swallows what [apply] throws. *)
Definition doPawnMove (rc : Cell) (gs : t) : Outcome unit * t :=
  let r := apply (PAWN rc) true (cloneFrom gs) in
  match r.1 with
  | Ret _ => (Ret tt, r.2)
  | Throw _ => (Ret tt, gs)
  end.

(** The second click of [onAnchorClick(r, c)] in wall mode, [o] being
    [wallOrient]. *)
Definition onAnchorClick (r c : Z) (o : Orient) (gs : t) : Outcome unit * t :=
  let r := apply (WALL (mkWall r c o)) true (cloneFrom gs) in
  match r.1 with
  | Ret _ => (Ret tt, r.2)
  | Throw _ => (Ret tt, gs)
  end.

(** [onAIMove()]: [searchWithTime(s, 5, 1000)] on a clone, and [apply] of
    the move when there is one. *)
Definition onAIMove (distFn : Search.DistFn) (now : nat → PrimFloat.float)
    (gs : t) : Outcome unit * t :=
  let r := Search.searchWithTime distFn 5 1000%float now (cloneFrom gs) in
  match r.1 with
  | Throw e => (Throw e, gs)
  | Ret None => (Ret tt, gs)
  | Ret (Some mv) =>
      let r2 := apply mv true r.2 in
      match r2.1 with
      | Ret _ => (Ret tt, r2.2)
      | Throw e => (Throw e, gs)
      end
  end.

(** [onUndo()] *)
Definition onUndo (gs : t) : Outcome unit * t :=
  let r := undo (cloneFrom gs) in
  match r.1 with
  | Ret _ => (Ret tt, r.2)
  | Throw e => (Throw e, gs)
  end.

(** [onReset()] *)
Definition onReset (gs : t) : Outcome unit * t := (Ret tt, new (N gs)).
End App.

(** ** Sample positions *)

Module Samples.
(** 3 x 3, an H wall at (0,0): the V wall at (0,1) would shut player 0 in
    the cells (0,0) and (0,1). *)
Definition shutIn : GameState.t :=
  GameState.mk (Board.mk 3 [(0, 0)] [] [((0, 0), P1)] []) 3
    (mkCell 0 1, mkCell 2 1) (10, 9) P0 [].

Definition shutInWall : Wall := mkWall 0 1 oV.

(** [shutIn] with an entry of the V owner map at (0,1), where no wall
    stands: [shutIn] after [board.vOwners.set('0,1', 1)]. *)
Definition staleOwner : GameState.t :=
  GameState.mk (Board.mk 3 [(0, 0)] [] [((0, 0), P1)] [((0, 1), P1)]) 3
    (mkCell 0 1, mkCell 2 1) (10, 9) P0 [].

(** [shutIn] with the counter of player 0 below zero: [shutIn] after
    [wallsLeft[0] = -1]. *)
Definition overdrawn : GameState.t :=
  GameState.mk (Board.mk 3 [(0, 0)] [] [((0, 0), P1)] []) 3
    (mkCell 0 1, mkCell 2 1) (-1, 9) P0 [].

(** 9 x 9 without walls, player 0 at (4,1) to move, player 1 beside it on
    the left edge at (4,0): the straight jump leaves the board. *)
Definition jumpAtEdge : GameState.t :=
GameState.mk (Board.new 9) 9 (mkCell 4 1, mkCell 4 0) (10, 10) P0 [].

(** 9 x 9, player 0 at (4,4) to move, player 1 at (4,5), a V wall at (4,5)
    behind player 1. *)
Definition jumpWalled : GameState.t :=
  GameState.mk (Board.mk 9 [] [(4, 5)] [] [((4, 5), P1)]) 9
    (mkCell 4 4, mkCell 4 5) (10, 9) P0 [].
(** 9 x 9 without walls, player 0 at (4,4) to move, player 1 at (4,5). *)
Definition faceToFace : GameState.t :=
  GameState.mk (Board.new 9) 9 (mkCell 4 4, mkCell 4 5) (10, 10) P0 [].

(** 9 x 9 without walls, no walls left, player 0 at (4,4) to move. *)
Definition endgame : GameState.t :=
  GameState.mk (Board.new 9) 9 (mkCell 4 4, mkCell 8 0) (0, 0) P0 [].

(** 3 x 3: player 0 placed an H wall at (0,0), player 1 tried the V wall at
    (0,1), which would shut player 0 in, and the failed call was undone. *)
Definition afterWall : GameState.t :=
  (GameState.undo
     (GameState.apply (WALL (mkWall 0 1 oV)) true
        (GameState.apply (WALL (mkWall 0 0 oH)) true (GameState.new 3)).2).2).2.
End Samples.

(** * Properties *)

(** ** The [Set] and [Map] operations *)

Section js_collections.
Context {A : Type} `{EqDecision A}.

Lemma JSSet_has_true (x : A) (s : list A) : JSSet.has x s = true ↔ x ∈ s.
Proof. unfold JSSet.has. by rewrite bool_decide_eq_true. Qed.

Lemma JSSet_has_false (x : A) (s : list A) : JSSet.has x s = false ↔ x ∉ s.
Proof. unfold JSSet.has. by rewrite bool_decide_eq_false. Qed.

Lemma JSSet_elem_of_add (x y : A) (s : list A) :
  y ∈ JSSet.add x s ↔ y = x ∨ y ∈ s.
Proof.
  unfold JSSet.add. destruct (JSSet.has x s) eqn:E.
  - apply JSSet_has_true in E. split; [by right|]. by intros [->|?].
  - rewrite elem_of_app, list_elem_of_singleton. tauto.
Qed.

Lemma filter_ne_id (x : A) (s : list A) : x ∉ s → filter (λ y, y ≠ x) s = s.
Proof.
  induction s as [|y s IH]; [done|].
  rewrite not_elem_of_cons. intros [Hne Hs].
  rewrite filter_cons_True by done. by rewrite IH.
Qed.

Lemma JSSet_delete_add (x : A) (s : list A) :
  x ∉ s → JSSet.delete x (JSSet.add x s) = s.
Proof.
  intros Hx. unfold JSSet.delete, JSSet.add.
  rewrite (proj2 (JSSet_has_false _ _) Hx).
  rewrite filter_app, filter_ne_id by done.
  rewrite filter_cons_False, filter_nil by naive_solver.
  by rewrite app_nil_r.
Qed.

Lemma JSMap_delete_set {V} (k : A) (v : V) (m : list (A * V)) :
  k ∉ m.*1 → JSMap.delete k (JSMap.set k v m) = m.
Proof.
  intros Hk. unfold JSMap.delete, JSMap.set, JSMap.has.
  rewrite bool_decide_eq_false_2 by done.
  rewrite filter_app, filter_cons_False, filter_nil, app_nil_r by naive_solver.
  induction m as [|[k' v'] m IH]; [done|].
  rewrite fmap_cons, not_elem_of_cons in Hk. destruct Hk as [Hne Hm].
  simpl in Hne. rewrite filter_cons_True by (simpl; congruence).
  by rewrite IH.
Qed.
End js_collections.

(** ** C8: [wallLegal] *)

(** The wall set of one orientation, and the orientation that crosses it. *)
Definition wallsOf (b : Board.t) (o : Orient) : list Key :=
  match o with oH => Board.hWalls b | oV => Board.vWalls b end.

Definition crossing (o : Orient) : Orient :=
  match o with oH => oV | oV => oH end.

(** The anchors at which a wall of the same orientation shares one of the two
    segments of [w]. *)
Definition halfOverlapAnchors (w : Wall) : list Key :=
  match wall_o w with
  | oH => [(wall_r w, wall_c w - 1); (wall_r w, wall_c w + 1)]
  | oV => [(wall_r w - 1, wall_c w); (wall_r w + 1, wall_c w)]
  end.

(** C8. [wallLegal(w)] is false exactly when the anchor of [w] lies outside
    [0..N-2] x [0..N-2], or a wall of the same orientation has the same
    anchor, or a wall of the other orientation has the same anchor, or a
    wall of the same orientation sits at one of the two adjacent anchors
    along [w] (columns [c-1], [c+1] for H, rows [r-1], [r+1] for V);
    otherwise it is true. [Board.wallLegal] is a function of the board that
    returns a boolean only: the call leaves the board as it is. *)
Theorem wallLegal_false_iff (b : Board.t) (w : Wall) :
  Board.wallLegal b w = false ↔
    ¬ (0 ≤ wall_r w ≤ Board.N b - 2 ∧ 0 ≤ wall_c w ≤ Board.N b - 2)
    ∨ (wall_r w, wall_c w) ∈ wallsOf b (wall_o w)
    ∨ (wall_r w, wall_c w) ∈ wallsOf b (crossing (wall_o w))
    ∨ (∃ k, k ∈ halfOverlapAnchors w ∧ k ∈ wallsOf b (wall_o w)).
Proof.
  unfold Board.wallLegal, Board.hHalfOverlap, Board.vHalfOverlap,
    halfOverlapAnchors.
  destruct w as [r c o]; simpl.
  destruct (negb _) eqn:Hrange.
  - split; [intros _; left|done].
    apply negb_true_iff in Hrange.
    rewrite !andb_false_iff, !Z.leb_gt, !Z.ltb_ge in Hrange. lia.
  - apply negb_false_iff in Hrange.
    rewrite !andb_true_iff, !Z.leb_le, !Z.ltb_lt in Hrange.
    destruct o; simpl; unfold JSSet.has;
      repeat case_bool_decide; simpl; set_unfold;
      (split; [intros ?|intros ?]); try done; naive_solver lia.
Qed.

Example wallLegal_cross_rejected :
  Board.wallLegal (Board.mk 9 [(3, 3)] [] [] []) (mkWall 3 3 oV) = false
  ∧ Board.wallLegal (Board.mk 9 [(3, 3)] [] [] []) (mkWall 3 4 oH) = false
  ∧ Board.wallLegal (Board.mk 9 [(3, 3)] [] [] []) (mkWall 3 5 oH) = true.
Proof. done. Qed.

(** ** [apply] and [undo] (C3, C4, C9) *)

Ltac unfold_monad :=
  unfold mbind, M_bind, bind, mret, M_ret, ret, get, modify, throw,
    GameState.onBoard in *.

(** The entries of an owner [Map] name placed walls only. Every state built
    by [new GameState] and changed through [apply], [undo] and [restore] of
    its own snapshots has this property. *)
Definition ownersWf (b : Board.t) : Prop :=
  (∀ k, k ∈ (Board.hOwners b).*1 → k ∈ Board.hWalls b)
  ∧ (∀ k, k ∈ (Board.vOwners b).*1 → k ∈ Board.vWalls b).

Definition ownersOf (b : Board.t) (o : Orient) : list (Key * Player) :=
  match o with oH => Board.hOwners b | oV => Board.vOwners b end.

(** The board after [placeWall(w, owner)]. *)
Definition withWall (w : Wall) (owner : option Player) (b : Board.t) : Board.t :=
  (Board.placeWall w owner b).2.

Lemma JSMap_elem_of_set {K V} `{EqDecision K} (k : K) (v : V) (m : list (K * V)) :
  (k, v) ∈ JSMap.set k v m.
Proof.
  unfold JSMap.set, JSMap.has. case_bool_decide as Hk.
  - apply list_elem_of_fmap in Hk as [[k' v'] [-> Hin]].
    apply list_elem_of_fmap. exists (k', v'). split; [|done].
    simpl. by rewrite decide_True.
  - apply elem_of_app. right. by apply list_elem_of_singleton.
Qed.

Lemma wallLegal_not_placed (b : Board.t) (w : Wall) :
Board.wallLegal b w = true → (wall_r w, wall_c w) ∉ wallsOf b (wall_o w).
Proof.
unfold Board.wallLegal, wallsOf. destruct w as [r c o]. simpl.
destruct (negb _); [done|].
destruct o; unfold JSSet.has; repeat case_bool_decide; done.
Qed.

Lemma JSMap_delete_absent {K V} `{EqDecision K} (k : K) (m : list (K * V)) :
  k ∉ m.*1 → JSMap.delete k m = m.
Proof.
  unfold JSMap.delete. induction m as [|[k' v'] m IH]; [done|].
  rewrite fmap_cons, not_elem_of_cons. simpl. intros [Hne Hm].
  rewrite filter_cons_True by (simpl; congruence). by rewrite IH.
Qed.

(** Placing a legal wall and removing it again gives the board back. *)
Lemma removeWall_placeWall (b : Board.t) (w : Wall) (owner : option Player) :
  ownersWf b → Board.wallLegal b w = true →
  (Board.removeWall w (withWall w owner b)).2 = b.
Proof.
  intros [Hh Hv] Hl. pose proof (wallLegal_not_placed b w Hl) as Hnp.
  unfold withWall, Board.placeWall, Board.removeWall. rewrite Hl. simpl.
  destruct b as [n h v ho vo], w as [r c o]; simpl in *.
  destruct o; simpl in *; rewrite JSSet_delete_add by done; f_equal;
    (destruct owner; [apply JSMap_delete_set|apply JSMap_delete_absent]);
    intros ?; apply Hnp; auto.
Qed.

(** Whatever the map held at [k], [set] and then [delete] leave it without
    an entry at [k]. *)
Lemma JSMap_delete_set_any {K V} `{EqDecision K} (k : K) (v : V)
    (m : list (K * V)) :
  JSMap.delete k (JSMap.set k v m) = JSMap.delete k m.
Proof.
  unfold JSMap.delete, JSMap.set. destruct (JSMap.has k m).
  - induction m as [|[k' v'] m IH]; [done|].
    rewrite fmap_cons. simpl. destruct (decide (k' = k)) as [->|Hne].
    + rewrite !filter_cons_False by (simpl; naive_solver). apply IH.
    + rewrite !filter_cons_True by done. by rewrite IH.
  - rewrite filter_app, filter_cons_False, filter_nil by (simpl; naive_solver).
    by rewrite app_nil_r.
Qed.

(** The board without the entry that the owner map of the orientation of
    [w] holds at the anchor of [w]. *)
Definition dropOwner (w : Wall) (b : Board.t) : Board.t :=
  let k := (wall_r w, wall_c w) in
  match wall_o w with
  | oH => Board.mk (Board.N b) (Board.hWalls b) (Board.vWalls b)
            (JSMap.delete k (Board.hOwners b)) (Board.vOwners b)
  | oV => Board.mk (Board.N b) (Board.hWalls b) (Board.vWalls b)
            (Board.hOwners b) (JSMap.delete k (Board.vOwners b))
  end.

(** Placing a legal wall and removing it again gives the size and the walls
    back; of the owner maps it deletes the entry at the anchor of the wall,
    whether [placeWall] wrote it or found it. *)
Lemma removeWall_withWall (b : Board.t) (w : Wall) (owner : option Player) :
  Board.wallLegal b w = true →
  (Board.removeWall w (withWall w owner b)).2 = dropOwner w b.
Proof.
  intros Hl. pose proof (wallLegal_not_placed b w Hl) as Hnp.
  unfold withWall, Board.placeWall, Board.removeWall, dropOwner.
  rewrite Hl. simpl.
  destruct b as [n h v ho vo], w as [r c o]; simpl in *.
  destruct o; simpl in *; rewrite JSSet_delete_add by done; f_equal;
    destruct owner; try done; apply JSMap_delete_set_any.
Qed.

Lemma dropOwner_absent (w : Wall) (b : Board.t) :
  (wall_r w, wall_c w) ∉ (ownersOf b (wall_o w)).*1 → dropOwner w b = b.
Proof.
  unfold dropOwner, ownersOf. destruct b as [n h v ho vo], w as [r c o].
  simpl. destruct o; intros Hk; by rewrite JSMap_delete_absent.
Qed.

(** A legal wall has no entry in a well-formed owner map. *)
Lemma ownersWf_absent (w : Wall) (b : Board.t) :
  ownersWf b → Board.wallLegal b w = true →
  (wall_r w, wall_c w) ∉ (ownersOf b (wall_o w)).*1.
Proof.
  intros [Hh Hv] Hl Hk. apply (wallLegal_not_placed b w Hl).
  unfold ownersOf, wallsOf in *. destruct (wall_o w); auto.
Qed.

Section apply_undo.
Import GameState.

(** Whatever [apply] does after the push, it never touches the history,
    the size of the board or the size of the game. *)
Lemma apply_frame (s : t) (mv : Move) (rec : bool) :
  let s' := (apply mv rec s).2 in
  history s' = (if rec then history s ++ [snapshot s] else history s)
  ∧ N s' = N s
  ∧ Board.N (board s') = Board.N (board s).
Proof.
  unfold apply. unfold_monad.
  destruct rec, mv as [to|w]; simpl;
    repeat match goal with
           | |- context [if ?c then _ else _] => destruct c eqn:?; simpl
           end;
    try done;
    unfold Board.placeWall, Board.removeWall;
    repeat match goal with
           | |- context [if ?c then _ else _] => destruct c eqn:?; simpl
           | |- context [match wall_o ?w with _ => _ end] =>
               destruct (wall_o w); simpl
           end; done.
Qed.

(** [undo] on a state whose history ends with [sn]. *)
Lemma undo_last (s : t) (h : list Snapshot) (sn : Snapshot) :
  history s = h ++ [sn] →
  undo s =
    (Ret tt,
     mk (Board.mk (Board.N (board s)) (s_h sn) (s_v sn) (s_hOwn sn) (s_vOwn sn))
        (N s) (s_pawns sn) (s_wl sn) (s_tm sn) h).
Proof.
  intros Hh. unfold undo, restore. unfold_monad. simpl.
  rewrite Hh, last_snoc. simpl. by rewrite Hh, removelast_last.
Qed.

(** The state [apply] works on once the snapshot has been pushed. *)
Definition recorded (rec : bool) (s : t) : t :=
  if rec then setHistory (history s ++ [snapshot s]) s else s.

Lemma apply_pawn_eq (s : t) (to : Cell) (rec : bool) :
  apply (PAWN to) rec s =
    if negb (existsb (λ p, sameCell p to) (legalPawnMoves s))
    then (Throw IllegalMove, recorded rec s)
    else (Ret tt,
          setToMove (other (toMove s))
            (setPawns (set2 (pawns s) (toMove s) to) (recorded rec s))).
Proof.
  unfold apply, recorded. unfold_monad.
  destruct rec; simpl;
    change (legalPawnMoves (setHistory _ s)) with (legalPawnMoves s);
    by destruct (existsb _ _).
Qed.

Lemma apply_wall_eq (s : t) (w : Wall) (rec : bool) :
  apply (WALL w) rec s =
    let me := toMove s in
    let s0 := recorded rec s in
    if bool_decide (at2 (wallsLeft s) me ≤ 0) then (Throw NoWallsLeft, s0)
    else if negb (Board.wallLegal (board s) w) then (Throw IllegalPlacement, s0)
    else
      let s1 := setBoard (withWall w (Some me) (board s)) s0 in
      if negb (bothConnected s1)
      then (Throw BlocksAllPaths, setBoard (Board.removeWall w (board s1)).2 s1)
      else (Ret tt,
            setToMove (other me)
              (setWallsLeft
                 (set2 (wallsLeft s) me (at2 (wallsLeft s) me - 1)) s1)).
Proof.
  unfold apply, recorded, withWall. unfold_monad.
  destruct rec; simpl;
    (case_bool_decide; [done|]);
    (destruct (Board.wallLegal (board s) w) eqn:Hl; simpl; [|done]);
    unfold Board.placeWall, Board.removeWall; rewrite Hl; simpl;
    destruct (wall_o w); simpl;
    match goal with
    | |- context [bothConnected ?x] => destruct (bothConnected x)
    end; done.
Qed.

Lemma recorded_history (s : t) :
  history (recorded true s) = history s ++ [snapshot s].
Proof. done. Qed.

Lemma snapshot_recorded (s : t) (rec : bool) :
  snapshot (recorded rec s) = snapshot s.
Proof. by destruct rec. Qed.

Lemma bothConnected_recorded (s : t) (b : Board.t) (rec : bool) :
  bothConnected (setBoard b (recorded rec s)) = bothConnected (setBoard b s).
Proof. by destruct rec. Qed.

(** [undo] after [apply] with [recordHistory = true], whether [apply]
    returned or threw, gives back the state before the [apply]. *)
Lemma undo_apply (s : t) (mv : Move) :
  undo (apply mv true s).2 = (Ret tt, s).
Proof.
  destruct (apply_frame s mv true) as (Hh & HN & HbN).
  rewrite (undo_last _ _ _ Hh), HN, HbN.
  by destruct s as [[] ? ? ? ? ?].
Qed.

(** A throwing [apply] leaves every field but the history as it was. *)
Lemma apply_throw_snapshot (s : t) (mv : Move) (rec : bool) (e : Error) :
  ownersWf (board s) →
  (apply mv rec s).1 = Throw e →
  snapshot (apply mv rec s).2 = snapshot s.
Proof.
  intros Hwf. destruct mv as [to|w].
  - rewrite apply_pawn_eq. destruct (negb _); [|done].
    intros _. apply snapshot_recorded.
  - rewrite apply_wall_eq. cbv zeta.
    case_bool_decide; [intros _; apply snapshot_recorded|].
    destruct (Board.wallLegal (board s) w) eqn:Hl; simpl;
      [|intros _; apply snapshot_recorded].
    destruct (negb (bothConnected _)); [intros _|done].
    assert (board (recorded rec s) = board s) as Hb by (by destruct rec).
    simpl. rewrite removeWall_placeWall by done.
    destruct rec; by destruct s as [[] ? ? ? ? ?].
Qed.

(** C4. When [apply(mv)] with [recordHistory = true] returns, [undo()]
    restores the state: it returns normally, pawns, both wall sets, both
    owner maps, walls-left and side-to-move (the fields a snapshot holds)
    are what they were before the [apply], the history log is back to its
    former length; indeed the whole state is the former one. *)
Theorem apply_then_undo_restores (s : t) (mv : Move) :
  (apply mv true s).1 = Ret tt →
  let s1 := (apply mv true s).2 in
  (undo s1).1 = Ret tt
  ∧ snapshot (undo s1).2 = snapshot s
  ∧ length (history (undo s1).2) = length (history s)
  ∧ (undo s1).2 = s.
Proof. intros _ s1. unfold s1. by rewrite undo_apply. Qed.

(** What a throwing [apply] leaves: the fields outside the board as they
    were, and the board too unless the failure is BlocksAllPaths; then the
    retraction has deleted the owner entry at the anchor of the wall. *)
Lemma apply_throw_fields (s : t) (mv : Move) (rec : bool) (e : Error) :
  (apply mv rec s).1 = Throw e →
  pawns (apply mv rec s).2 = pawns s
  ∧ wallsLeft (apply mv rec s).2 = wallsLeft s
  ∧ toMove (apply mv rec s).2 = toMove s
  ∧ (e ≠ BlocksAllPaths → board (apply mv rec s).2 = board s)
  ∧ (∀ w, mv = WALL w → e = BlocksAllPaths →
     board (apply mv rec s).2 = dropOwner w (board s)).
Proof.
  destruct mv as [to|w].
  - rewrite apply_pawn_eq. destruct (negb _); [|done]. intros [= <-].
    destruct rec; split_and!; done.
  - rewrite apply_wall_eq. cbv zeta.
    case_bool_decide;
      [intros [= <-]; destruct rec; split_and!; done|].
    destruct (Board.wallLegal (board s) w) eqn:Hl; simpl;
      [|intros [= <-]; destruct rec; split_and!; done].
    destruct (negb (bothConnected _)); [intros [= <-]|done].
    simpl. rewrite (removeWall_withWall _ _ _ Hl).
    destruct rec; split_and!; try done; by intros w' [= <-].
Qed.

Lemma blocks_or_not (e : Error) : e = BlocksAllPaths ∨ e ≠ BlocksAllPaths.
Proof. destruct e; (by left) || (by right). Qed.

Lemma dropOwner_walls (w : Wall) (b : Board.t) :
  Board.N (dropOwner w b) = Board.N b
  ∧ Board.hWalls (dropOwner w b) = Board.hWalls b
  ∧ Board.vWalls (dropOwner w b) = Board.vWalls b.
Proof. unfold dropOwner. by destruct (wall_o w). Qed.

Lemma snapshot_fields (s s1 : t) :
  board s1 = board s → pawns s1 = pawns s → wallsLeft s1 = wallsLeft s →
  toMove s1 = toMove s → snapshot s1 = snapshot s.
Proof. unfold snapshot. by intros -> -> -> ->. Qed.

(** C9, as the code has it. When [apply(mv)] with [recordHistory = true]
    throws, the history log is one snapshot longer than before, the snapshot
    added is that of the state before the call, pawns, both wall sets,
    walls-left and side-to-move are unchanged, and [undo()] then drops the
    stale snapshot and leaves the state the call started from. The owner
    maps are unchanged too, and [undo()] changes no field of a snapshot,
    when the failure is not BlocksAllPaths, when the owner map held no entry
    at the anchor of the wall, and so whenever the owner maps name placed
    walls only. On BlocksAllPaths the retraction deletes the entry that the
    owner map of the wall's orientation holds at the anchor of the wall. *)
Theorem apply_throw_leaves_stale_snapshot (s : t) (mv : Move) (e : Error) :
  (apply mv true s).1 = Throw e →
  let s1 := (apply mv true s).2 in
  let unchanged :=
    snapshot s1 = snapshot s ∧ snapshot (undo s1).2 = snapshot s1 in
  history s1 = history s ++ [snapshot s]
  ∧ pawns s1 = pawns s
  ∧ Board.hWalls (board s1) = Board.hWalls (board s)
  ∧ Board.vWalls (board s1) = Board.vWalls (board s)
  ∧ wallsLeft s1 = wallsLeft s
  ∧ toMove s1 = toMove s
  ∧ undo s1 = (Ret tt, s)
  ∧ (e ≠ BlocksAllPaths → unchanged)
  ∧ (∀ w, mv = WALL w → e = BlocksAllPaths →
     board s1 = dropOwner w (board s)
     ∧ ((wall_r w, wall_c w) ∉ (ownersOf (board s) (wall_o w)).*1 →
        unchanged))
  ∧ (ownersWf (board s) → unchanged).
Proof.
  intros He s1 unchanged. unfold unchanged, s1. clear s1 unchanged.
  destruct (apply_throw_fields s mv true e He) as (Hp & Hwl & Htm & Hb & Hd).
  rewrite undo_apply.
  assert (board (apply mv true s).2 = board s →
          snapshot (apply mv true s).2 = snapshot s
          ∧ snapshot (Ret tt, s).2 = snapshot (apply mv true s).2) as Hsame.
  { intros Hbs. by rewrite (snapshot_fields s _ Hbs Hp Hwl Htm). }
  assert (Board.hWalls (board (apply mv true s).2) = Board.hWalls (board s)
          ∧ Board.vWalls (board (apply mv true s).2) = Board.vWalls (board s))
    as [Hh Hv].
  { destruct (blocks_or_not e) as [->|Hne];
      [|by rewrite (Hb Hne)].
    destruct mv as [to|w].
    - rewrite apply_pawn_eq in He |- *. by destruct (negb _).
    - rewrite (Hd w eq_refl eq_refl). split; apply dropOwner_walls. }
  split_and!; try done.
  - apply apply_frame.
  - intros Hne. apply Hsame. by apply Hb.
  - intros w -> ->. split; [by apply Hd|].
    intros Hk. apply Hsame. rewrite (Hd w eq_refl eq_refl).
    by apply dropOwner_absent.
  - intros Hwf. apply Hsame.
    destruct (blocks_or_not e) as [->|Hne]; [|by apply Hb].
    destruct mv as [to|w].
    + rewrite apply_pawn_eq in He |- *. by destruct (negb _).
    + rewrite (Hd w eq_refl eq_refl). apply dropOwner_absent.
      apply ownersWf_absent; [done|].
      rewrite apply_wall_eq in He. cbv zeta in He.
      case_bool_decide; [done|].
      by destruct (Board.wallLegal (board s) w).
Qed.

(** C3, as the code has it. A WALL move: [apply] throws NoWallsLeft when
    the mover's walls-left counter is zero or less; otherwise
    IllegalPlacement when [wallLegal] is false; otherwise, when the board
    with the wall placed leaves a player without a path, it retracts the
    wall and throws BlocksAllPaths, and pawns, both wall sets, walls-left
    and side-to-move are as before the call, and the owner maps too but for
    the entry at the anchor of the wall, which the retraction deletes from
    the owner map of the wall's orientation: with no such entry, and so
    whenever the owner maps name placed walls only, all the fields of a
    snapshot are as before; otherwise it returns, the wall is in the wall
    set of its orientation with the mover as its owner, the mover's counter
    is one less and the side to move is the other player. *)
Theorem apply_wall_cases (s : t) (w : Wall) (rec : bool) :
  let me := toMove s in
  let r := apply (WALL w) rec s in
  let placed := setBoard (withWall w (Some me) (board s)) s in
  (at2 (wallsLeft s) me ≤ 0 → r.1 = Throw NoWallsLeft)
  ∧ (0 < at2 (wallsLeft s) me → Board.wallLegal (board s) w = false →
     r.1 = Throw IllegalPlacement)
  ∧ (0 < at2 (wallsLeft s) me → Board.wallLegal (board s) w = true →
     bothConnected placed = false →
     r.1 = Throw BlocksAllPaths
     ∧ pawns r.2 = pawns s
     ∧ Board.hWalls (board r.2) = Board.hWalls (board s)
     ∧ Board.vWalls (board r.2) = Board.vWalls (board s)
     ∧ wallsLeft r.2 = wallsLeft s
     ∧ toMove r.2 = toMove s
     ∧ board r.2 = dropOwner w (board s)
     ∧ ((wall_r w, wall_c w) ∉ (ownersOf (board s) (wall_o w)).*1 →
        snapshot r.2 = snapshot s)
     ∧ (ownersWf (board s) → snapshot r.2 = snapshot s))
  ∧ (0 < at2 (wallsLeft s) me → Board.wallLegal (board s) w = true →
     bothConnected placed = true →
     r.1 = Ret tt
     ∧ (wall_r w, wall_c w) ∈ wallsOf (board r.2) (wall_o w)
     ∧ ((wall_r w, wall_c w), me) ∈ ownersOf (board r.2) (wall_o w)
     ∧ at2 (wallsLeft r.2) me = at2 (wallsLeft s) me - 1
     ∧ toMove r.2 = other me).
Proof.
  intros me r placed. unfold r, placed, me.
  rewrite apply_wall_eq. cbv zeta.
  rewrite bothConnected_recorded.
  split_and!.
  - intros H0. by rewrite bool_decide_eq_true_2 by lia.
  - intros H0 Hl. rewrite bool_decide_eq_false_2 by lia. by rewrite Hl.
  - intros H0 Hl Hc. rewrite bool_decide_eq_false_2 by lia.
    rewrite Hl, Hc. simpl.
    rewrite (removeWall_withWall _ _ _ Hl).
    destruct (dropOwner_walls w (board s)) as (_ & Hh & Hv).
    assert ((wall_r w, wall_c w) ∉ (ownersOf (board s) (wall_o w)).*1 →
            snapshot (setBoard (dropOwner w (board s))
                        (setBoard (withWall w (Some (toMove s)) (board s))
                           (recorded rec s)))
            = snapshot s) as Hsame.
    { intros Hk. apply snapshot_fields; try (by destruct rec).
      simpl. by apply dropOwner_absent. }
    split_and!; try done; try (by destruct rec).
    intros Hwf. apply Hsame. by apply ownersWf_absent.
  - intros H0 Hl Hc. rewrite bool_decide_eq_false_2 by lia.
    rewrite Hl, Hc. simpl. split; [done|].
    unfold withWall, Board.placeWall. rewrite Hl. simpl.
    destruct (wall_o w) eqn:Ho; simpl; rewrite ?Ho; simpl;
      (split_and!;
       [apply JSSet_elem_of_add; by left
       |apply JSMap_elem_of_set
       |by destruct (toMove s)
       |done]).
Qed.

Lemma ownersWf_shutIn : ownersWf (board Samples.shutIn).
Proof. split; intros k Hk; vm_compute in Hk |- *; set_solver. Qed.

Lemma apply_then_undo_restores_witness :
  (undo (apply (PAWN (mkCell 0 2)) true Samples.shutIn).2).2 = Samples.shutIn.
Proof.
  apply (apply_then_undo_restores Samples.shutIn (PAWN (mkCell 0 2))).
  vm_compute. reflexivity.
Defined.

Lemma apply_throw_leaves_stale_snapshot_witness :
  history (apply (WALL Samples.shutInWall) true Samples.staleOwner).2
    = [snapshot Samples.staleOwner]
  ∧ undo (apply (WALL Samples.shutInWall) true Samples.staleOwner).2
    = (Ret tt, Samples.staleOwner).
Proof.
  destruct (apply_throw_leaves_stale_snapshot Samples.staleOwner
              (WALL Samples.shutInWall) BlocksAllPaths)
    as (Hh & _ & _ & _ & _ & _ & Hu & _).
  - vm_compute. reflexivity.
  - split; [exact Hh|exact Hu].
Defined.

(** C9 as the specification words it fails on [Samples.staleOwner]: the V
    wall at (0,1) is legal and shuts player 0 in, so [apply] throws
    BlocksAllPaths; the V owner map held an entry at (0,1), the retraction
    deletes it, and [undo()] puts it back. The throw changed an owner map,
    and so did the [undo()] after it. *)
Lemma apply_throw_claim_counterexample :
  (apply (WALL Samples.shutInWall) true Samples.staleOwner).1
    = Throw BlocksAllPaths
  ∧ Board.vOwners (board Samples.staleOwner) = [((0, 1), P1)]
  ∧ Board.vOwners
      (board (apply (WALL Samples.shutInWall) true Samples.staleOwner).2) = []
  ∧ Board.vOwners
      (board
         (undo (apply (WALL Samples.shutInWall) true Samples.staleOwner).2).2)
    = [((0, 1), P1)]
  ∧ snapshot (apply (WALL Samples.shutInWall) true Samples.staleOwner).2
    ≠ snapshot Samples.staleOwner
  ∧ snapshot
      (undo (apply (WALL Samples.shutInWall) true Samples.staleOwner).2).2
    ≠ snapshot (apply (WALL Samples.shutInWall) true Samples.staleOwner).2.
Proof. vm_compute. split_and!; (reflexivity || discriminate). Qed.

Lemma apply_wall_cases_witness :
  (apply (WALL Samples.shutInWall) false Samples.shutIn).1
    = Throw BlocksAllPaths
  ∧ snapshot (apply (WALL Samples.shutInWall) false Samples.shutIn).2
    = snapshot Samples.shutIn.
Proof.
  destruct (apply_wall_cases Samples.shutIn Samples.shutInWall false)
    as (_ & _ & Hblock & _).
  destruct Hblock as (Ht & _ & _ & _ & _ & _ & _ & _ & Hs);
    [vm_compute; reflexivity..|].
  split; [exact Ht|apply Hs; exact ownersWf_shutIn].
Defined.

(** C3 as the specification words it fails twice. On [Samples.staleOwner]
    the mover has walls left, the V wall at (0,1) is legal and shuts player
    0 in, and [apply] throws BlocksAllPaths, but the V owner map, which held
    an entry at (0,1), is empty after the call. On [Samples.overdrawn] the
    counter of the mover is not zero and [wallLegal] is false for the H wall
    at (0,0), which stands already, but [apply] throws NoWallsLeft, not
    IllegalPlacement. *)
Lemma apply_wall_claim_counterexample :
  (at2 (wallsLeft Samples.staleOwner) (toMove Samples.staleOwner) = 10
   ∧ Board.wallLegal (board Samples.staleOwner) Samples.shutInWall = true
   ∧ bothConnected
       (setBoard
          (withWall Samples.shutInWall (Some (toMove Samples.staleOwner))
             (board Samples.staleOwner))
          Samples.staleOwner) = false
   ∧ (apply (WALL Samples.shutInWall) false Samples.staleOwner).1
     = Throw BlocksAllPaths
   ∧ Board.vOwners (board Samples.staleOwner) = [((0, 1), P1)]
   ∧ Board.vOwners
       (board (apply (WALL Samples.shutInWall) false Samples.staleOwner).2)
     = [])
  ∧ (at2 (wallsLeft Samples.overdrawn) (toMove Samples.overdrawn) = -1
     ∧ Board.wallLegal (board Samples.overdrawn) (mkWall 0 0 oH) = false
     ∧ (apply (WALL (mkWall 0 0 oH)) false Samples.overdrawn).1
       = Throw NoWallsLeft).
Proof. vm_compute. split_and!; reflexivity. Qed.
End apply_undo.


(** ** Pawn moves (C6, C10) *)

Lemma sameCell_true (a b : Cell) : sameCell a b = true ↔ a = b.
Proof.
unfold sameCell. rewrite andb_true_iff, !Z.eqb_eq.
destruct a, b; simpl. split; [by intros [-> ->]|by intros [= -> ->]].
Qed.

Lemma sameCell_false (a b : Cell) : sameCell a b = false ↔ a ≠ b.
Proof.
rewrite <- not_true_iff_false, sameCell_true. done.
Qed.

Lemma keyCell_inj (a b : Cell) : keyCell a = keyCell b → a = b.
Proof. destruct a, b. by intros [= -> ->]. Qed.

(** The cells [cand] of [neighbors(p)], before the filter. *)
Definition adjacentOnBoard (n : Z) (p q : Cell) : Prop :=
(q = mkCell (cell_r p - 1) (cell_c p) ∧ 0 < cell_r p)
∨ (q = mkCell (cell_r p + 1) (cell_c p) ∧ cell_r p + 1 < n)
∨ (q = mkCell (cell_r p) (cell_c p - 1) ∧ 0 < cell_c p)
∨ (q = mkCell (cell_r p) (cell_c p + 1) ∧ cell_c p + 1 < n).

Lemma elem_of_neighbors (b : Board.t) (p q : Cell) :
q ∈ Board.neighbors b p ↔
  adjacentOnBoard (Board.N b) p q ∧ Board.blockedEdge b p q = false.
Proof.
unfold Board.neighbors, adjacentOnBoard.
rewrite list_elem_of_filter, !elem_of_app.
repeat match goal with
       | |- context [if ?c then _ else _] => destruct c eqn:?
       end;
  rewrite ?Z.ltb_lt, ?Z.ltb_ge in *;
  rewrite ?list_elem_of_singleton, ?elem_of_nil;
  intuition (try lia).
Qed.

Lemma elem_of_dedup (seen : list Key) (out : list Cell) (q : Cell) :
q ∈ GameState.dedup seen out ↔ q ∈ out ∧ keyCell q ∉ seen.
Proof.
revert seen. induction out as [|m out IH]; intros seen; simpl.
- rewrite elem_of_nil. tauto.
- destruct (JSSet.has (keyCell m) seen) eqn:E; simpl.
  + apply JSSet_has_true in E. rewrite IH, elem_of_cons.
    split; [tauto|]. intros [[->|?] ?]; tauto.
  + apply JSSet_has_false in E.
    rewrite !elem_of_cons, IH, JSSet_elem_of_add.
    split.
    * intros [->|[? ?]]; [tauto|]. split; [tauto|]. intros ?. tauto.
    * intros [[->|?] Hs]; [tauto|].
      destruct (decide (q = m)) as [->|Hne]; [tauto|].
      right. split; [done|]. intros [Hk|?]; [|done].
      by apply keyCell_inj in Hk.
Qed.

Section pawn_moves.
Import GameState.

(** The cells [legalPawnMoves] returns are those the loop pushed on [out]. *)
Lemma elem_of_legalPawnMoves (s : t) (q : Cell) :
q ∈ legalPawnMoves s ↔
  ∃ nb, nb ∈ Board.neighbors (board s) (at2 (pawns s) (toMove s))
        ∧ q ∈ pawnTargets s (at2 (pawns s) (toMove s))
                (at2 (pawns s) (other (toMove s))) nb.
Proof.
unfold legalPawnMoves. rewrite elem_of_dedup, list_elem_of_bind.
split; [intros [(nb & ? & ?) _]; eauto|].
intros (nb & ? & ?). split; [eauto|apply not_elem_of_nil].
Qed.

(** The cells pushed for the diagonal jumps. *)
Lemma elem_of_sides (s : t) (myp opp q : Cell) :
q ∈ (d ← sideOffsets;
     let side := mkCell (cell_r opp + cell_r d) (cell_c opp + cell_c d) in
     if negb (inBounds s side) then []
     else if negb (Board.blockedEdge (board s) opp side)
             && negb (Board.blockedEdge (board s) myp opp)
     then [side] else []) ↔
  (∃ d, d ∈ sideOffsets
        ∧ q = mkCell (cell_r opp + cell_r d) (cell_c opp + cell_c d))
  ∧ inBounds s q = true
  ∧ Board.blockedEdge (board s) opp q = false
  ∧ Board.blockedEdge (board s) myp opp = false.
Proof.
rewrite list_elem_of_bind. split.
- intros (d & Hq & Hd). cbv zeta in Hq.
  destruct (inBounds s _) eqn:Hin; simpl in Hq; [|by apply elem_of_nil in Hq].
  destruct (Board.blockedEdge (board s) opp _) eqn:Hb1; simpl in Hq;
    [by apply elem_of_nil in Hq|].
  destruct (Board.blockedEdge (board s) myp opp) eqn:Hb2; simpl in Hq;
    [by apply elem_of_nil in Hq|].
  apply list_elem_of_singleton in Hq as ->. split_and!; eauto.
- intros ((d & Hd & ->) & Hin & Hb1 & Hb2). exists d. split; [|done].
  cbv zeta. rewrite Hin, Hb1, Hb2. simpl. by apply list_elem_of_singleton.
Qed.

(** What one neighbour of the mover's pawn pushes on [out] lies on the
    board and is not the opponent's cell. *)
Lemma pawnTargets_on_board (s : t) (nb q : Cell) :
Board.N (board s) = N s →
inBounds s (at2 (pawns s) (toMove s)) = true →
nb ∈ Board.neighbors (board s) (at2 (pawns s) (toMove s)) →
q ∈ pawnTargets s (at2 (pawns s) (toMove s))
      (at2 (pawns s) (other (toMove s))) nb →
(0 ≤ cell_r q < N s ∧ 0 ≤ cell_c q < N s)
∧ q ≠ at2 (pawns s) (other (toMove s)).
Proof.
intros HN Hmy Hnb Hq.
apply elem_of_neighbors in Hnb as [Hadj Hfree]. rewrite HN in Hadj.
set (myp := at2 (pawns s) (toMove s)) in *.
set (opp := at2 (pawns s) (other (toMove s))) in *.
unfold inBounds in Hmy.
rewrite !andb_true_iff, !Z.leb_le, !Z.ltb_lt in Hmy.
unfold pawnTargets in Hq.
destruct (sameCell nb opp) eqn:Hsame.
- apply sameCell_true in Hsame as ->.
  destruct (inBounds s _ && _) eqn:Hjump.
  + apply list_elem_of_singleton in Hq as ->.
    apply andb_true_iff in Hjump as [Hin _]. unfold inBounds in Hin.
    rewrite !andb_true_iff, !Z.leb_le, !Z.ltb_lt in Hin. simpl in Hin.
    split; [simpl; lia|].
    intros Heq. destruct opp as [ro co]. simpl in *.
    injection Heq as Hr Hc.
    unfold adjacentOnBoard in Hadj. simpl in Hadj.
    destruct Hadj as [[[= ? ?] _]|[[[= ? ?] _]|[[[= ? ?] _]|[[= ? ?] _]]]]; lia.
  + apply elem_of_sides in Hq as ((d & Hd & ->) & Hin & _).
    unfold inBounds in Hin.
    rewrite !andb_true_iff, !Z.leb_le, !Z.ltb_lt in Hin. simpl in Hin.
    split; [simpl; lia|].
    intros Heq. destruct opp as [ro co]. simpl in *.
    injection Heq as Hr Hc.
    unfold sideOffsets in Hd. set_unfold.
    destruct Hd as [?|[?|[?|[?|[]]]]]; subst d; simpl in *; lia.
- apply list_elem_of_singleton in Hq as ->.
  apply sameCell_false in Hsame. split; [|done].
  unfold adjacentOnBoard in Hadj.
  destruct Hadj as [[-> ?]|[[-> ?]|[[-> ?]|[-> ?]]]]; simpl; lia.
Qed.

(** C10. In a state whose board has the size of the game and whose mover's
    pawn is on the board, every cell [legalPawnMoves()] returns lies on the
    N x N board and is not the cell of the opponent's pawn. *)
Theorem legalPawnMoves_on_board (s : t) (q : Cell) :
Board.N (board s) = N s →
inBounds s (at2 (pawns s) (toMove s)) = true →
q ∈ legalPawnMoves s →
(0 ≤ cell_r q < N s ∧ 0 ≤ cell_c q < N s)
∧ q ≠ at2 (pawns s) (other (toMove s)).
Proof.
intros HN Hmy Hq.
apply elem_of_legalPawnMoves in Hq as (nb & Hnb & Hq).
by apply (pawnTargets_on_board s nb q).
Qed.

Lemma legalPawnMoves_on_board_witness :
(0 ≤ cell_r (mkCell 3 0) < N Samples.jumpAtEdge
 ∧ 0 ≤ cell_c (mkCell 3 0) < N Samples.jumpAtEdge)
∧ mkCell 3 0 ≠ at2 (pawns Samples.jumpAtEdge) P1.
Proof.
apply (legalPawnMoves_on_board Samples.jumpAtEdge (mkCell 3 0)).
- reflexivity.
- reflexivity.
- apply (bool_decide_unpack _). by vm_compute.
Defined.

(** The destination of the straight jump: two cells from the mover's pawn,
    through the opponent's. *)
Definition straightJump (s : t) : Cell :=
let myp := at2 (pawns s) (toMove s) in
let opp := at2 (pawns s) (other (toMove s)) in
mkCell (cell_r opp + (cell_r opp - cell_r myp))
       (cell_c opp + (cell_c opp - cell_c myp)).

(** [side] is one of the two cells next to the opponent's pawn in the
    directions perpendicular to the jump. *)
Definition perpendicularSide (s : t) (side : Cell) : Prop :=
let myp := at2 (pawns s) (toMove s) in
let opp := at2 (pawns s) (other (toMove s)) in
let dr := cell_r opp - cell_r myp in
let dc := cell_c opp - cell_c myp in
side = mkCell (cell_r opp + dc) (cell_c opp + dr)
∨ side = mkCell (cell_r opp - dc) (cell_c opp - dr).

(** C6, as the code has it. When a neighbour of the mover's pawn holds the
    opponent's pawn and the straight jump is off the board or blocked by a
    wall, each of the two cells perpendicular to the jump direction from the
    opponent's cell is offered by [legalPawnMoves()] if and only if it is on
    the board and not blocked by a wall from the opponent's cell. *)
Theorem diagonal_jump_offered_iff (s : t) (side : Cell) :
at2 (pawns s) (other (toMove s))
  ∈ Board.neighbors (board s) (at2 (pawns s) (toMove s)) →
inBounds s (straightJump s)
&& negb (Board.blockedEdge (board s) (at2 (pawns s) (other (toMove s)))
           (straightJump s)) = false →
perpendicularSide s side →
side ∈ legalPawnMoves s ↔
  inBounds s side = true
  ∧ Board.blockedEdge (board s) (at2 (pawns s) (other (toMove s))) side = false.
Proof.
unfold straightJump, perpendicularSide. cbv zeta.
set (myp := at2 (pawns s) (toMove s)).
set (opp := at2 (pawns s) (other (toMove s))).
intros Hopp Hjump Hside.
pose proof Hopp as Hopp'.
apply elem_of_neighbors in Hopp' as [Hadj Hfree].
rewrite elem_of_legalPawnMoves. fold myp opp. split.
- intros (nb & Hnb & Hq). unfold pawnTargets in Hq.
  destruct (sameCell nb opp) eqn:Hsame.
  + apply sameCell_true in Hsame as ->. rewrite Hjump in Hq.
    apply elem_of_sides in Hq. tauto.
  + apply list_elem_of_singleton in Hq as ->.
    apply elem_of_neighbors in Hnb as [Hadj' _].
    unfold adjacentOnBoard in Hadj, Hadj'. exfalso.
    destruct opp as [ro co], myp as [rm cm], nb as [rn cn]. simpl in *.
    destruct Hadj as [[[= -> ->] _]|[[[= -> ->] _]|[[[= -> ->] _]|[[= -> ->] _]]]];
      destruct Hside as [[= ? ?]|[= ? ?]];
      destruct Hadj' as [[[= ? ?] _]|[[[= ? ?] _]|[[[= ? ?] _]|[[= ? ?] _]]]];
      lia.
- intros [Hin Hb]. exists opp. split; [done|].
  unfold pawnTargets. rewrite (proj2 (sameCell_true opp opp) eq_refl), Hjump.
  apply elem_of_sides. split_and!; [|done..].
  unfold adjacentOnBoard in Hadj. unfold sideOffsets.
  destruct opp as [ro co], myp as [rm cm], side as [rs cs]. simpl in *.
  destruct Hadj as [[[= -> ->] _]|[[[= -> ->] _]|[[[= -> ->] _]|[[= -> ->] _]]]];
    destruct Hside as [[= -> ->]|[= -> ->]];
    [exists (mkCell 0 (-1))|exists (mkCell 0 1)
    |exists (mkCell 0 1)|exists (mkCell 0 (-1))
    |exists (mkCell (-1) 0)|exists (mkCell 1 0)
    |exists (mkCell 1 0)|exists (mkCell (-1) 0)];
    (split; [set_solver|simpl; f_equal; lia]).
Qed.

Lemma diagonal_jump_offered_iff_witness :
mkCell 3 5 ∈ legalPawnMoves Samples.jumpWalled ↔
  inBounds Samples.jumpWalled (mkCell 3 5) = true
  ∧ Board.blockedEdge (board Samples.jumpWalled) (mkCell 4 5) (mkCell 3 5)
    = false.
Proof.
apply (diagonal_jump_offered_iff Samples.jumpWalled (mkCell 3 5)).
- vm_compute. set_solver.
- reflexivity.
- right. reflexivity.
Defined.

(** C6 as the specification words it fails on [Samples.jumpAtEdge]: player 1
    stands on the edge next to the mover, so the straight jump leaves the
    board and no wall blocks the way behind player 1; the perpendicular cell
    (3,0) is offered all the same, and so is (4,1), the mover's own cell,
    which is neither a perpendicular cell nor a neighbour of the mover. *)
Lemma diagonal_jump_claim_counterexample :
at2 (pawns Samples.jumpAtEdge) P1
  ∈ Board.neighbors (board Samples.jumpAtEdge) (at2 (pawns Samples.jumpAtEdge) P0)
∧ inBounds Samples.jumpAtEdge (straightJump Samples.jumpAtEdge) = false
∧ Board.blockedEdge (board Samples.jumpAtEdge)
    (at2 (pawns Samples.jumpAtEdge) P1) (straightJump Samples.jumpAtEdge)
  = false
∧ perpendicularSide Samples.jumpAtEdge (mkCell 3 0)
∧ mkCell 3 0 ∈ legalPawnMoves Samples.jumpAtEdge
∧ mkCell 4 1 ∈ legalPawnMoves Samples.jumpAtEdge
∧ ¬ perpendicularSide Samples.jumpAtEdge (mkCell 4 1)
∧ mkCell 4 1 ∉ Board.neighbors (board Samples.jumpAtEdge)
                 (at2 (pawns Samples.jumpAtEdge) P0).
Proof.
split_and!; try reflexivity; vm_compute; set_solver.
Qed.
End pawn_moves.


(** ** The legal moves and their application *)

Lemma JSMap_keys_set {K V} `{EqDecision K} (k k' : K) (v : V) (m : list (K * V)) :
k' ∈ (JSMap.set k v m).*1 ↔ k' = k ∨ k' ∈ m.*1.
Proof.
unfold JSMap.set, JSMap.has. case_bool_decide as Hk.
- assert (((λ kv : K * V, if decide (kv.1 = k) then (k, v) else kv) <$> m).*1
          = m.*1) as ->.
  { rewrite <- list_fmap_compose. apply list_fmap_ext.
    intros i [k0 v0] _. simpl. by case_decide; simpl. }
  split; [by right|]. by intros [->|?].
- rewrite fmap_app, elem_of_app. simpl. rewrite list_elem_of_singleton. tauto.
Qed.

(** Paths depend on the size and the walls of a board, not on the owners. *)
Definition sameGeometry (b1 b2 : Board.t) : Prop :=
Board.N b1 = Board.N b2
∧ Board.hWalls b1 = Board.hWalls b2
∧ Board.vWalls b1 = Board.vWalls b2.

Lemma neighbors_geometry (b1 b2 : Board.t) (p : Cell) :
sameGeometry b1 b2 → Board.neighbors b1 p = Board.neighbors b2 p.
Proof.
destruct b1, b2. unfold sameGeometry. simpl. by intros (-> & -> & ->).
Qed.

Lemma bfsDist_loop_geometry (b1 b2 : Board.t) fuel goalRows seen q :
sameGeometry b1 b2 →
Board.bfsDist_loop fuel b1 goalRows seen q
= Board.bfsDist_loop fuel b2 goalRows seen q.
Proof.
intros Hg. revert seen q. induction fuel as [|fuel IH]; intros seen q; [done|].
simpl. destruct q as [|[u d] q]; [done|].
destruct (JSSet.has _ _); [done|].
rewrite (neighbors_geometry b1 b2 u Hg). apply IH.
Qed.

Lemma pathExistsFor_geometry (b1 b2 : Board.t) start goalRows :
sameGeometry b1 b2 →
Board.pathExistsFor b1 start goalRows = Board.pathExistsFor b2 start goalRows.
Proof.
intros Hg. unfold Board.pathExistsFor, Board.bfsDistToGoal,
  Board.bfsDistToGoal_fuel, Board.cellBound.
destruct Hg as (HN & Hh & Hv). rewrite HN.
by rewrite (bfsDist_loop_geometry b1 b2) by done.
Qed.

Lemma withWall_geometry (b : Board.t) (w : Wall) (o1 o2 : option Player) :
sameGeometry (withWall w o1 b) (withWall w o2 b).
Proof.
unfold withWall, Board.placeWall.
destruct (negb _); [done|]. by destruct (wall_o w).
Qed.

(** [m] without the entries at the keys [ks]. *)
Definition withoutKeys (ks : list Key) (m : list (Key * Player))
  : list (Key * Player) :=
filter (λ kv, kv.1 ∉ ks) m.

(** The owner maps of [b'] are those of [b] without the entries at some
    anchors, at none of which a wall of [b] of that orientation stands. *)
Definition staleDropped (b b' : Board.t) : Prop :=
∃ hs vs : list Key,
  Board.hOwners b' = withoutKeys hs (Board.hOwners b)
  ∧ Board.vOwners b' = withoutKeys vs (Board.vOwners b)
  ∧ (∀ k, k ∈ hs → k ∉ Board.hWalls b)
  ∧ (∀ k, k ∈ vs → k ∉ Board.vWalls b).

Lemma withoutKeys_id (ks : list Key) (m : list (Key * Player)) :
(∀ k, k ∈ m.*1 → k ∉ ks) → withoutKeys ks m = m.
Proof.
unfold withoutKeys. induction m as [|[k v] m IH]; [done|].
intros Hk. rewrite filter_cons_True by (apply Hk; simpl; by left).
rewrite IH; [done|]. intros k' Hk'. apply Hk. simpl. by right.
Qed.

Lemma withoutKeys_nil (m : list (Key * Player)) : withoutKeys [] m = m.
Proof. apply withoutKeys_id. intros k _. apply not_elem_of_nil. Qed.

Lemma withoutKeys_app (ks1 ks2 : list Key) (m : list (Key * Player)) :
withoutKeys ks2 (withoutKeys ks1 m) = withoutKeys (ks1 ++ ks2) m.
Proof.
unfold withoutKeys. rewrite list_filter_filter. apply list_filter_iff.
intros kv. rewrite elem_of_app. tauto.
Qed.

Lemma withoutKeys_delete (k : Key) (m : list (Key * Player)) :
JSMap.delete k m = withoutKeys [k] m.
Proof.
unfold JSMap.delete, withoutKeys. apply list_filter_iff.
intros kv. by rewrite list_elem_of_singleton.
Qed.

Lemma staleDropped_refl (b : Board.t) : staleDropped b b.
Proof.
exists [], []. rewrite !withoutKeys_nil.
split_and!; try done; intros k Hk; by apply elem_of_nil in Hk.
Qed.

Lemma staleDropped_trans (b1 b2 b3 : Board.t) :
sameGeometry b1 b2 →
staleDropped b1 b2 → staleDropped b2 b3 → staleDropped b1 b3.
Proof.
intros (_ & Hh & Hv) (hs1 & vs1 & Hh1 & Hv1 & Hhs1 & Hvs1)
  (hs2 & vs2 & Hh2 & Hv2 & Hhs2 & Hvs2).
exists (hs1 ++ hs2), (vs1 ++ vs2).
rewrite Hh2, Hv2, Hh1, Hv1, !withoutKeys_app.
rewrite <- Hh in Hhs2. rewrite <- Hv in Hvs2.
split_and!; try done; intros k [?|?]%elem_of_app; auto.
Qed.

(** Under [ownersWf] there is nothing to drop. *)
Lemma staleDropped_wf (b b' : Board.t) :
ownersWf b → staleDropped b b' →
Board.hOwners b' = Board.hOwners b ∧ Board.vOwners b' = Board.vOwners b.
Proof.
intros [Hwh Hwv] (hs & vs & -> & -> & Hhs & Hvs).
split; apply withoutKeys_id; intros k Hk Hin.
- by apply (Hhs k Hin), Hwh.
- by apply (Hvs k Hin), Hwv.
Qed.

Lemma staleDropped_dropOwner (b : Board.t) (w : Wall) :
Board.wallLegal b w = true → staleDropped b (dropOwner w b).
Proof.
intros Hnp%wallLegal_not_placed. unfold dropOwner, wallsOf in *.
destruct (wall_o w); simpl.
- exists [(wall_r w, wall_c w)], [].
  rewrite withoutKeys_nil, withoutKeys_delete.
  split_and!; try done; intros k Hk.
  + by apply list_elem_of_singleton in Hk as ->.
  + by apply elem_of_nil in Hk.
- exists [], [(wall_r w, wall_c w)].
  rewrite withoutKeys_nil, withoutKeys_delete.
  split_and!; try done; intros k Hk.
  + by apply elem_of_nil in Hk.
  + by apply list_elem_of_singleton in Hk as ->.
Qed.

Section legal_moves.
Import GameState.

Lemma bothConnected_geometry (s : t) (b1 b2 : Board.t) :
sameGeometry b1 b2 →
bothConnected (setBoard b1 s) = bothConnected (setBoard b2 s).
Proof.
intros Hg. unfold bothConnected. simpl.
by rewrite !(pathExistsFor_geometry b1 b2) by done.
Qed.

Lemma setBoard_board (s : t) : setBoard (board s) s = s.
Proof. by destruct s. Qed.

(** [s'] is [s] but for the owner maps of its board. *)
Definition sameButOwners (s s' : t) : Prop :=
sameGeometry (board s) (board s')
∧ N s' = N s ∧ pawns s' = pawns s ∧ wallsLeft s' = wallsLeft s
∧ toMove s' = toMove s ∧ history s' = history s.

(** What a run of the engine's queries does to the state: nothing, but for
    owner entries that name no wall, which a probe of [legalWallMoves] may
    delete. *)
Definition settles (s s' : t) : Prop :=
sameButOwners s s'
∧ (ownersWf (board s) → s' = s)
∧ staleDropped (board s) (board s').

Lemma sameButOwners_refl (s : t) : sameButOwners s s.
Proof. by repeat split. Qed.

Lemma sameButOwners_trans (s1 s2 s3 : t) :
sameButOwners s1 s2 → sameButOwners s2 s3 → sameButOwners s1 s3.
Proof.
unfold sameButOwners, sameGeometry. intros ? ?. destruct_and!.
split_and!; congruence.
Qed.

Lemma settles_refl (s : t) : settles s s.
Proof.
split_and!; [apply sameButOwners_refl|done|apply staleDropped_refl].
Qed.

Lemma settles_trans (s1 s2 s3 : t) : settles s1 s2 → settles s2 s3 → settles s1 s3.
Proof.
intros (H12 & Hwf12 & Hd12) (H23 & Hwf23 & Hd23).
split_and!; [by eapply sameButOwners_trans| |].
- intros Hwf. specialize (Hwf12 Hwf). subst s2. by apply Hwf23.
- apply (staleDropped_trans _ (board s2)); [apply H12|done..].
Qed.

(** The test a candidate wall passes in [legalWallMoves]. *)
Definition wallOk (s : t) (w : Wall) : bool :=
Board.wallLegal (board s) w
&& bothConnected (setBoard (withWall w None (board s)) s).

(** The walls [legalWallMoves()] returns, as a function of the state. *)
Definition legalWalls (s : t) : list Wall :=
if bool_decide (at2 (wallsLeft s) (toMove s) ≤ 0) then []
else filter (λ w, wallOk s w = true) (wallCandidates (N s)).

(** The moves [legalMoves()] returns, as a function of the state. *)
Definition legalMoveList (s : t) : list Move :=
(PAWN <$> legalPawnMoves s) ++ (WALL <$> legalWalls s).

Lemma wallLegal_geometry (b1 b2 : Board.t) (w : Wall) :
sameGeometry b1 b2 → Board.wallLegal b1 w = Board.wallLegal b2 w.
Proof.
destruct b1, b2. unfold sameGeometry. simpl. by intros (-> & -> & ->).
Qed.

Lemma bothConnected_sameButOwners (s s' : t) :
sameButOwners s s' → bothConnected s' = bothConnected s.
Proof.
intros (Hg & HN & Hp & _). unfold bothConnected, goalRows.
rewrite HN, Hp. by rewrite !(pathExistsFor_geometry (board s) (board s')).
Qed.

Lemma withWall_sameGeometry (b1 b2 : Board.t) (w : Wall) (o1 o2 : option Player) :
sameGeometry b1 b2 → sameGeometry (withWall w o1 b1) (withWall w o2 b2).
Proof.
intros Hg. unfold withWall, Board.placeWall.
rewrite (wallLegal_geometry b1 b2 w Hg).
destruct Hg as (HN & Hh & Hv).
destruct (negb _); [done|].
destruct (wall_o w); simpl; unfold sameGeometry; simpl;
  by rewrite ?HN, ?Hh, ?Hv.
Qed.

Lemma wallOk_sameButOwners (s s' : t) (w : Wall) :
sameButOwners s s' → wallOk s' w = wallOk s w.
Proof.
intros Hsb. unfold wallOk.
rewrite <- (wallLegal_geometry (board s) (board s') w) by apply Hsb.
f_equal. apply bothConnected_sameButOwners.
destruct Hsb as (Hg & HN & Hp & Hwl & Htm & Hh).
split_and!; try done. simpl. by apply withWall_sameGeometry.
Qed.

Lemma legalPawnMoves_sameButOwners (s s' : t) :
sameButOwners s s' → legalPawnMoves s' = legalPawnMoves s.
Proof.
destruct s as [[] ? ? ? ? ?], s' as [[] ? ? ? ? ?].
unfold sameButOwners, sameGeometry. simpl. intros ?. destruct_and!.
by simplify_eq.
Qed.

Lemma legalMoveList_sameButOwners (s s' : t) :
sameButOwners s s' → legalMoveList s' = legalMoveList s.
Proof.
intros Hsb. unfold legalMoveList, legalWalls.
rewrite (legalPawnMoves_sameButOwners s s' Hsb).
pose proof Hsb as (Hg & HN & Hp & Hwl & Htm & Hh).
rewrite HN, Hwl, Htm. do 2 f_equal.
case_bool_decide; [done|].
apply list_filter_iff. intros w.
by rewrite (wallOk_sameButOwners s s').
Qed.

Lemma placeWall_legal (b : Board.t) (w : Wall) (o : option Player) :
Board.wallLegal b w = true → Board.placeWall w o b = (Ret tt, withWall w o b).
Proof.
intros Hl. unfold withWall, Board.placeWall. rewrite Hl. simpl.
by destruct (wall_o w).
Qed.

Lemma removeWall_ret (b : Board.t) (w : Wall) :
Board.removeWall w b = (Ret tt, (Board.removeWall w b).2).
Proof. unfold Board.removeWall. by destruct (wall_o w). Qed.

(** Removing a wall just placed gives back the size and the walls. *)
Lemma removeWall_placeWall_geometry (b : Board.t) (w : Wall) (o : option Player) :
Board.wallLegal b w = true →
sameGeometry b (Board.removeWall w (withWall w o b)).2.
Proof.
intros Hl. pose proof (wallLegal_not_placed b w Hl) as Hnp.
unfold withWall, Board.placeWall, Board.removeWall. rewrite Hl. simpl.
destruct b as [n h v ho vo], w as [r c wo]. simpl in *.
destruct wo; simpl in *; unfold sameGeometry; simpl;
  by rewrite JSSet_delete_add.
Qed.

Lemma probeWall_run (s : t) (cand : list Wall) (w : Wall) :
∃ s', probeWall cand w s
      = (Ret (if wallOk s w then cand ++ [w] else cand), s')
      ∧ settles s s'.
Proof.
unfold probeWall, wallOk. unfold_monad. cbv beta iota zeta.
destruct (Board.wallLegal (board s) w) eqn:Hl; cbn [negb andb].
- rewrite (placeWall_legal _ _ None Hl). cbn [fst snd board setBoard].
  rewrite removeWall_ret. cbn [fst snd].
  eexists. split; [done|]. split_and!.
  + split_and!; try done. simpl. by apply removeWall_placeWall_geometry.
  + intros Hwf. rewrite (removeWall_placeWall _ _ _ Hwf Hl). by destruct s.
  + simpl. rewrite (removeWall_withWall _ _ _ Hl).
    by apply staleDropped_dropOwner.
- exists s. split; [done|apply settles_refl].
Qed.

Lemma forM_probeWall_run (s : t) (ws cand : list Wall) :
∃ s', forM ws cand probeWall s
      = (Ret (cand ++ filter (λ w, wallOk s w = true) ws), s')
      ∧ settles s s'.
Proof.
revert s cand. induction ws as [|w ws IH]; intros s cand; simpl.
- exists s. rewrite app_nil_r. split; [done|apply settles_refl].
- unfold_monad. destruct (probeWall_run s cand w) as (s1 & -> & Hs1).
  destruct (IH s1 (if wallOk s w then cand ++ [w] else cand)) as (s2 & -> & Hs2).
  exists s2. split; [|by eapply settles_trans].
  f_equal. f_equal.
  assert (filter (λ w0, wallOk s1 w0 = true) ws
          = filter (λ w0, wallOk s w0 = true) ws) as ->.
  { apply list_filter_iff. intros w0.
    by rewrite (wallOk_sameButOwners s s1) by apply Hs1. }
  destruct (wallOk s w) eqn:Hok.
  + rewrite filter_cons_True by done. by rewrite <- app_assoc.
  + rewrite filter_cons_False by (by rewrite Hok). done.
Qed.

Lemma legalWallMoves_run (s : t) :
∃ s', legalWallMoves s = (Ret (legalWalls s), s') ∧ settles s s'.
Proof.
unfold legalWallMoves, legalWalls. unfold_monad.
case_bool_decide; [exists s; split; [done|apply settles_refl]|].
apply forM_probeWall_run.
Qed.

Lemma legalMoves_run (s : t) :
∃ s', legalMoves s = (Ret (legalMoveList s), s') ∧ settles s s'.
Proof.
unfold legalMoves, legalMoveList. unfold_monad.
destruct (legalWallMoves_run s) as (s' & -> & Hs'). eauto.
Qed.

Lemma legalWallMoves_eq (s : t) :
ownersWf (board s) → legalWallMoves s = (Ret (legalWalls s), s).
Proof.
intros Hwf. destruct (legalWallMoves_run s) as (s' & -> & _ & Heq & _).
by rewrite Heq.
Qed.

Lemma ownersWf_withWall (b : Board.t) (w : Wall) (o : option Player) :
ownersWf b → ownersWf (withWall w o b).
Proof.
intros [Hh Hv]. unfold withWall, Board.placeWall.
destruct (negb _); [done|].
destruct (wall_o w), o; split; simpl; intros k; try done;
  rewrite ?JSMap_keys_set, ?JSSet_elem_of_add; naive_solver.
Qed.

(** [apply] with [recordHistory = false] on a move of [legalMoves()]
    returns, and it keeps the owner maps well formed. *)
Lemma apply_legal (s : t) (mv : Move) :
mv ∈ legalMoveList s →
(apply mv false s).1 = Ret tt
∧ (ownersWf (board s) → ownersWf (board (apply mv false s).2)).
Proof.
unfold legalMoveList. rewrite elem_of_app, !list_elem_of_fmap.
intros [(q & -> & Hq)|(w & -> & Hw)].
- rewrite apply_pawn_eq.
  assert (existsb (λ p, sameCell p q) (legalPawnMoves s) = true) as ->.
  { apply existsb_exists. exists q. split; [by apply list_elem_of_In|].
    by apply sameCell_true. }
  done.
- rewrite apply_wall_eq. cbv zeta. unfold legalWalls in Hw.
  case_bool_decide; [by apply elem_of_nil in Hw|].
  apply list_elem_of_filter in Hw as [Hok _]. unfold wallOk in Hok.
  apply andb_true_iff in Hok as [Hl Hc]. rewrite Hl. simpl.
  rewrite (bothConnected_geometry s _ (withWall w None (board s)))
    by apply withWall_geometry.
  rewrite Hc. simpl. split; [done|]. by apply ownersWf_withWall.
Qed.

(** [restore] of the snapshot of [s] in a state with the sizes and the
    history of [s] gives [s]. *)
Lemma restore_frame (s s2 : t) :
N s2 = N s → Board.N (board s2) = Board.N (board s) → history s2 = history s →
restore (snapshot s) s2 = (Ret tt, s).
Proof.
intros HN HbN Hh. unfold restore. unfold_monad. rewrite Hh, HN, HbN.
by destruct s as [[] ? ? ? ? ?].
Qed.

(** In particular after an [apply] without history, and whatever has been
    done to the owner maps since. *)
Lemma restore_apply (s s2 : t) (mv : Move) :
sameButOwners (apply mv false s).2 s2 →
restore (snapshot s) s2 = (Ret tt, s).
Proof.
destruct (apply_frame s mv false) as (Hh & HN & HbN).
intros ((HgN & _) & HN2 & _ & _ & _ & Hh2).
apply restore_frame; congruence.
Qed.
End legal_moves.


(** ** The search (C2, C7) *)

Section search.
Import GameState Search.

Lemma insertScored_perm (x : PrimFloat.float * Move) l :
insertScored x l ≡ₚ x :: l.
Proof.
induction l as [|y l IH]; simpl; [done|].
destruct (PrimFloat.ltb _ _); [|done].
rewrite IH. apply Permutation_swap.
Qed.

Lemma sortScored_perm (l : list (PrimFloat.float * Move)) : sortScored l ≡ₚ l.
Proof.
unfold sortScored. induction l as [|x l IH]; simpl; [done|].
by rewrite insertScored_perm, IH.
Qed.

(** A loop whose body appends one entry and leaves the state alone. *)
Lemma forM_snoc {A B} (xs : list A) (proj : B → A) (body : list B → A → M t (list B))
  (s : t) (acc : list B) :
(∀ x, x ∈ xs → ∃ y, proj y = x ∧ ∀ acc, body acc x s = (Ret (acc ++ [y]), s)) →
∃ ys, forM xs acc body s = (Ret (acc ++ ys), s) ∧ proj <$> ys = xs.
Proof.
revert acc. induction xs as [|x xs IH]; intros acc Hbody; simpl.
- exists []. by rewrite app_nil_r.
- destruct (Hbody x) as (y & Hy & Hx); [by left|].
  destruct (IH (acc ++ [y])) as (ys & Hys & Hproj).
  { intros x' Hx'. apply Hbody. by right. }
  exists (y :: ys). unfold_monad. rewrite Hx, Hys.
  split; [by rewrite <- app_assoc|]. rewrite fmap_cons. by rewrite Hy, Hproj.
Qed.

Lemma scoreMove_eq (distFn : DistFn) me myGoal oppGoal backSquare recent sp
  (s : t) (mv : Move) :
mv ∈ legalMoveList s →
∃ y, y.2 = mv
     ∧ ∀ scored, scoreMove distFn me myGoal oppGoal backSquare recent sp
                   scored mv s = (Ret (scored ++ [y]), s).
Proof.
intros Hmv. destruct (apply_legal s mv Hmv) as [Hret _].
pose proof (restore_apply s _ mv (sameButOwners_refl _)) as Hres.
unfold scoreMove. unfold_monad. cbv beta iota zeta.
destruct (apply mv false s) as [o s1]. simpl in Hret, Hres. subst o.
rewrite Hres. eexists (_, mv). split; [done|]. intros scored. reflexivity.
Qed.

Lemma orderedMoves_run (distFn : DistFn) (s : t) :
∃ oms s', orderedMoves distFn s = (Ret oms, s')
          ∧ settles s s' ∧ oms ≡ₚ legalMoveList s.
Proof.
unfold orderedMoves. unfold_monad. cbv beta iota zeta.
destruct (legalMoves_run s) as (s' & -> & Hs').
edestruct (forM_snoc (legalMoveList s) (@snd PrimFloat.float Move))
  as (ys & -> & Hys).
{ intros mv Hmv. apply scoreMove_eq.
  by rewrite (legalMoveList_sameButOwners s s') by apply Hs'. }
eexists _, s'. split_and!; [done..|]. simpl. by rewrite sortScored_perm, Hys.
Qed.

(** What the loops of the search establish about the move they hold. *)
Definition legalOrNone (s : t) (om : option Move) : Prop :=
om = None ∨ ∃ mv, om = Some mv ∧ mv ∈ legalMoveList s.

Lemma legalOrNone_sameButOwners (s s' : t) (om : option Move) :
sameButOwners s s' → legalOrNone s' om → legalOrNone s om.
Proof.
intros Hsb. unfold legalOrNone. by rewrite (legalMoveList_sameButOwners s s').
Qed.

Lemma negamaxLoop_run recurse (beta : PrimFloat.float) (s : t)
  (mvs : list Move) (st : Best) :
(∀ a b seen s1, ∃ r s1', recurse a b seen s1 = (Ret r, s1')
                         ∧ sameButOwners s1 s1') →
(∀ mv, mv ∈ mvs → mv ∈ legalMoveList s) →
legalOrNone s (bestMove st) →
∃ st', negamaxLoop recurse beta mvs st s = (Ret st', s)
       ∧ legalOrNone s (bestMove st').
Proof.
intros Hrec. revert st.
induction mvs as [|mv mvs IH]; intros st Hmvs Hst.
- exists st. done.
- assert (mv ∈ legalMoveList s) as Hmv by (apply Hmvs; by left).
  destruct (apply_legal s mv Hmv) as [Hret _].
  pose proof (λ s2, restore_apply s s2 mv) as Hres.
  simpl. unfold_monad. cbv beta iota zeta.
  destruct (apply mv false s) as [o s1]. simpl in Hret, Hres. subst o.
  destruct (Hrec (PrimFloat.opp beta) (PrimFloat.opp (alpha st)) (seenKeys st) s1)
    as (c & s1' & -> & Hs1').
  rewrite (Hres s1' Hs1').
  match goal with
  | |- context [mkBest ?a ?b ?m ?k] => set (st1 := mkBest a b m k)
  end.
  assert (legalOrNone s (bestMove st1)) as Hst1.
  { unfold st1. simpl. destruct (PrimFloat.ltb (bestVal st) _); [|done].
    right. eauto. }
  destruct (PrimFloat.leb beta _).
  + exists st1. done.
  + apply IH; [|done]. intros mv' Hmv'. apply Hmvs. by right.
Qed.

Lemma negamax_run (distFn : DistFn) (depth : nat) (a b : PrimFloat.float)
  (seen : list PosKey) (s : t) :
∃ r s', negamax distFn depth a b seen s = (Ret r, s')
        ∧ settles s s' ∧ legalOrNone s r.1.2.
Proof.
revert a b seen s. induction depth as [|depth IH]; intros a b seen s.
- simpl. unfold_monad. cbv beta iota zeta.
  destruct (JSSet.has _ _);
    [eexists _, s; split_and!; [done|apply settles_refl|by left]|].
  destruct (winner s); eexists _, s;
    (split_and!; [done|apply settles_refl|by left]).
- simpl. unfold_monad. cbv beta iota zeta.
  destruct (JSSet.has _ _);
    [eexists _, s; split_and!; [done|apply settles_refl|by left]|].
  destruct (winner s);
    [eexists _, s; split_and!; [done|apply settles_refl|by left]|].
  destruct (orderedMoves_run distFn s) as (oms & s' & -> & Hs' & Hperm).
  edestruct (negamaxLoop_run (negamax distFn depth) b s' oms) as (st' & -> & Hst').
  + intros a' b' seen' s1.
    destruct (IH a' b' seen' s1) as (r & s1' & -> & [Hsb _] & _). eauto.
  + intros mv Hmv. rewrite (legalMoveList_sameButOwners s s') by apply Hs'.
    by rewrite <- Hperm.
  + by left.
  + eexists _, s'. split_and!; [done..|].
    simpl. by apply (legalOrNone_sameButOwners s s'); [apply Hs'|].
Qed.

Lemma deepen_run (distFn : DistFn) (fuel d : nat) (maxDepth : Z) now limit
  (best : option Move) (s : t) :
legalOrNone s best →
∃ best' s', deepen distFn fuel d maxDepth now limit best s = (Ret best', s')
            ∧ settles s s' ∧ legalOrNone s best'.
Proof.
revert d best s. induction fuel as [|fuel IH]; intros d best s Hbest.
- exists best, s. split_and!; [done|apply settles_refl|done].
- simpl. case_bool_decide;
    [|exists best, s; split_and!; [done|apply settles_refl|done]].
  unfold_monad.
  destruct (negamax_run distFn d PrimFloat.neg_infinity PrimFloat.infinity [] s)
    as (r & s1 & -> & Hs1 & Hr).
  cbv beta iota zeta.
  assert (legalOrNone s (match r.1.2 with Some mv => Some mv | None => best end))
    as Hbest'.
  { destruct Hr as [->|(mv & -> & ?)]; [done|]. right. eauto. }
  destruct (PrimFloat.ltb _ _); [eauto 10|].
  destruct (IH (S d) (match r.1.2 with Some mv => Some mv | None => best end) s1)
    as (best2 & s2 & -> & Hs2 & Hbest2).
  { unfold legalOrNone.
    by rewrite (legalMoveList_sameButOwners s s1) by apply Hs1. }
  exists best2, s2. split_and!; [done|by eapply settles_trans|].
  by apply (legalOrNone_sameButOwners s s1); [apply Hs1|].
Qed.

(** [searchWithTime] returns; the state it leaves is the one it was given
    but for owner entries that name no wall; the result is [undefined] or a
    move of [legalMoves()], and it is a move when there is one. *)
Lemma searchWithTime_run (distFn : DistFn) (maxDepth : Z) limit now (s : t) :
∃ r s', searchWithTime distFn maxDepth limit now s = (Ret r, s')
        ∧ settles s s'
        ∧ legalOrNone s r
        ∧ (legalMoveList s ≠ [] → r ≠ None).
Proof.
unfold searchWithTime. unfold_monad. cbv beta iota zeta.
case_bool_decide as Hwl; cbv beta iota;
  [destruct (Board.next _) as [nx|]; cbv beta iota;
   [destruct (existsb _ (legalPawnMoves s)) eqn:Hex; cbv beta iota|]|].
1: { exists (Some (PAWN nx)), s. split_and!; [done|apply settles_refl| |done].
     right. exists (PAWN nx). split; [done|].
     apply existsb_exists in Hex as (p & Hp & ->%sameCell_true).
     unfold legalMoveList. apply elem_of_app. left.
     apply list_elem_of_fmap. exists nx. split; [done|].
     by apply list_elem_of_In. }
all: destruct (deepen_run distFn (Z.to_nat maxDepth) 1 maxDepth now limit None s)
       as (best & s1 & -> & Hs1 & Hbest); [by left|];
  destruct best as [mv|];
  [by exists (Some mv), s1|];
  destruct (legalMoves_run s1) as (s2 & -> & Hs2);
  rewrite (legalMoveList_sameButOwners s s1) by apply Hs1;
  exists (head (legalMoveList s)), s2;
  (split_and!; [done|by eapply settles_trans| |]);
  [unfold legalOrNone; destruct (legalMoveList s) as [|mv l]; [by left|];
   right; exists mv; split; [done|by left]
  |by destruct (legalMoveList s)].
Qed.

(** C2. In a state whose [legalMoves()] is not empty,
    [searchWithTime(state, maxDepth, timeLimitMs)] returns a move of that
    [legalMoves()], whatever the depth, the time limit, the readings of the
    clock and the distance function of the move ordering (A* in one copy of
    [search.js], BFS in the other). *)
Theorem searchWithTime_returns_legal_move (distFn : DistFn) (maxDepth : Z)
  (timeLimitMs : PrimFloat.float) (now : nat → PrimFloat.float) (s : t)
  (mvs : list Move) :
(legalMoves s).1 = Ret mvs →
mvs ≠ [] →
∃ mv, (searchWithTime distFn maxDepth timeLimitMs now s).1 = Ret (Some mv)
      ∧ mv ∈ mvs.
Proof.
intros Hmvs Hne. destruct (legalMoves_run s) as (s0 & Hrun & _).
rewrite Hrun in Hmvs. injection Hmvs as <-.
destruct (searchWithTime_run distFn maxDepth timeLimitMs now s)
  as (r & s' & -> & _ & [->|(mv & -> & Hmv)] & Hsome).
- by destruct Hsome.
- eauto.
Qed.

Lemma searchWithTime_returns_legal_move_witness :
∃ mv,
  (searchWithTime Board.astarDistToGoal 2 1000 (λ _, 0%float) Samples.shutIn).1
  = Ret (Some mv)
  ∧ mv ∈ legalMoveList Samples.shutIn.
Proof.
apply (searchWithTime_returns_legal_move Board.astarDistToGoal 2 1000
         (λ _, 0%float) Samples.shutIn (legalMoveList Samples.shutIn)).
- vm_compute. reflexivity.
- vm_compute. discriminate.
Defined.

(** C7, as the code has it. [searchWithTime] returns normally and leaves
    pawns, both wall sets, walls-left, side-to-move and the history log as
    they were. Of the owner maps it deletes at most entries at anchors where
    no wall of that orientation stands: the probes of [legalWallMoves] call
    [removeWall], which deletes the owner entry of the probed anchor. So in
    a state whose owner maps name placed walls only (every state the engine
    builds is one) the owner maps are unchanged too, and the state the
    search leaves is the state it was given. *)
Theorem searchWithTime_preserves_state (distFn : DistFn) (maxDepth : Z)
  (timeLimitMs : PrimFloat.float) (now : nat → PrimFloat.float) (s : t) :
let r := searchWithTime distFn maxDepth timeLimitMs now s in
(∃ mv, r.1 = Ret mv)
∧ pawns r.2 = pawns s
∧ Board.hWalls (board r.2) = Board.hWalls (board s)
∧ Board.vWalls (board r.2) = Board.vWalls (board s)
∧ wallsLeft r.2 = wallsLeft s
∧ toMove r.2 = toMove s
∧ history r.2 = history s
∧ staleDropped (board s) (board r.2)
∧ (ownersWf (board s) → snapshot r.2 = snapshot s ∧ r.2 = s).
Proof.
intros r. unfold r.
destruct (searchWithTime_run distFn maxDepth timeLimitMs now s)
  as (mv & s' & -> & (Hsb & Heq & Hd) & _).
destruct Hsb as ((_ & Hh & Hv) & _ & Hp & Hwl & Htm & Hhist).
simpl. split_and!; eauto.
intros Hwf. by rewrite (Heq Hwf).
Qed.

Lemma searchWithTime_preserves_state_witness :
(searchWithTime Board.bfsDistToGoal 2 1000 (λ _, 0%float) Samples.shutIn).2
= Samples.shutIn.
Proof.
destruct (searchWithTime_preserves_state Board.bfsDistToGoal 2 1000
            (λ _, 0%float) Samples.shutIn)
  as (_ & _ & _ & _ & _ & _ & _ & _ & Heq).
apply Heq.
split; intros k Hk; vm_compute in Hk |- *; set_solver.
Defined.

(** C7 as the specification words it fails on [Samples.staleOwner]: the V
    owner map holds an entry at (0,1), where no wall stands; the first
    [legalMoves()] of the search probes the V wall at (0,1), which is legal,
    and the [removeWall] of the probe deletes the entry. The search returns
    a move and the V owner map of the caller's state is empty. *)
Lemma searchWithTime_claim_counterexample :
Board.vOwners (board Samples.staleOwner) = [((0, 1), P1)]
∧ Board.wallLegal (board Samples.staleOwner) Samples.shutInWall = true
∧ (searchWithTime Board.astarDistToGoal 1 1000 (λ _, 0%float)
     Samples.staleOwner).1 = Ret (Some (PAWN (mkCell 0 2)))
∧ Board.vOwners
    (board (searchWithTime Board.astarDistToGoal 1 1000 (λ _, 0%float)
              Samples.staleOwner).2) = []
∧ snapshot (searchWithTime Board.astarDistToGoal 1 1000 (λ _, 0%float)
              Samples.staleOwner).2
  ≠ snapshot Samples.staleOwner.
Proof. vm_compute. split_and!; (reflexivity || discriminate). Qed.
End search.


(** ** Paths on a board *)

Lemma keyCell_cellOfKey (k : Key) : keyCell (cellOfKey k) = k.
Proof. by destruct k. Qed.

Lemma cellOfKey_keyCell (p : Cell) : cellOfKey (keyCell p) = p.
Proof. by destruct p. Qed.

(** [reach b start v n]: [n] steps, each to a cell of [neighbors], lead from
    [start] to [v]. *)
Inductive reach (b : Board.t) (start : Cell) : Cell → nat → Prop :=
| reach_start : reach b start start 0
| reach_step u v n :
    reach b start u n → v ∈ Board.neighbors b u → reach b start v (S n).

Definition isGoal (goalRows : list Z) (v : Cell) : Prop := cell_r v ∈ goalRows.

(** What the goal distance searches are to compute: the length of a
    shortest path to a cell of a goal row, [None] when there is no path. *)
Definition goalDist (b : Board.t) (start : Cell) (goalRows : list Z)
  (res : option Z) : Prop :=
match res with
| Some d =>
    ∃ v n, d = Z.of_nat n ∧ isGoal goalRows v ∧ reach b start v n
           ∧ ∀ v' m, isGoal goalRows v' → reach b start v' m → (n ≤ m)%nat
| None => ∀ v m, reach b start v m → ¬ isGoal goalRows v
end.

Lemma goalDist_unique b start goalRows r1 r2 :
goalDist b start goalRows r1 → goalDist b start goalRows r2 → r1 = r2.
Proof.
destruct r1 as [d1|], r2 as [d2|]; simpl.
- intros (v1 & n1 & -> & Hg1 & Hr1 & Hmin1) (v2 & n2 & -> & Hg2 & Hr2 & Hmin2).
  pose proof (Hmin1 v2 n2 Hg2 Hr2). pose proof (Hmin2 v1 n1 Hg1 Hr1).
  f_equal. lia.
- intros (v1 & n1 & -> & Hg1 & Hr1 & _) Hnone. by destruct (Hnone v1 n1).
- intros Hnone (v2 & n2 & -> & Hg2 & Hr2 & _). by destruct (Hnone v2 n2).
- done.
Qed.

Lemma JSSet_has_isGoal goalRows v :
JSSet.has (cell_r v) goalRows = true ↔ isGoal goalRows v.
Proof. apply JSSet_has_true. Qed.

(** *** Breadth-first search *)

Section bfs.
Variable b : Board.t.
Variable start : Cell.
Variable goalRows : list Z.

(** The result of the [for] loop over the neighbours of [u]. *)
Lemma bfsVisit_fold (d : Z) (nbrs : list Cell) (seen : gset Key)
  (q : list (Cell * Z)) :
∃ new,
  fold_left (Board.bfsVisit d) nbrs (seen, q)
  = (seen ∪ list_to_set (keyCell <$> nbrs), (q ++ new))
  ∧ (∀ x, x ∈ new → x.1 ∈ nbrs ∧ (keyCell x.1 ∉ seen) ∧ x.2 = d + 1)
  ∧ (∀ v, v ∈ nbrs → keyCell v ∉ seen → (v, d + 1) ∈ new).
Proof.
revert seen q. induction nbrs as [|w nbrs IH]; intros seen q; simpl.
- exists []. rewrite app_nil_r. split_and!; [f_equal; set_solver|set_solver..].
- unfold Board.bfsVisit at 2. simpl. case_bool_decide as Hw.
  + destruct (IH seen q) as (new & -> & Hnew1 & Hnew2).
    exists new. split_and!.
    * f_equal. set_solver.
    * intros x Hx. destruct (Hnew1 x Hx) as (? & ? & ?). set_solver.
    * intros v [->|Hv]%elem_of_cons Hns; [done|]. by apply Hnew2.
  + destruct (IH ({[keyCell w]} ∪ seen) (q ++ [(w, d + 1)]))
      as (new & -> & Hnew1 & Hnew2).
    exists ((w, d + 1) :: new). split_and!.
    * rewrite <- app_assoc. f_equal. set_solver.
    * intros x [->|Hx]%elem_of_cons; [set_solver|].
      destruct (Hnew1 x Hx) as (? & ? & ?). set_solver.
    * intros v [->|Hv]%elem_of_cons Hns; [by left|].
      destruct (decide (keyCell v = keyCell w)) as [Heq|Hne].
      -- apply keyCell_inj in Heq as ->. by left.
      -- right. apply Hnew2; [done|]. set_solver.
Qed.

(** The invariant of the [while] loop: the queue is [q1 ++ q2], the cells of
    [q1] at distance [n0] and those of [q2] at distance [n0 + 1]. *)
Record bfsInv (n0 : nat) (seen : gset Key) (q1 q2 : list (Cell * Z)) : Prop := {
  bfs_start_seen : keyCell start ∈ seen;
  bfs_queued :
    ∀ x, x ∈ q1 ++ q2 →
      keyCell x.1 ∈ seen
      ∧ ∃ n, x.2 = Z.of_nat n ∧ reach b start x.1 n
             ∧ ∀ m, reach b start x.1 m → (n ≤ m)%nat;
  bfs_level1 : ∀ x, x ∈ q1 → x.2 = Z.of_nat n0;
  bfs_level2 : ∀ x, x ∈ q2 → x.2 = Z.of_nat (S n0);
  bfs_seen :
    ∀ v, keyCell v ∈ seen →
      (∃ d, (v, d) ∈ q1 ++ q2)
      ∨ (¬ isGoal goalRows v ∧ ∀ w, w ∈ Board.neighbors b v → keyCell w ∈ seen);
  bfs_complete : ∀ v m, reach b start v m → (m ≤ n0)%nat → keyCell v ∈ seen
}.

Lemma bfsInv_init : bfsInv 0 {[keyCell start]} [(start, 0)] [].
Proof.
split.
- set_solver.
- intros x Hx. rewrite app_nil_r in Hx.
  apply list_elem_of_singleton in Hx as ->. simpl. split; [set_solver|].
  exists 0%nat. split_and!; [done|constructor|lia].
- intros x ->%list_elem_of_singleton. done.
- intros x Hx. by apply elem_of_nil in Hx.
- intros v Hv. left. exists 0.
  apply elem_of_singleton in Hv. apply keyCell_inj in Hv as ->. set_solver.
- intros v m Hr Hm. inversion Hr; subst; [set_solver|lia].
Qed.

Lemma bfsInv_level_up n0 seen q2 :
bfsInv n0 seen [] q2 → bfsInv (S n0) seen q2 [].
Proof.
intros [Hs Hq Hl1 Hl2 Hseen Hc]. split; try done.
- intros x Hx. apply Hq. by rewrite app_nil_r in Hx.
- intros x Hx. by apply elem_of_nil in Hx.
- intros v Hv. rewrite app_nil_r. by apply Hseen.
- intros v m Hr Hm. destruct (decide (m ≤ n0)%nat) as [?|Hgt]; [eauto|].
  assert (m = S n0) as -> by lia. inversion Hr as [|u v' n Hu Hnb]; subst.
  assert (keyCell u ∈ seen) as Hu_seen by eauto.
  destruct (Hseen u Hu_seen) as [[d Hd]|[_ Hdone]]; [|by apply Hdone].
  simpl in Hd. pose proof (Hl2 _ Hd) as Hlev. simpl in Hlev.
  destruct (Hq _ Hd) as (_ & n & Hn & _ & Hmin). simpl in *.
  pose proof (Hmin n0 Hu). lia.
Qed.

Lemma bfsInv_goal n0 seen u d q1 q2 :
bfsInv n0 seen ((u, d) :: q1) q2 → isGoal goalRows u →
goalDist b start goalRows (Some d).
Proof.
intros [Hs Hq Hl1 Hl2 Hseen Hc] Hgoal.
destruct (Hq (u, d)) as (_ & n & Hn & Hr & Hmin); [by left|]. simpl in *.
pose proof (Hl1 (u, d)) as Hd. simpl in Hd.
assert (n = n0) as -> by (specialize (Hd ltac:(by left)); lia).
exists u, n0. split_and!; [done..|].
intros v' m Hg' Hr'. destruct (decide (n0 ≤ m)%nat) as [?|Hlt]; [done|].
assert (keyCell v' ∈ seen) as Hv' by (eapply Hc; [done|lia]).
destruct (Hseen v' Hv') as [[d' Hd']|[Hng _]]; [|done].
destruct (Hq _ Hd') as (_ & n' & Hn' & _ & Hmin'). simpl in *.
pose proof (Hmin' m Hr').
change ((v', d') ∈ ((u, d) :: q1) ++ q2) in Hd'.
apply elem_of_app in Hd' as [Hd'|Hd'].
- pose proof (Hl1 _ Hd'). simpl in *. lia.
- pose proof (Hl2 _ Hd'). simpl in *. lia.
Qed.

Lemma bfsInv_empty n0 seen :
bfsInv n0 seen [] [] → goalDist b start goalRows None.
Proof.
intros [Hs Hq Hl1 Hl2 Hseen Hc]. simpl.
assert (∀ v m, reach b start v m → keyCell v ∈ seen) as Hall.
{ intros v m Hr. induction Hr as [|u v n Hu IH Hnb]; [done|].
  destruct (Hseen u IH) as [[d Hd]|[_ Hdone]]; [|by apply Hdone].
  by apply elem_of_nil in Hd. }
intros v m Hr. destruct (Hseen v (Hall v m Hr)) as [[d Hd]|[Hng _]]; [|done].
by apply elem_of_nil in Hd.
Qed.

Lemma bfsInv_step n0 seen u d q1 q2 :
bfsInv n0 seen ((u, d) :: q1) q2 → ¬ isGoal goalRows u →
∃ new,
  fold_left (Board.bfsVisit d) (Board.neighbors b u) (seen, q1 ++ q2)
  = (seen ∪ list_to_set (keyCell <$> Board.neighbors b u), q1 ++ (q2 ++ new))
  ∧ bfsInv n0 (seen ∪ list_to_set (keyCell <$> Board.neighbors b u))
      q1 (q2 ++ new).
Proof.
intros [Hs Hq Hl1 Hl2 Hseen Hc] Hng.
destruct (bfsVisit_fold d (Board.neighbors b u) seen (q1 ++ q2))
  as (new & Hfold & Hnew1 & Hnew2).
exists new. split; [by rewrite Hfold, app_assoc|].
destruct (Hq (u, d)) as (Hu_seen & n & Hn & Hr & Hmin); [by left|].
simpl in *.
assert (d = Z.of_nat n0) as Hd by (apply (Hl1 (u, d)); by left).
assert (n = n0) as -> by lia.
split.
- set_solver.
- intros x Hx. rewrite app_assoc in Hx.
  apply elem_of_app in Hx as [Hx|Hx].
  + destruct (Hq x) as (? & ?); [by right|]. split; [set_solver|done].
  + destruct (Hnew1 x Hx) as (Hnb & Hns & Hxd). split.
    * apply elem_of_union. right. apply elem_of_list_to_set.
      apply list_elem_of_fmap. eauto.
    * exists (S n0). split_and!; [lia|by econstructor|].
      intros m Hm. destruct (decide (S n0 ≤ m)%nat) as [?|Hlt]; [done|].
      destruct Hns. eapply Hc; [done|lia].
- intros x Hx. apply Hl1. by right.
- intros x [Hx|Hx]%elem_of_app; [by apply Hl2|].
  destruct (Hnew1 x Hx) as (_ & _ & ->). lia.
- intros v Hv. apply elem_of_union in Hv as [Hv|Hv].
  + destruct (Hseen v Hv) as [[d' Hd']|[Hngv Hdone]].
    * apply elem_of_cons in Hd' as [[= -> ->]|Hd'].
      -- right. split; [done|]. intros w Hw.
         apply elem_of_union. right. apply elem_of_list_to_set.
         apply list_elem_of_fmap. eauto.
      -- left. exists d'. rewrite app_assoc. apply elem_of_app. by left.
    * right. split; [done|]. intros w Hw. apply elem_of_union. left. eauto.
  + destruct (decide (keyCell v ∈ seen)) as [Hin|Hnin].
    * destruct (Hseen v Hin) as [[d' Hd']|[Hngv Hdone]].
      -- apply elem_of_cons in Hd' as [[= -> ->]|Hd'].
         ++ right. split; [done|]. intros w Hw.
            apply elem_of_union. right. apply elem_of_list_to_set.
            apply list_elem_of_fmap. eauto.
         ++ left. exists d'. rewrite app_assoc. apply elem_of_app. by left.
      -- right. split; [done|]. intros w Hw. apply elem_of_union. left. eauto.
    * apply elem_of_list_to_set, list_elem_of_fmap in Hv as (w & Hk & Hw).
      apply keyCell_inj in Hk as ->.
      left. exists (d + 1). rewrite app_assoc.
      apply elem_of_app. right. by apply Hnew2.
- intros v m Hrv Hm. apply elem_of_union. left. eauto.
Qed.

(** Partial correctness of the loop. *)
Lemma bfsDist_loop_correct fuel n0 seen q1 q2 res :
bfsInv n0 seen q1 q2 →
Board.bfsDist_loop fuel b goalRows seen (q1 ++ q2) = Some res →
goalDist b start goalRows res.
Proof.
revert n0 seen q1 q2. induction fuel as [|fuel IH]; intros n0 seen q1 q2; [done|].
assert (∀ n0 seen u d q1 q2,
  bfsInv n0 seen ((u, d) :: q1) q2 →
  Board.bfsDist_loop (S fuel) b goalRows seen (((u, d) :: q1) ++ q2) = Some res →
  goalDist b start goalRows res) as Hcons.
{ clear n0 seen q1 q2. intros n0 seen u d q1 q2 Hinv. simpl.
  destruct (JSSet.has (cell_r u) goalRows) eqn:Hg.
  - intros [= <-]. eapply bfsInv_goal; [done|]. by apply JSSet_has_isGoal.
  - assert (¬ isGoal goalRows u) as Hng.
    { rewrite <- JSSet_has_isGoal. by rewrite Hg. }
    destruct (bfsInv_step _ _ _ _ _ _ Hinv Hng) as (new & -> & Hinv').
    simpl. apply (IH n0 _ q1 (q2 ++ new) Hinv'). }
intros Hinv. destruct q1 as [|[u d] q1].
- destruct q2 as [|[u d] q2].
  + simpl. intros [= <-]. by eapply bfsInv_empty.
  + apply bfsInv_level_up in Hinv. rewrite app_nil_l.
    rewrite <- (app_nil_r ((u, d) :: q2)). by apply Hcons with (n0 := S n0).
- by apply Hcons with (n0 := n0).
Qed.
End bfs.


(** *** The turns of the searches suffice *)

(** The rectangle spanned by the board and the start cell. *)
Definition inBox (n : Z) (start v : Cell) : Prop :=
(Z.min (cell_r start) 0 ≤ cell_r v ≤ Z.max (cell_r start) (n - 1))
∧ (Z.min (cell_c start) 0 ≤ cell_c v ≤ Z.max (cell_c start) (n - 1)).

Definition boxCells (n : Z) (start : Cell) : list Cell :=
r ← seqZ (Z.min (cell_r start) 0) (Board.span n (cell_r start));
c ← seqZ (Z.min (cell_c start) 0) (Board.span n (cell_c start));
[mkCell r c].

Lemma elem_of_boxCells (n : Z) (start v : Cell) :
v ∈ boxCells n start ↔ inBox n start v.
Proof.
unfold boxCells, inBox, Board.span. rewrite list_elem_of_bind. split.
- intros (r & Hv & Hr). apply list_elem_of_bind in Hv as (c & Hv & Hc).
  apply list_elem_of_singleton in Hv as ->. simpl.
  apply elem_of_seqZ in Hr, Hc. lia.
- intros [Hr Hc]. exists (cell_r v). split.
  + apply list_elem_of_bind. exists (cell_c v). split.
    * destruct v. by apply list_elem_of_singleton.
    * apply elem_of_seqZ. lia.
  + apply elem_of_seqZ. lia.
Qed.

Lemma length_bind_const {A B} (f : A → list B) (l : list A) (k : nat) :
(∀ x, length (f x) = k) → length (l ≫= f) = (length l * k)%nat.
Proof.
intros Hf. induction l as [|x l IH]; [done|].
change ((x :: l) ≫= f) with (f x ++ (l ≫= f)).
rewrite length_app, Hf, IH. simpl. lia.
Qed.

Lemma length_boxCells (b : Board.t) (start : Cell) :
length (boxCells (Board.N b) start) = Board.cellBound b start.
Proof.
unfold boxCells, Board.cellBound.
rewrite (length_bind_const _ _
           (Z.to_nat (Board.span (Board.N b) (cell_c start)))).
- rewrite length_seqZ. by rewrite Z2Nat.inj_mul by (unfold Board.span; lia).
- intros r. rewrite (length_bind_const _ _ 1%nat) by done.
  rewrite length_seqZ. lia.
Qed.

Lemma inBox_start (n : Z) (start : Cell) : inBox n start start.
Proof. unfold inBox. lia. Qed.

Lemma inBox_neighbors (b : Board.t) (start v w : Cell) :
inBox (Board.N b) start v → w ∈ Board.neighbors b v →
inBox (Board.N b) start w.
Proof.
unfold inBox. intros Hv [Hadj _]%elem_of_neighbors.
destruct Hadj as [[-> ?]|[[-> ?]|[[-> ?]|[-> ?]]]]; simpl; lia.
Qed.

Lemma length_neighbors (b : Board.t) (v : Cell) :
(length (Board.neighbors b v) ≤ 4)%nat.
Proof.
unfold Board.neighbors.
etrans; [apply length_filter|].
rewrite !length_app.
repeat match goal with
       | |- context [if ?c then _ else _] => destruct c
       end; simpl; lia.
Qed.

(** The cells of [U] whose key is not in [seen]. *)
Definition unseen (U : list Cell) (seen : gset Key) : nat :=
length (filter (λ v, keyCell v ∉ seen) U).

Lemma unseen_mono (U : list Cell) (seen seen' : gset Key) :
seen ⊆ seen' → (unseen U seen' ≤ unseen U seen)%nat.
Proof.
intros Hsub. unfold unseen. induction U as [|v U IH]; [done|].
rewrite !filter_cons.
destruct (decide (keyCell v ∉ seen')), (decide (keyCell v ∉ seen));
  simpl; try lia.
set_solver.
Qed.

Lemma unseen_insert (U : list Cell) (seen : gset Key) (v : Cell) :
v ∈ U → keyCell v ∉ seen →
(unseen U ({[keyCell v]} ∪ seen) < unseen U seen)%nat.
Proof.
intros Hv Hns. unfold unseen. induction U as [|w U IH]; [by apply elem_of_nil in Hv|].
pose proof (unseen_mono U seen ({[keyCell v]} ∪ seen)) as Hmono.
unfold unseen in Hmono.
rewrite !filter_cons. apply elem_of_cons in Hv as [<-|Hv].
- rewrite decide_False by set_solver. rewrite decide_True by done.
  simpl. specialize (Hmono ltac:(set_solver)). lia.
- specialize (IH Hv).
  destruct (decide (keyCell w ∉ {[keyCell v]} ∪ seen)),
    (decide (keyCell w ∉ seen)); simpl; try lia.
  set_solver.
Qed.

Lemma unseen_empty (U : list Cell) : unseen U ∅ = length U.
Proof.
unfold unseen. induction U as [|v U IH]; [done|].
rewrite filter_cons_True by set_solver. simpl. by rewrite IH.
Qed.

Section bfs_fuel.
Variable b : Board.t.
Variable goalRows : list Z.
Variable U : list Cell.
Hypothesis U_closed : ∀ v w, v ∈ U → w ∈ Board.neighbors b v → w ∈ U.

Lemma bfsVisit_fold_measure (d : Z) (nbrs : list Cell) (seen : gset Key)
  (q : list (Cell * Z)) :
(∀ v, v ∈ nbrs → v ∈ U) →
(∀ x, x ∈ q → x.1 ∈ U) →
let st := fold_left (Board.bfsVisit d) nbrs (seen, q) in
(unseen U st.1 + length st.2 ≤ unseen U seen + length q)%nat
∧ (∀ x, x ∈ st.2 → x.1 ∈ U).
Proof.
revert seen q. induction nbrs as [|w nbrs IH]; intros seen q Hn Hq; simpl.
- done.
- destruct (Board.bfsVisit d (seen, q) w) as [seen1 q1] eqn:Hv.
  assert ((unseen U seen1 + length q1 ≤ unseen U seen + length q)%nat
          ∧ ∀ x, x ∈ q1 → x.1 ∈ U) as [Hm1 HU1].
  { unfold Board.bfsVisit in Hv. simpl in Hv. case_bool_decide as Hw.
    - by injection Hv as <- <-.
    - injection Hv as <- <-. split.
      + rewrite length_app. simpl.
        pose proof (unseen_insert U seen w (Hn w ltac:(by left)) Hw). lia.
      + intros x [Hx| ->%list_elem_of_singleton]%elem_of_app; [by apply Hq|].
        apply Hn. by left. }
  destruct (IH seen1 q1) as [Hm HU]; [|done|].
  + intros v Hv'. apply Hn. by right.
  + split; [|done]. simpl in Hm. lia.
Qed.

Lemma bfsDist_loop_total (fuel : nat) (seen : gset Key) (q : list (Cell * Z)) :
(∀ x, x ∈ q → x.1 ∈ U) →
(unseen U seen + length q < fuel)%nat →
is_Some (Board.bfsDist_loop fuel b goalRows seen q).
Proof.
revert seen q. induction fuel as [|fuel IH]; intros seen q HU Hlt; [lia|].
simpl. destruct q as [|[u d] q]; [done|].
destruct (JSSet.has _ _); [done|].
destruct (bfsVisit_fold_measure d (Board.neighbors b u) seen q) as [Hm HU'].
- intros v Hv. apply (U_closed u); [|done]. apply (HU (u, d)). by left.
- intros x Hx. apply HU. by right.
- apply IH; [done|]. simpl in Hlt. lia.
Qed.
End bfs_fuel.

(** [cellBound + 1] turns complete the loop of [bfsDistToGoal], whatever the
    board, the start cell and the goal rows. *)
Lemma bfsDistToGoal_fuel_enough (b : Board.t) (start : Cell) (goalRows : list Z) :
is_Some (Board.bfsDistToGoal_fuel (S (Board.cellBound b start)) b start goalRows).
Proof.
unfold Board.bfsDistToGoal_fuel.
apply (bfsDist_loop_total b goalRows (boxCells (Board.N b) start)).
- intros v w Hv Hw. apply elem_of_boxCells. apply elem_of_boxCells in Hv.
  by apply (inBox_neighbors b start v w).
- intros x ->%list_elem_of_singleton. apply elem_of_boxCells, inBox_start.
- rewrite <- length_boxCells, <- (unseen_empty (boxCells _ _)).
  pose proof (unseen_insert (boxCells (Board.N b) start) ∅ start) as Hlt.
  rewrite (right_id_L ∅ (∪)) in Hlt. simpl.
  specialize (Hlt ltac:(apply elem_of_boxCells, inBox_start) ltac:(set_solver)).
  lia.
Qed.

(** [bfsDistToGoal] computes the goal distance. *)
Lemma bfsDistToGoal_spec (b : Board.t) (start : Cell) (goalRows : list Z) :
goalDist b start goalRows (Board.bfsDistToGoal b start goalRows).
Proof.
unfold Board.bfsDistToGoal.
destruct (bfsDistToGoal_fuel_enough b start goalRows) as [res Hres].
rewrite Hres. simpl. unfold Board.bfsDistToGoal_fuel in Hres.
apply (bfsDist_loop_correct b start goalRows (S (Board.cellBound b start))
         0%nat {[keyCell start]} [(start, 0)] [] res);
  [apply bfsInv_init|done].
Qed.

Lemma pathExistsFor_true (b : Board.t) (start : Cell) (goalRows : list Z) :
Board.pathExistsFor b start goalRows = true ↔
  ∃ v n, reach b start v n ∧ isGoal goalRows v.
Proof.
unfold Board.pathExistsFor. rewrite bool_decide_eq_true.
pose proof (bfsDistToGoal_spec b start goalRows) as Hspec.
destruct (Board.bfsDistToGoal b start goalRows) as [d|]; simpl in Hspec.
- destruct Hspec as (v & n & _ & Hg & Hr & _). split; [eauto|done].
- split; [done|]. intros (v & n & Hr & Hg). by destruct (Hspec v n).
Qed.


(** ** The connectivity invariant (C1) *)

Lemma blockedEdge_sym (b : Board.t) (p q : Cell) :
Board.blockedEdge b p q = Board.blockedEdge b q p.
Proof.
unfold Board.blockedEdge.
destruct (Z.eqb_spec (cell_r p) (cell_r q)) as [Hr|Hr];
  destruct (Z.eqb_spec (cell_r q) (cell_r p)) as [Hr'|Hr']; try congruence.
- replace (Z.abs (cell_c q - cell_c p)) with (Z.abs (cell_c p - cell_c q)) by lia.
  by rewrite Hr, (Z.min_comm (cell_c q)).
- destruct (Z.eqb_spec (cell_c p) (cell_c q)) as [Hc|Hc];
    destruct (Z.eqb_spec (cell_c q) (cell_c p)) as [Hc'|Hc']; try congruence.
  replace (Z.abs (cell_r q - cell_r p)) with (Z.abs (cell_r p - cell_r q)) by lia.
  by rewrite Hc, (Z.min_comm (cell_r q)).
Qed.

Definition cellOnBoard (n : Z) (p : Cell) : Prop :=
0 ≤ cell_r p < n ∧ 0 ≤ cell_c p < n.

Lemma neighbors_onBoard (b : Board.t) (p q : Cell) :
cellOnBoard (Board.N b) p → q ∈ Board.neighbors b p → cellOnBoard (Board.N b) q.
Proof.
unfold cellOnBoard. intros Hp [Hadj _]%elem_of_neighbors.
destruct Hadj as [[-> ?]|[[-> ?]|[[-> ?]|[-> ?]]]]; simpl; lia.
Qed.

(** Between cells of the board, [neighbors] is symmetric. *)
Lemma neighbors_sym (b : Board.t) (p q : Cell) :
cellOnBoard (Board.N b) p → q ∈ Board.neighbors b p → p ∈ Board.neighbors b q.
Proof.
intros Hp Hq. pose proof (neighbors_onBoard b p q Hp Hq) as Hq'.
apply elem_of_neighbors in Hq as [Hadj Hfree].
apply elem_of_neighbors. rewrite blockedEdge_sym. split; [|done].
unfold cellOnBoard, adjacentOnBoard in *. destruct p as [rp cp], q as [rq cq].
simpl in *.
destruct Hadj as [[[= -> ->] ?]|[[[= -> ->] ?]|[[[= -> ->] ?]|[[= -> ->] ?]]]].
- right. left. split; [f_equal|]; lia.
- left. split; [f_equal|]; lia.
- right. right. right. split; [f_equal|]; lia.
- right. right. left. split; [f_equal|]; lia.
Qed.

Lemma reach_trans (b : Board.t) (p q v : Cell) (n m : nat) :
reach b p q n → reach b q v m → reach b p v (n + m).
Proof.
intros Hpq Hqv. induction Hqv as [|u v m Hu IH Hnb].
- by rewrite Nat.add_0_r.
- rewrite Nat.add_succ_r. by econstructor.
Qed.

Lemma reach_edge (b : Board.t) (p q : Cell) :
q ∈ Board.neighbors b p → reach b p q 1.
Proof. intros Hq. econstructor; [constructor|done]. Qed.

Lemma pathExistsFor_reach (b : Board.t) (p q : Cell) (n : nat) goalRows :
reach b q p n →
Board.pathExistsFor b p goalRows = true →
Board.pathExistsFor b q goalRows = true.
Proof.
rewrite !pathExistsFor_true. intros Hqp (v & m & Hr & Hg).
exists v, (n + m)%nat. split; [by eapply reach_trans|done].
Qed.

Section invariant.
Import GameState.

(** The well-formedness of a state: the board has the size of the game,
    both pawns are on it, the owner maps name placed walls, no walls-left
    counter is negative. *)
Record stateWf (s : t) : Prop := {
  wf_size : Board.N (board s) = N s;
  wf_pawn0 : cellOnBoard (N s) (at2 (pawns s) P0);
  wf_pawn1 : cellOnBoard (N s) (at2 (pawns s) P1);
  wf_owners : ownersWf (board s);
  wf_walls0 : 0 ≤ at2 (wallsLeft s) P0;
  wf_walls1 : 0 ≤ at2 (wallsLeft s) P1
}.

Lemma inBounds_onBoard (s : t) (p : Cell) :
inBounds s p = true ↔ cellOnBoard (N s) p.
Proof.
unfold inBounds, cellOnBoard.
rewrite !andb_true_iff, !Z.leb_le, !Z.ltb_lt. tauto.
Qed.

Lemma wf_pawn (s : t) (p : Player) : stateWf s → cellOnBoard (N s) (at2 (pawns s) p).
Proof. intros []. by destruct p. Qed.

(** A cell that differs from [opp] by a unit step, is on the board and is
    not walled off from [opp] is a neighbour of [opp]. *)
Lemma unit_step_neighbor (s : t) (opp q : Cell) (dr dc : Z) :
Board.N (board s) = N s →
q = mkCell (cell_r opp + dr) (cell_c opp + dc) →
(dr = -1 ∧ dc = 0) ∨ (dr = 1 ∧ dc = 0) ∨ (dr = 0 ∧ dc = -1) ∨ (dr = 0 ∧ dc = 1) →
cellOnBoard (N s) opp → cellOnBoard (N s) q →
Board.blockedEdge (board s) opp q = false →
q ∈ Board.neighbors (board s) opp.
Proof.
intros HN -> Hd Ho Hq Hfree. apply elem_of_neighbors. split; [|done].
rewrite HN. unfold cellOnBoard, adjacentOnBoard in *. simpl in *.
destruct Hd as [[-> ->]|[[-> ->]|[[-> ->]|[-> ->]]]].
- left. split; [f_equal|]; lia.
- right. left. split; [f_equal|]; lia.
- right. right. left. split; [f_equal|]; lia.
- right. right. right. split; [f_equal|]; lia.
Qed.

(** Every cell of [legalPawnMoves()] is joined to the mover's cell by a path
    (of at most two steps, through the opponent's cell for a jump). *)
Lemma legalPawnMoves_joined (s : t) (q : Cell) :
stateWf s → q ∈ legalPawnMoves s →
∃ n, reach (board s) q (at2 (pawns s) (toMove s)) n.
Proof.
intros Hwf Hq. pose proof (wf_size s Hwf) as HN.
pose proof (wf_pawn s (toMove s) Hwf) as Hmy.
apply elem_of_legalPawnMoves in Hq as (nb & Hnb & Hq).
set (myp := at2 (pawns s) (toMove s)) in *.
set (opp := at2 (pawns s) (other (toMove s))) in *.
rewrite <- HN in Hmy.
pose proof (neighbors_onBoard _ _ _ Hmy Hnb) as Hnb_on.
pose proof (neighbors_sym _ _ _ Hmy Hnb) as Hback.
unfold pawnTargets in Hq. destruct (sameCell nb opp) eqn:Hsame.
- apply sameCell_true in Hsame as ->.
  pose proof Hnb as [Hadj Hfree]%elem_of_neighbors.
  assert (∀ dr dc,
    q = mkCell (cell_r opp + dr) (cell_c opp + dc) →
    (dr = -1 ∧ dc = 0) ∨ (dr = 1 ∧ dc = 0) ∨ (dr = 0 ∧ dc = -1) ∨ (dr = 0 ∧ dc = 1) →
    inBounds s q = true → Board.blockedEdge (board s) opp q = false →
    ∃ n, reach (board s) q myp n) as Hstep.
  { intros dr dc Hq' Hd Hin Hfree'. apply inBounds_onBoard in Hin.
    rewrite <- HN in Hin.
    assert (q ∈ Board.neighbors (board s) opp) as Hqn.
    { apply (unit_step_neighbor s opp q dr dc); rewrite <- ?HN; done. }
    exists 2%nat. apply (reach_trans _ _ opp _ 1 1).
    - apply reach_edge. by apply neighbors_sym.
    - by apply reach_edge. }
  destruct (inBounds s _ && _) eqn:Hjump.
  + apply list_elem_of_singleton in Hq.
    apply andb_true_iff in Hjump as [Hin Hfree'].
    apply negb_true_iff in Hfree'. rewrite <- Hq in Hin, Hfree'.
    apply (Hstep _ _ Hq); [|done..].
    unfold adjacentOnBoard in Hadj.
    destruct Hadj as [[-> ?]|[[-> ?]|[[-> ?]|[-> ?]]]]; simpl; lia.
  + apply elem_of_sides in Hq as ((d & Hd & Hq) & Hin & Hfree' & _).
    apply (Hstep _ _ Hq); [|done..].
    unfold sideOffsets in Hd. set_unfold.
    destruct Hd as [->|[->|[->|[->|[]]]]]; simpl; lia.
- apply list_elem_of_singleton in Hq as ->. exists 1%nat. by apply reach_edge.
Qed.

Lemma reach_down (n : Z) (k : nat) (r c : Z) :
0 ≤ r → r + Z.of_nat k < n → 0 ≤ c < n →
reach (Board.new n) (mkCell r c) (mkCell (r + Z.of_nat k) c) k.
Proof.
intros Hr Hk Hc. induction k as [|k IH].
- rewrite Z.add_0_r. constructor.
- econstructor; [apply IH; lia|].
  apply elem_of_neighbors. split.
  + right. left. simpl. split; [f_equal|]; lia.
  + unfold Board.blockedEdge. simpl.
    rewrite (proj2 (Z.eqb_neq _ _)) by lia. rewrite Z.eqb_refl.
    by replace (Z.abs _) with 1 by lia.
Qed.

Lemma reach_up (n : Z) (k : nat) (r c : Z) :
r < n → 0 ≤ r - Z.of_nat k → 0 ≤ c < n →
reach (Board.new n) (mkCell r c) (mkCell (r - Z.of_nat k) c) k.
Proof.
intros Hr Hk Hc. induction k as [|k IH].
- rewrite Z.sub_0_r. constructor.
- econstructor; [apply IH; lia|].
  apply elem_of_neighbors. split.
  + left. simpl. split; [f_equal|]; lia.
  + unfold Board.blockedEdge. simpl.
    rewrite (proj2 (Z.eqb_neq _ _)) by lia. rewrite Z.eqb_refl.
    by replace (Z.abs _) with 1 by lia.
Qed.

(** What the invariant is: a well-formed state in which both players have a
    path to their goal rows. *)
Definition goodState (s : t) : Prop := stateWf s ∧ bothConnected s = true.

Lemma goodState_new (n : Z) : 0 < n → goodState (new n).
Proof.
intros Hn.
assert (0 ≤ n / 2 < n) as Hhalf.
{ split; [apply Z.div_pos; lia|apply Z.div_lt_upper_bound; lia]. }
split.
- split; simpl; unfold cellOnBoard; simpl; try lia; done.
- unfold bothConnected. simpl. apply andb_true_iff. split.
  + apply pathExistsFor_true. exists (mkCell (n - 1) (n / 2)), (Z.to_nat (n - 1)).
    split; [|unfold isGoal; simpl; set_solver].
    assert (mkCell (n - 1) (n / 2)
            = mkCell (0 + Z.of_nat (Z.to_nat (n - 1))) (n / 2)) as ->
      by (f_equal; lia).
    apply reach_down; lia.
  + apply pathExistsFor_true. exists (mkCell 0 (n / 2)), (Z.to_nat (n - 1)).
    split; [|unfold isGoal; simpl; set_solver].
    assert (mkCell 0 (n / 2)
            = mkCell ((n - 1) - Z.of_nat (Z.to_nat (n - 1))) (n / 2)) as ->
      by (f_equal; lia).
    apply reach_up; lia.
Qed.

Lemma goodState_apply (s : t) (mv : Move) (rec : bool) :
goodState s → (apply mv rec s).1 = Ret tt → goodState (apply mv rec s).2.
Proof.
intros [Hwf Hconn]. destruct mv as [to|w].
- rewrite apply_pawn_eq. destruct (existsb _ _) eqn:Hex; simpl; [|done].
  intros _. apply existsb_exists in Hex as (q & Hq & ->%sameCell_true).
  apply list_elem_of_In in Hq.
  destruct (legalPawnMoves_joined s to Hwf Hq) as (k & Hk).
  pose proof Hq as (nb & Hnb & Hto)%elem_of_legalPawnMoves.
  destruct (pawnTargets_on_board s nb to) as [Hon _]; [apply Hwf| |done..|].
  { apply inBounds_onBoard. by apply wf_pawn. }
  destruct Hwf as [HN Hp0 Hp1 Hown Hw0 Hw1].
  unfold bothConnected in Hconn. apply andb_true_iff in Hconn as [Hc0 Hc1].
  assert (board (recorded rec s) = board s) as Hb by (by destruct rec).
  assert (N (recorded rec s) = N s) as HNr by (by destruct rec).
  assert (pawns (recorded rec s) = pawns s) as Hpr by (by destruct rec).
  assert (wallsLeft (recorded rec s) = wallsLeft s) as Hwr by (by destruct rec).
  split.
  + split; simpl; rewrite ?Hb, ?HNr, ?Hpr, ?Hwr; try done;
      destruct (toMove s); simpl; done.
  + unfold bothConnected, goalRows. simpl. rewrite ?Hb, ?HNr, ?Hpr.
    unfold goalRows in *.
    destruct (toMove s); simpl in *; apply andb_true_iff; split; try done;
      by eapply pathExistsFor_reach.
- rewrite apply_wall_eq. cbv zeta.
  case_bool_decide; [done|].
  destruct (Board.wallLegal (board s) w) eqn:Hl; simpl; [|done].
  destruct (bothConnected (setBoard _ _)) eqn:Hc; simpl; [|done].
  intros _. destruct Hwf as [HN Hp0 Hp1 Hown Hw0 Hw1].
  assert (Board.N (withWall w (Some (toMove s)) (board s)) = Board.N (board s))
    as HNw.
  { unfold withWall, Board.placeWall. rewrite Hl. simpl.
    by destruct (wall_o w). }
  split.
  + split; simpl; try (by destruct rec).
    * rewrite HNw, HN. by destruct rec.
    * by apply ownersWf_withWall.
    * destruct (wallsLeft s) as [w0 w1], (toMove s); simpl in *; lia.
    * destruct (wallsLeft s) as [w0 w1], (toMove s); simpl in *; lia.
  + by destruct rec.
Qed.

(** The states [apply] leads to, from [s0], when it returns. *)
Inductive reachableFrom (s0 : t) : t → Prop :=
| reachable_init : reachableFrom s0 s0
| reachable_apply s mv rec :
    reachableFrom s0 s → (apply mv rec s).1 = Ret tt →
    reachableFrom s0 (apply mv rec s).2.

Lemma reachable_good (s0 s : t) : goodState s0 → reachableFrom s0 s → goodState s.
Proof.
intros H0 Hr. induction Hr; [done|]. by apply goodState_apply.
Qed.

(** C1. In every state reached from [new GameState(N)], [N > 0], by calls of
    [apply] that return, both players have a path from their pawn to their
    goal row (row [N-1] for player 0, row 0 for player 1); and every wall
    [legalWallMoves()] offers there leaves both paths in place once placed
    for the mover, which is the test [apply] makes before it commits a
    wall. *)
Theorem reachable_states_connected (n : Z) (s : t) :
0 < n →
reachableFrom (new n) s →
(Board.pathExistsFor (board s) (at2 (pawns s) P0) [N s - 1] = true
 ∧ Board.pathExistsFor (board s) (at2 (pawns s) P1) [0] = true)
∧ (∀ ws w, (legalWallMoves s).1 = Ret ws → w ∈ ws →
     bothConnected (setBoard (withWall w (Some (toMove s)) (board s)) s) = true
     ∧ (apply (WALL w) true s).1 = Ret tt).
Proof.
intros Hn Hr.
destruct (reachable_good _ _ (goodState_new n Hn) Hr) as [Hwf Hconn].
split.
- unfold bothConnected in Hconn. by apply andb_true_iff in Hconn.
- intros ws w Hws Hw. rewrite legalWallMoves_eq in Hws by apply Hwf.
  injection Hws as <-.
  assert (WALL w ∈ legalMoveList s) as Hmv.
  { unfold legalMoveList. apply elem_of_app. right.
    by apply list_elem_of_fmap_2. }
  unfold legalWalls in Hw. case_bool_decide; [by apply elem_of_nil in Hw|].
  apply list_elem_of_filter in Hw as [Hok _]. unfold wallOk in Hok.
  apply andb_true_iff in Hok as [Hl Hc].
  rewrite (bothConnected_geometry s _ (withWall w None (board s)))
    by apply withWall_geometry.
  split; [done|].
  rewrite apply_wall_eq. cbv zeta.
  rewrite bool_decide_eq_false_2 by done. rewrite Hl. cbn [negb].
  rewrite bothConnected_recorded.
  rewrite (bothConnected_geometry s _ (withWall w None (board s)))
    by apply withWall_geometry.
  by rewrite Hc.
Qed.

Lemma reachable_states_connected_witness :
Board.pathExistsFor (board (apply (PAWN (mkCell 1 1)) true (new 3)).2)
  (at2 (pawns (apply (PAWN (mkCell 1 1)) true (new 3)).2) P0)
  [N (apply (PAWN (mkCell 1 1)) true (new 3)).2 - 1] = true
∧ Board.pathExistsFor (board (apply (PAWN (mkCell 1 1)) true (new 3)).2)
    (at2 (pawns (apply (PAWN (mkCell 1 1)) true (new 3)).2) P1) [0] = true.
Proof.
apply (reachable_states_connected 3 (apply (PAWN (mkCell 1 1)) true (new 3)).2).
- lia.
- apply reachable_apply; [constructor|vm_compute; reflexivity].
Defined.
End invariant.


(** ** The priority queue of A* *)

Section heap.
Import MinPQ.

Definition parent (j : nat) : nat := ((j - 1) / 2)%nat.

Lemma parent_lt (j : nat) : (0 < j)%nat → (parent j < j)%nat.
Proof.
intros Hj. unfold parent.
pose proof (Nat.div_mod_eq (j - 1) 2). pose proof (Nat.mod_upper_bound (j - 1) 2).
lia.
Qed.

Lemma parent_spec (i j : nat) :
(0 < j)%nat → parent j = i ↔ (j = i * 2 + 1 ∨ j = i * 2 + 2)%nat.
Proof.
intros Hj. unfold parent.
pose proof (Nat.div_mod_eq (j - 1) 2). pose proof (Nat.mod_upper_bound (j - 1) 2).
split; [lia|]. intros [->| ->].
- replace (i * 2 + 1 - 1)%nat with (i * 2)%nat by lia. by apply Nat.div_mul.
- replace (i * 2 + 2 - 1)%nat with (1 + i * 2)%nat by lia.
  rewrite Nat.div_add by lia. done.
Qed.

(** The priority at an index, and the order on priorities that may be
    missing (an index past the end). *)
Definition priAt (a : t) (i : nat) : option Z := snd <$> a !! i.

Definition ole (x y : option Z) : Prop :=
match x, y with Some x, Some y => x ≤ y | _, _ => True end.

Definition heapOrdered (a : t) : Prop :=
∀ j, (0 < j)%nat → ole (priAt a (parent j)) (priAt a j).

(** Heap order except for the edge above [i] ([_siftUp]) or the edges below
    [i] ([_siftDown]); the parent of [i] is no larger than the children of
    [i]. *)
Definition upOK (a : t) (i : nat) : Prop :=
(∀ j, (0 < j)%nat → j ≠ i → ole (priAt a (parent j)) (priAt a j))
∧ (∀ j, (0 < j)%nat → (0 < i)%nat → parent j = i →
     ole (priAt a (parent i)) (priAt a j)).

Definition downOK (a : t) (i : nat) : Prop :=
(∀ j, (0 < j)%nat → parent j ≠ i → ole (priAt a (parent j)) (priAt a j))
∧ (∀ j, (0 < j)%nat → (0 < i)%nat → parent j = i →
     ole (priAt a (parent i)) (priAt a j)).

Lemma priAt_is_Some (a : t) (i : nat) : (i < length a)%nat → is_Some (priAt a i).
Proof.
intros Hi. unfold priAt. destruct (lookup_lt_is_Some_2 a i Hi) as [x ->]. by eexists.
Qed.

Lemma priAt_None (a : t) (i : nat) : (length a ≤ i)%nat → priAt a i = None.
Proof. intros Hi. unfold priAt. by rewrite lookup_ge_None_2. Qed.

Lemma length_swap (a : t) (i j : nat) : length (swap a i j) = length a.
Proof.
unfold swap. destruct (a !! i), (a !! j); try done. by rewrite !length_insert.
Qed.

Lemma swap_perm (a : t) (i j : nat) : swap a i j ≡ₚ a.
Proof.
unfold swap. destruct (a !! i) eqn:Hi, (a !! j) eqn:Hj; try done.
by apply Permutation_insert_swap.
Qed.

Lemma priAt_swap (a : t) (i j k : nat) :
(i < length a)%nat → (j < length a)%nat →
priAt (swap a i j) k
= if decide (k = i) then priAt a j
  else if decide (k = j) then priAt a i else priAt a k.
Proof.
intros Hi Hj. unfold swap, priAt.
destruct (lookup_lt_is_Some_2 a i Hi) as [x Hx].
destruct (lookup_lt_is_Some_2 a j Hj) as [y Hy].
rewrite Hx, Hy.
destruct (decide (k = i)) as [->|Hki].
- rewrite list_lookup_insert_eq by (rewrite length_insert; lia). done.
- rewrite list_lookup_insert_ne by done.
  destruct (decide (k = j)) as [->|Hkj].
  + rewrite list_lookup_insert_eq by lia. done.
  + by rewrite list_lookup_insert_ne by done.
Qed.

Lemma priLe_true (a : t) (i j : nat) :
priLe a i j = true ↔ ole (priAt a i) (priAt a j).
Proof.
unfold priLe, priAt, ole.
destruct (a !! i), (a !! j); simpl; try done.
apply bool_decide_eq_true.
Qed.

Lemma priLt_true (a : t) (i j : nat) :
priLt a i j = true ↔
  ∃ x y, priAt a i = Some x ∧ priAt a j = Some y ∧ x < y.
Proof.
unfold priLt, priAt.
destruct (a !! i) as [x|], (a !! j) as [y|]; simpl;
  try (split; [done|by intros (? & ? & ? & ? & ?)]).
rewrite bool_decide_eq_true. split; [eauto|].
by intros (? & ? & [= <-] & [= <-] & ?).
Qed.

Lemma priLt_false (a : t) (i j : nat) :
priLt a i j = false → ole (priAt a j) (priAt a i).
Proof.
unfold priLt, priAt, ole.
destruct (a !! i), (a !! j); simpl; try done.
rewrite bool_decide_eq_false. lia.
Qed.

Lemma priLe_false (a : t) (i j : nat) :
priLe a i j = false →
∃ x y, priAt a i = Some x ∧ priAt a j = Some y ∧ y < x.
Proof.
unfold priLe, priAt.
destruct (a !! i) as [x|], (a !! j) as [y|]; simpl; try done.
rewrite bool_decide_eq_false. intros ?. exists x.2, y.2. split_and!; [done..|lia].
Qed.

Lemma heapOrdered_root (a : t) (x : Z) :
heapOrdered a → priAt a 0 = Some x →
∀ j y, priAt a j = Some y → x ≤ y.
Proof.
intros Hh H0 j. induction (lt_wf j) as [j _ IH]. intros y Hy.
destruct (decide (j = 0)%nat) as [->|Hj]; [by simplify_eq|].
pose proof (parent_lt j ltac:(lia)) as Hp.
pose proof (Hh j ltac:(lia)) as Hle. rewrite Hy in Hle.
destruct (priAt a (parent j)) as [z|] eqn:Hz.
- simpl in Hle. pose proof (IH (parent j) Hp z Hz). lia.
- unfold priAt in Hz, Hy.
  destruct (a !! j) eqn:Hlj; [|done].
  apply lookup_lt_Some in Hlj.
  destruct (lookup_lt_is_Some_2 a (parent j) ltac:(lia)) as [w Hw].
  by rewrite Hw in Hz.
Qed.

Lemma ole_trans (x : option Z) (y : Z) (z : option Z) :
ole x (Some y) → ole (Some y) z → ole x z.
Proof. destruct x, z; simpl; try done. lia. Qed.

Lemma siftUp_loop_S (fuel : nat) (a : t) (i : nat) :
siftUp_loop (S fuel) a i
= if bool_decide (0 < i)%nat then
    if priLe a (parent i) i then a
    else siftUp_loop fuel (swap a (parent i) i) (parent i)
  else a.
Proof. done. Qed.

Lemma siftDown_loop_S (fuel : nat) (a : t) (i : nat) :
siftDown_loop (S fuel) a i
= let l := (i * 2 + 1)%nat in
  let r := (l + 1)%nat in
  let s := if bool_decide (l < length a)%nat && priLt a l i then l else i in
  let s := if bool_decide (r < length a)%nat && priLt a r s then r else s in
  if bool_decide (s = i) then a else siftDown_loop fuel (swap a s i) s.
Proof. done. Qed.

Lemma siftUp_loop_spec (fuel : nat) (a : t) (i : nat) :
(i ≤ fuel)%nat → (i < length a)%nat → upOK a i →
heapOrdered (siftUp_loop fuel a i) ∧ siftUp_loop fuel a i ≡ₚ a.
Proof.
revert a i. induction fuel as [|fuel IH]; intros a i Hfuel Hi [Hup1 Hup2].
- simpl. split; [|done]. intros j Hj. apply Hup1; lia.
- rewrite siftUp_loop_S.
  case_bool_decide as Hpos; [|split; [|done]; intros j Hj; apply Hup1; lia].
  pose proof (parent_lt i Hpos) as Hp.
  destruct (priLe a (parent i) i) eqn:Hle.
  + split; [|done]. intros j Hj.
    destruct (decide (j = i)) as [->|Hne]; [by apply priLe_true|by apply Hup1].
  + apply priLe_false in Hle as (xp & xi & Hxp & Hxi & Hlt).
    destruct (IH (swap a (parent i) i) (parent i)) as [Hh Hperm].
    * lia.
    * rewrite length_swap. lia.
    * split.
      -- intros j Hj Hne. rewrite !priAt_swap by lia.
         pose proof (parent_lt j Hj) as Hpj.
         destruct (decide (j = i)) as [->|Hji].
         ++ rewrite decide_True by done. rewrite decide_False by lia.
            rewrite Hxp, Hxi. simpl. lia.
         ++ rewrite (decide_False (P := j = parent i)) by done.
            destruct (decide (parent j = parent i)) as [Heq|Hnp].
            ** rewrite Hxi. apply (ole_trans _ xp); [simpl; lia|].
               rewrite <- Hxp, <- Heq. by apply Hup1.
            ** destruct (decide (parent j = i)) as [Heq|Hni]; [|by apply Hup1].
               rewrite Hxp, <- Hxp. by apply Hup2.
      -- intros j Hj Hpp Hpar. rewrite !priAt_swap by lia.
         pose proof (parent_lt (parent i) Hpp) as Hppi.
         rewrite (decide_False (P := parent (parent i) = parent i)) by lia.
         rewrite (decide_False (P := parent (parent i) = i)) by lia.
         assert (ole (priAt a (parent (parent i))) (Some xp)) as Hgp.
         { rewrite <- Hxp. apply Hup1; lia. }
         pose proof (parent_lt j Hj) as Hpj.
         rewrite (decide_False (P := j = parent i)) by lia.
         destruct (decide (j = i)) as [->|Hji].
         ++ by rewrite Hxp.
         ++ apply (ole_trans _ xp); [done|].
            rewrite <- Hxp, <- Hpar. by apply Hup1.
    * split; [done|]. by rewrite Hperm, swap_perm.
Qed.

Lemma siftDown_loop_spec (fuel : nat) (a : t) (i : nat) :
(length a ≤ fuel + i)%nat → downOK a i →
heapOrdered (siftDown_loop fuel a i) ∧ siftDown_loop fuel a i ≡ₚ a.
Proof.
revert a i. induction fuel as [|fuel IH]; intros a i Hfuel [Hd1 Hd2].
- simpl. split; [|done]. intros j Hj.
  destruct (decide (parent j = i)) as [Heq|Hne]; [|by apply Hd1].
  apply parent_spec in Heq; [|done].
  rewrite (priAt_None a j) by lia. by destruct (priAt a (parent j)).
- rewrite siftDown_loop_S. cbv zeta.
  set (l := (i * 2 + 1)%nat). set (r := (l + 1)%nat).
  set (s1 := if bool_decide (l < length a)%nat && priLt a l i then l else i).
  set (s := if bool_decide (r < length a)%nat && priLt a r s1 then r else s1).
  assert (∀ j, (0 < j)%nat → parent j = i ↔ j = l ∨ j = r) as Hkids.
  { intros j Hj. rewrite parent_spec by done. unfold l, r. lia. }
  assert (parent l = i) as Hpl by (apply Hkids; [unfold l|]; lia).
  assert (parent r = i) as Hpr by (apply Hkids; [unfold r, l|]; lia).
  (* the smallest of [i], [l], [r] *)
  assert ((s = i ∨ (s = l ∧ (l < length a)%nat) ∨ (s = r ∧ (r < length a)%nat))
          ∧ ole (priAt a s) (priAt a i)
          ∧ ole (priAt a s) (priAt a l)
          ∧ ole (priAt a s) (priAt a r)
          ∧ (s ≠ i → ∃ xs xi, priAt a s = Some xs ∧ priAt a i = Some xi ∧ xs < xi))
    as (Hs & Hsi & Hsl & Hsr & Hstrict).
  { assert (ole (priAt a i) (priAt a i)) as Hii
      by (unfold ole; destruct (priAt a i); lia).
    unfold s, s1.
    destruct (bool_decide (l < length a)%nat) eqn:Hl; simpl.
    - apply bool_decide_eq_true in Hl.
      destruct (priLt a l i) eqn:Hli.
      + apply priLt_true in Hli as (xl & xi & Hxl & Hxi & Hlt).
        destruct (bool_decide (r < length a)%nat) eqn:Hr; simpl.
        * apply bool_decide_eq_true in Hr.
          destruct (priLt a r l) eqn:Hrl.
          -- apply priLt_true in Hrl as (xr & xl' & Hxr & Hxl' & Hlt').
             rewrite Hxl in Hxl'. injection Hxl' as <-.
             split_and!; [tauto|rewrite ?Hxr, ?Hxi, ?Hxl; simpl; lia..|].
             intros _. exists xr, xi. split_and!; [done..|lia].
          -- apply priLt_false in Hrl.
             split_and!; [tauto|rewrite ?Hxi, ?Hxl; simpl; lia| |done|].
             ++ rewrite Hxl. simpl. lia.
             ++ intros _. exists xl, xi. done.
        * apply bool_decide_eq_false in Hr.
          split_and!; [tauto|rewrite ?Hxi, ?Hxl; simpl; lia| | |].
          -- rewrite Hxl. simpl. lia.
          -- rewrite (priAt_None a r) by lia. by rewrite Hxl.
          -- intros _. exists xl, xi. done.
      + apply priLt_false in Hli.
        destruct (bool_decide (r < length a)%nat) eqn:Hr; simpl.
        * apply bool_decide_eq_true in Hr.
          destruct (priLt a r i) eqn:Hri.
          -- apply priLt_true in Hri as (xr & xi & Hxr & Hxi & Hlt').
             split_and!; [tauto|rewrite ?Hxr, ?Hxi; simpl; lia| | |].
             ++ rewrite Hxr. apply (ole_trans _ xi); [simpl; lia|].
                by rewrite <- Hxi.
             ++ rewrite Hxr. simpl. lia.
             ++ intros _. exists xr, xi. done.
          -- apply priLt_false in Hri. split_and!; [tauto|done..].
        * apply bool_decide_eq_false in Hr.
          split_and!; [tauto|done|done| |done].
          rewrite (priAt_None a r) by lia. by destruct (priAt a i).
    - apply bool_decide_eq_false in Hl.
      rewrite bool_decide_eq_false_2 by (unfold r; lia). simpl.
      split_and!; [tauto|done| | |done].
      + rewrite (priAt_None a l) by lia. by destruct (priAt a i).
      + rewrite (priAt_None a r) by (unfold r; lia). by destruct (priAt a i). }
  case_bool_decide as Hsi'.
  + split; [|done]. intros j Hj.
    destruct (decide (parent j = i)) as [Heq|Hne]; [|by apply Hd1].
    rewrite Heq. rewrite <- Hsi'.
    apply Hkids in Heq as [->| ->]; done.
  + destruct (Hstrict Hsi') as (xs & xi & Hxs & Hxi & Hlt).
    assert ((s < length a)%nat ∧ (i < s)%nat ∧ parent s = i) as (Hslen & His & Hps).
    { destruct Hs as [?|[[-> ?]|[-> ?]]]; [done|unfold l in *|unfold r, l in *];
        split_and!; try lia; done. }
    destruct (IH (swap a s i) s) as [Hh Hperm].
    * rewrite length_swap. lia.
    * split.
      -- intros j Hj Hne. rewrite !priAt_swap by lia.
         pose proof (parent_lt j Hj) as Hpj.
         rewrite (decide_False (P := parent j = s)) by done.
         destruct (decide (j = s)) as [->|Hjs].
         ++ rewrite Hps. rewrite decide_True by done.
            rewrite Hxs, Hxi. simpl. lia.
         ++ destruct (decide (parent j = i)) as [Heq|Hnpi].
            ** rewrite (decide_False (P := j = i)) by lia.
               apply Hkids in Heq as [->| ->]; [|done|]; by rewrite <- ?Hxs.
            ** destruct (decide (j = i)) as [->|Hji]; [|by apply Hd1].
               apply Hd2; [lia|lia|done].
      -- intros j Hj Hs0 Hpar. rewrite Hps. rewrite !priAt_swap by lia.
         rewrite (decide_False (P := i = s)) by lia. rewrite decide_True by done.
         pose proof (parent_lt j Hj) as Hpj.
         rewrite (decide_False (P := j = s)) by lia.
         rewrite (decide_False (P := j = i)) by lia.
         rewrite <- Hpar. apply Hd1; [done|lia].
    * split; [done|]. by rewrite Hperm, swap_perm.
Qed.

Lemma ole_None_r (x : option Z) : ole x None.
Proof. by destruct x. Qed.

Lemma priAt_app_l (a : t) (x : Key * Z) (i : nat) :
(i < length a)%nat → priAt (a ++ [x]) i = priAt a i.
Proof. intros Hi. unfold priAt. by rewrite lookup_app_l. Qed.

(** [push] keeps the heap order and adds the entry. *)
Lemma push_spec (a : t) (k : Key) (f : Z) :
heapOrdered a →
heapOrdered (push a k f) ∧ push a k f ≡ₚ (k, f) :: a.
Proof.
intros Hh. unfold push, siftUp. cbv zeta.
rewrite length_app. simpl. replace (length a + 1 - 1)%nat with (length a) by lia.
destruct (siftUp_loop_spec (length a) (a ++ [(k, f)]) (length a)) as [Hh' Hperm].
- done.
- rewrite length_app. simpl. lia.
- split.
  + intros j Hj Hne. pose proof (parent_lt j Hj).
    destruct (decide (j < length a)%nat).
    * rewrite !priAt_app_l by lia. by apply Hh.
    * rewrite (priAt_None _ j) by (rewrite length_app; simpl; lia).
      apply ole_None_r.
  + intros j Hj Hpos Hpar. pose proof (parent_lt j Hj).
    rewrite (priAt_None _ j) by (rewrite length_app; simpl; lia).
    apply ole_None_r.
- split; [done|]. rewrite Hperm. symmetry. apply Permutation_cons_append.
Qed.

(** [pop] on a heap that is not empty returns the key of an entry of least
    priority, keeps the heap order and removes that entry. *)
Lemma pop_spec (a : t) :
heapOrdered a → a ≠ [] →
∃ k f a', pop a = (Some k, a') ∧ heapOrdered a' ∧ a ≡ₚ (k, f) :: a'
          ∧ ∀ x, x ∈ a → f ≤ x.2.
Proof.
intros Hh Hne. destruct a as [|top rest]; [done|].
assert (∀ x, x ∈ top :: rest → top.2 ≤ x.2) as Hmin.
{ intros x [j Hj]%list_elem_of_lookup.
  apply (heapOrdered_root (top :: rest) top.2 Hh eq_refl j).
  unfold priAt. by rewrite Hj. }
destruct (last (top :: rest)) as [lst|] eqn:Hlast;
  [|by apply last_None in Hlast].
pose proof Hlast as [l' Hl']%last_Some.
assert (removelast (top :: rest) = l') as Hrm
  by (rewrite Hl'; apply removelast_last).
unfold pop. rewrite Hlast, Hrm.
destruct l' as [|top' l''].
- injection Hl' as -> ->. simpl.
  exists lst.1, lst.2, []. split_and!; [done| |by destruct lst|by destruct lst].
  intros j Hj. apply ole_None_r.
- injection Hl' as <- Hrest. simpl length. rewrite bool_decide_eq_true_2 by done.
  change (<[0%nat:=lst]> (top :: l'')) with (lst :: l'').
  unfold siftDown.
  destruct (siftDown_loop_spec (length (lst :: l'')) (lst :: l'') 0) as [Hh' Hperm].
  + lia.
  + split; [|intros; lia].
    intros j Hj Hpar. pose proof (parent_lt j Hj).
    destruct (decide (j < length (lst :: l''))%nat) as [Hlt|Hge].
    * assert (∀ i, (0 < i)%nat → (i < length (lst :: l''))%nat →
                priAt (lst :: l'') i = priAt (top :: rest) i) as Heq.
      { intros i Hi0 Hilt. unfold priAt. rewrite Hrest.
        destruct i as [|i]; [lia|]. simpl in *.
        by rewrite lookup_app_l by lia. }
      rewrite !Heq by lia. by apply Hh.
    * rewrite (priAt_None _ j) by lia. apply ole_None_r.
  + exists top.1, top.2, (siftDown_loop (length (lst :: l'')) (lst :: l'') 0).
    split_and!; [done|done| |done].
    rewrite Hperm, Hrest. destruct top. simpl. constructor.
    symmetry. apply Permutation_cons_append.
Qed.

Lemma heapOrdered_nil : heapOrdered [].
Proof. intros j Hj. apply ole_None_r. Qed.

Lemma pop_nil : pop [] = (None, []).
Proof. done. Qed.
End heap.


(** ** A* computes the goal distance (C5) *)

Lemma fold_minInf {A} (f : A → Z) (l : list A) (init : option Z) :
match fold_left (λ best x, Board.minInf best (f x)) l init with
| Some m =>
    (∀ x, x ∈ l → m ≤ f x)
    ∧ (∀ i, init = Some i → m ≤ i)
    ∧ ((∃ x, x ∈ l ∧ m = f x) ∨ init = Some m)
| None => l = [] ∧ init = None
end.
Proof.
revert init. induction l as [|y l IH]; intros init; simpl.
- destruct init as [i|]; [|done].
  split_and!; [by intros x ?%elem_of_nil|by intros ? [= <-]|by right].
- specialize (IH (Board.minInf init (f y))).
  destruct (fold_left _ l _) as [m|]; [|by destruct IH as [_ ?], init].
  destruct IH as (Hl & Hi & Hex). split_and!.
  + intros x [->|Hx]%elem_of_cons; [|by apply Hl].
    destruct init as [i|]; simpl in Hi.
    * specialize (Hi _ eq_refl). lia.
    * specialize (Hi _ eq_refl). lia.
  + intros i ->. simpl in Hi. specialize (Hi _ eq_refl). lia.
  + destruct Hex as [(x & Hx & ->)|Hm].
    * left. exists x. split; [by right|done].
    * destruct init as [i|]; simpl in Hm; injection Hm as Hm; subst m.
      -- destruct (decide (i ≤ f y)).
         ++ right. f_equal. lia.
         ++ left. exists y. split; [by left|lia].
      -- left. exists y. split; [by left|done].
Qed.

Lemma hToGoal_spec (p : Cell) (goalRows : list Z) :
goalRows ≠ [] →
(∀ x, x ∈ goalRows → Board.hToGoal p goalRows ≤ Z.abs (cell_r p - x))
∧ ∃ x, x ∈ goalRows ∧ Board.hToGoal p goalRows = Z.abs (cell_r p - x).
Proof.
intros Hne. unfold Board.hToGoal.
rewrite bool_decide_eq_false_2 by (by destruct goalRows).
pose proof (fold_minInf (λ g, Z.abs (cell_r p - g)) goalRows None) as Hf.
destruct (fold_left _ goalRows None) as [m|]; [|by destruct Hf].
destruct Hf as (Hl & _ & [Hex|?]); [|done]. simpl. split; [done|].
destruct Hex as (x & Hx & ->). eauto.
Qed.

Lemma hToGoal_nonneg (p : Cell) (goalRows : list Z) : 0 ≤ Board.hToGoal p goalRows.
Proof.
destruct goalRows as [|g goalRows]; [done|].
destruct (hToGoal_spec p (g :: goalRows)) as (_ & x & _ & ->); [done|]. lia.
Qed.

Lemma hToGoal_goal (p : Cell) (goalRows : list Z) :
isGoal goalRows p → Board.hToGoal p goalRows = 0.
Proof.
intros Hg. pose proof (hToGoal_nonneg p goalRows).
destruct (hToGoal_spec p goalRows) as (Hle & _).
{ intros ->. by apply elem_of_nil in Hg. }
specialize (Hle _ Hg). lia.
Qed.

(** The heuristic is consistent: it changes by at most one along a step. *)
Lemma hToGoal_step (b : Board.t) (p q : Cell) (goalRows : list Z) :
q ∈ Board.neighbors b p →
Board.hToGoal p goalRows ≤ Board.hToGoal q goalRows + 1.
Proof.
intros [Hadj _]%elem_of_neighbors.
destruct goalRows as [|g goalRows]; [done|].
destruct (hToGoal_spec p (g :: goalRows)) as (Hp & _); [done|].
destruct (hToGoal_spec q (g :: goalRows)) as (_ & x & Hx & ->); [done|].
specialize (Hp x Hx).
destruct Hadj as [[-> ?]|[[-> ?]|[[-> ?]|[-> ?]]]]; simpl in *; lia.
Qed.

Section astar.
Variable b : Board.t.
Variable start : Cell.
Variable goalRows : list Z.

(** The invariant of the [while] loop of [astarDistToGoal]. While the
    neighbours of the cell [u] just closed are relaxed, [pending] lists
    those still to come; between two turns of the loop [pending] is empty. *)
Record astarInv (u : Cell) (pending : list Cell) (g : gmap Key Z)
  (open : list (Key * Z)) (seen : gset Key) : Prop := {
  a_heap : heapOrdered open;
  a_start : g !! keyCell start = Some 0;
  a_reach :
    ∀ v d, g !! keyCell v = Some d → ∃ n, d = Z.of_nat n ∧ reach b start v n;
  a_closed :
    ∀ v, keyCell v ∈ seen →
      ¬ isGoal goalRows v
      ∧ ∃ d, g !! keyCell v = Some d
             ∧ (∀ m, reach b start v m → d ≤ Z.of_nat m)
             ∧ ∀ w, w ∈ Board.neighbors b v →
                 (v = u ∧ w ∈ pending)
                 ∨ ∃ dw, g !! keyCell w = Some dw ∧ dw ≤ d + 1;
  a_open :
    ∀ v d, g !! keyCell v = Some d → keyCell v ∉ seen →
      (keyCell v, d + Board.hToGoal v goalRows) ∈ open;
  a_entries :
    ∀ k f, (k, f) ∈ open →
      ∃ d, g !! k = Some d ∧ d + Board.hToGoal (cellOfKey k) goalRows ≤ f
}.

(** Every cell that can be reached and is not closed is announced by an
    entry of the queue whose priority does not exceed the length of the path
    plus the heuristic. *)
Lemma astar_frontier u g open seen :
astarInv u [] g open seen →
∀ t m, reach b start t m → keyCell t ∉ seen →
  ∃ k f, (k, f) ∈ open ∧ f ≤ Z.of_nat m + Board.hToGoal t goalRows.
Proof.
intros [Hheap Hstart Hreach Hclosed Hopen Hent] t m Hr.
induction Hr as [|v t n Hv IH Hnb]; intros Hns.
- eexists _, _. split; [by apply Hopen|]. lia.
- destruct (decide (keyCell v ∈ seen)) as [Hvs|Hvs].
  + destruct (Hclosed v Hvs) as (_ & d & Hgv & Hopt & Hnbs).
    destruct (Hnbs t Hnb) as [[_ []%elem_of_nil]|(dt & Hgt & Hdt)].
    eexists _, _. split; [by apply (Hopen t dt)|].
    specialize (Hopt n Hv). lia.
  + destruct (IH Hvs) as (k & f & Hkf & Hf).
    exists k, f. split; [done|].
    pose proof (hToGoal_step b v t goalRows Hnb). lia.
Qed.

Lemma astarRelax_inv u w rest g fs open seen d :
astarInv u (w :: rest) g open seen →
keyCell u ∈ seen → g !! keyCell u = Some d → w ∈ Board.neighbors b u →
astarInv u rest (Board.astarRelax goalRows (Some d) (g, fs, open) w).1.1
  (Board.astarRelax goalRows (Some d) (g, fs, open) w).2 seen
∧ (Board.astarRelax goalRows (Some d) (g, fs, open) w).1.1 !! keyCell u = Some d.
Proof.
intros [Hheap Hstart Hreach Hclosed Hopen Hent] Hu Hgu Hw.
destruct (Hreach u d Hgu) as (n & Hd & Hrn).
assert (reach b start w (S n)) as Hrw by (by econstructor).
unfold Board.astarRelax. cbn [fst snd].
destruct (match g !! keyCell w with
          | Some gv => bool_decide (d + 1 < gv)
          | None => true
          end) eqn:Hcond.
- assert (∀ gv, g !! keyCell w = Some gv → d + 1 < gv) as Hbetter.
  { intros gv Hgv. rewrite Hgv in Hcond. by apply bool_decide_eq_true in Hcond. }
  assert (keyCell w ∉ seen) as Hws.
  { intros Hws. destruct (Hclosed w Hws) as (_ & dw & Hgw & Hopt & _).
    specialize (Hbetter _ Hgw). specialize (Hopt _ Hrw). lia. }
  assert (keyCell w ≠ keyCell start) as Hnstart.
  { intros Heq. rewrite <- Heq in Hstart. specialize (Hbetter _ Hstart). lia. }
  destruct (push_spec open (keyCell w) (d + 1 + Board.hToGoal w goalRows) Hheap)
    as [Hheap' Hperm].
  cbn [fst snd]. split; [split|].
  + done.
  + by rewrite lookup_insert_ne.
  + intros v d'. destruct (decide (keyCell w = keyCell v)) as [Heq|Hne].
    * rewrite Heq, lookup_insert_eq. intros [= <-].
      apply keyCell_inj in Heq as <-. exists (S n). split; [lia|done].
    * rewrite lookup_insert_ne by done. apply Hreach.
  + intros v Hv. destruct (Hclosed v Hv) as (Hng & dv & Hgv & Hopt & Hnbs).
    split; [done|]. exists dv.
    assert (keyCell w ≠ keyCell v) as Hne by (intros Heq; by rewrite Heq in Hws).
    rewrite lookup_insert_ne by done. split_and!; [done..|].
    intros w' Hw'. destruct (decide (keyCell w = keyCell w')) as [Heq|Hne'].
    * right. exists (d + 1). rewrite Heq, lookup_insert_eq. split; [done|].
      apply keyCell_inj in Heq as <-.
      destruct (Hnbs w Hw') as [[-> _]|(dw & Hgw & Hdw)].
      -- rewrite Hgu in Hgv. injection Hgv as <-. lia.
      -- specialize (Hbetter _ Hgw). lia.
    * rewrite lookup_insert_ne by done.
      destruct (Hnbs w' Hw') as [[-> Hin]|?]; [|by right].
      apply elem_of_cons in Hin as [->|Hin]; [done|]. by left.
  + intros v d' Hgv Hvs. rewrite Hperm.
    destruct (decide (keyCell w = keyCell v)) as [Heq|Hne].
    * rewrite Heq, lookup_insert_eq in Hgv. injection Hgv as <-.
      apply keyCell_inj in Heq as <-. by left.
    * rewrite lookup_insert_ne in Hgv by done. right. by apply Hopen.
  + intros k f Hkf. rewrite Hperm in Hkf.
    apply elem_of_cons in Hkf as [[= -> ->]|Hkf].
    * exists (d + 1). rewrite lookup_insert_eq, cellOfKey_keyCell. split; [done|lia].
    * destruct (Hent k f Hkf) as (d0 & Hgk & Hd0).
      destruct (decide (keyCell w = k)) as [<-|Hne].
      -- exists (d + 1). rewrite lookup_insert_eq. split; [done|].
         specialize (Hbetter _ Hgk). lia.
      -- exists d0. by rewrite lookup_insert_ne.
  + rewrite lookup_insert_ne; [done|]. intros Heq. by rewrite Heq in Hws.
- destruct (g !! keyCell w) as [gv|] eqn:Hgw; [|done].
  apply bool_decide_eq_false in Hcond.
  cbn [fst snd]. split; [split|]; try done.
  intros v Hv. destruct (Hclosed v Hv) as (Hng & dv & Hgv & Hopt & Hnbs).
  split; [done|]. exists dv. split_and!; [done..|].
  intros w' Hw'. destruct (Hnbs w' Hw') as [[-> Hin]|?]; [|by right].
  apply elem_of_cons in Hin as [->|Hin]; [|by left].
  right. exists gv. split; [done|].
  rewrite Hgu in Hgv. injection Hgv as <-. lia.
Qed.

Lemma astarRelax_fold_inv u pending g fs open seen d :
astarInv u pending g open seen →
keyCell u ∈ seen → g !! keyCell u = Some d →
(∀ w, w ∈ pending → w ∈ Board.neighbors b u) →
astarInv u []
  (fold_left (Board.astarRelax goalRows (Some d)) pending (g, fs, open)).1.1
  (fold_left (Board.astarRelax goalRows (Some d)) pending (g, fs, open)).2 seen.
Proof.
revert g fs open. induction pending as [|w rest IH]; intros g fs open Hinv Hu Hgu Hp.
- done.
- cbn [fold_left].
  destruct (astarRelax_inv u w rest g fs open seen d Hinv Hu Hgu) as [Hinv' Hgu'].
  { apply Hp. by left. }
  destruct (Board.astarRelax goalRows (Some d) (g, fs, open) w) as [[g' fs'] open'].
  apply IH; [done..|]. intros w' Hw'. apply Hp. by right.
Qed.

Lemma astar_loop_S fuel g fs open seen :
Board.astar_loop (S fuel) b goalRows g fs open seen
= if MinPQ.empty open then Some None
  else
    match MinPQ.pop open with
    | (None, _) => Some None
    | (Some uKey, open') =>
        if bool_decide (uKey ∈ seen)
        then Board.astar_loop fuel b goalRows g fs open' seen
        else
          if JSSet.has (cell_r (cellOfKey uKey)) goalRows then Some (g !! uKey)
          else
            let st := fold_left (Board.astarRelax goalRows (g !! uKey))
                        (Board.neighbors b (cellOfKey uKey)) (g, fs, open') in
            Board.astar_loop fuel b goalRows st.1.1 st.1.2 st.2 ({[uKey]} ∪ seen)
    end.
Proof. done. Qed.

Lemma empty_true (open : list (Key * Z)) : MinPQ.empty open = true ↔ open = [].
Proof.
unfold MinPQ.empty. rewrite bool_decide_eq_true. by destruct open.
Qed.

(** The invariant survives the removal of the entry [pop] returns, when its
    key is closed already. *)
Lemma astarInv_skip u g open open' seen k f :
astarInv u [] g open seen →
heapOrdered open' → open ≡ₚ (k, f) :: open' → k ∈ seen →
astarInv u [] g open' seen.
Proof.
intros [Hheap Hstart Hreach Hclosed Hopen Hent] Hheap' Hperm Hk.
split; try done.
- intros v d Hgv Hvs. pose proof (Hopen v d Hgv Hvs) as Hin.
  rewrite Hperm in Hin. apply elem_of_cons in Hin as [[= <- _]|Hin]; done.
- intros k' f' Hin. apply Hent. rewrite Hperm. by right.
Qed.

(** The entry [pop] returns, when its key is not closed, carries the length
    of a shortest path to its cell. *)
Lemma astar_pop_optimal u g open open' seen k f :
astarInv u [] g open seen →
open ≡ₚ (k, f) :: open' → (∀ x, x ∈ open → f ≤ x.2) → k ∉ seen →
∃ n, g !! k = Some (Z.of_nat n)
     ∧ reach b start (cellOfKey k) n
     ∧ Z.of_nat n + Board.hToGoal (cellOfKey k) goalRows ≤ f
     ∧ ∀ t m, reach b start t m → keyCell t ∉ seen →
         f ≤ Z.of_nat m + Board.hToGoal t goalRows.
Proof.
intros Hinv Hperm Hmin Hk.
pose proof (astar_frontier u g open seen Hinv) as Hfront.
destruct Hinv as [Hheap Hstart Hreach Hclosed Hopen Hent].
destruct (Hent k f) as (d & Hgk & Hdf); [rewrite Hperm; by left|].
destruct (Hreach (cellOfKey k) d) as (n & -> & Hrn);
  [by rewrite keyCell_cellOfKey|].
exists n. split_and!; [done..|].
intros t m Hrt Hts. destruct (Hfront t m Hrt Hts) as (k' & f' & Hin & Hf').
specialize (Hmin _ Hin). simpl in Hmin. lia.
Qed.

Lemma astar_loop_correct fuel u g fs open seen res :
astarInv u [] g open seen →
Board.astar_loop fuel b goalRows g fs open seen = Some res →
goalDist b start goalRows res.
Proof.
revert u g fs open seen. induction fuel as [|fuel IH];
  intros u g fs open seen Hinv; [done|].
rewrite astar_loop_S.
pose proof (astar_frontier u g open seen Hinv) as Hfront.
destruct (MinPQ.empty open) eqn:Hempty.
- apply empty_true in Hempty as ->. intros [= <-]. simpl.
  intros v m Hr. destruct (decide (keyCell v ∈ seen)) as [Hvs|Hvs].
  + by destruct (a_closed _ _ _ _ _ Hinv v Hvs).
  + destruct (Hfront v m Hr Hvs) as (? & ? & []%elem_of_nil & _).
- destruct (pop_spec open) as (k & f & open' & -> & Hheap' & Hperm & Hmin).
  { apply Hinv. }
  { intros ->. by rewrite (proj2 (empty_true [])) in Hempty. }
  case_bool_decide as Hk.
  + apply (IH u). by eapply astarInv_skip.
  + destruct (astar_pop_optimal u g open open' seen k f Hinv Hperm Hmin Hk)
      as (n & Hgk & Hrn & Hnf & Hlow).
    assert (∀ m, reach b start (cellOfKey k) m → Z.of_nat n ≤ Z.of_nat m) as Hopt.
    { intros m Hm. specialize (Hlow _ m Hm). rewrite keyCell_cellOfKey in Hlow.
      specialize (Hlow Hk). lia. }
    destruct (JSSet.has _ goalRows) eqn:Hgoal.
    * rewrite Hgk. intros [= <-]. simpl. apply JSSet_has_isGoal in Hgoal.
      exists (cellOfKey k), n. split_and!; [done..|].
      intros v' m Hg' Hr'.
      destruct (decide (keyCell v' ∈ seen)) as [Hvs|Hvs].
      -- by destruct (a_closed _ _ _ _ _ Hinv v' Hvs).
      -- specialize (Hlow _ _ Hr' Hvs).
         rewrite (hToGoal_goal v') in Hlow by done.
         pose proof (hToGoal_nonneg (cellOfKey k) goalRows). lia.
    * assert (¬ isGoal goalRows (cellOfKey k)) as Hng.
      { rewrite <- JSSet_has_isGoal. by rewrite Hgoal. }
      cbv zeta. rewrite Hgk. apply (IH (cellOfKey k)).
      apply astarRelax_fold_inv.
      -- destruct Hinv as [Hheap Hstart Hreach Hclosed Hopen Hent].
         split; try done.
         ++ intros v Hv. apply elem_of_union in Hv as [Hv|Hv].
            ** apply elem_of_singleton in Hv.
               assert (v = cellOfKey k) as -> by (by rewrite <- Hv, cellOfKey_keyCell).
               split; [done|]. exists (Z.of_nat n). rewrite keyCell_cellOfKey.
               split_and!; [done..|]. intros w Hw. by left.
            ** destruct (Hclosed v Hv) as (? & d & ? & ? & Hnbs).
               split; [done|]. exists d. split_and!; [done..|].
               intros w Hw. destruct (Hnbs w Hw) as [[_ []%elem_of_nil]|?].
               by right.
         ++ intros v d Hgv Hvs. pose proof (Hopen v d Hgv ltac:(set_solver)) as Hin.
            rewrite Hperm in Hin.
            apply elem_of_cons in Hin as [[= <- _]|Hin]; [set_solver|done].
         ++ intros k' f' Hin. apply Hent. rewrite Hperm. by right.
      -- rewrite keyCell_cellOfKey. set_solver.
      -- by rewrite keyCell_cellOfKey.
      -- done.
Qed.

Lemma astarInv_init :
astarInv start [] {[keyCell start := 0]}
  (MinPQ.push [] (keyCell start) (Board.hToGoal start goalRows)) ∅.
Proof.
destruct (push_spec [] (keyCell start) (Board.hToGoal start goalRows)
            heapOrdered_nil) as [Hheap Hperm].
split.
- done.
- apply lookup_singleton_eq.
- intros v d Hv. apply lookup_singleton_Some in Hv as [Hk <-].
  apply keyCell_inj in Hk as <-. exists 0%nat. split; [done|constructor].
- intros v Hv. set_solver.
- intros v d Hv _. apply lookup_singleton_Some in Hv as [Hk <-].
  apply keyCell_inj in Hk as <-. rewrite Hperm. by left.
- intros k f Hin. rewrite Hperm in Hin.
  apply list_elem_of_singleton in Hin as [= -> ->].
  exists 0. rewrite lookup_singleton_eq, cellOfKey_keyCell. split; [done|lia].
Qed.
End astar.

Section astar_fuel.
Variable b : Board.t.
Variable goalRows : list Z.
Variable U : list Cell.
Hypothesis U_closed : ∀ v w, v ∈ U → w ∈ Board.neighbors b v → w ∈ U.

Lemma astarRelax_fold_measure (gu : option Z) (nbrs : list Cell)
  (g fs : gmap Key Z) (open : list (Key * Z)) :
heapOrdered open →
(∀ x, x ∈ open → cellOfKey x.1 ∈ U) →
(∀ w, w ∈ nbrs → w ∈ U) →
let st := fold_left (Board.astarRelax goalRows gu) nbrs (g, fs, open) in
heapOrdered st.2
∧ (∀ x, x ∈ st.2 → cellOfKey x.1 ∈ U)
∧ (length st.2 ≤ length open + length nbrs)%nat.
Proof.
revert g fs open. induction nbrs as [|w nbrs IH]; intros g fs open Hheap HU Hn.
- simpl. split_and!; [done..|lia].
- cbn [fold_left].
  destruct (Board.astarRelax goalRows gu (g, fs, open) w) as [[g1 fs1] open1] eqn:Hrel.
  assert (heapOrdered open1 ∧ (∀ x, x ∈ open1 → cellOfKey x.1 ∈ U)
          ∧ (length open1 ≤ S (length open))%nat) as (Hheap1 & HU1 & Hlen1).
  { unfold Board.astarRelax in Hrel. cbn [fst snd] in Hrel.
    destruct gu as [d|]; [|injection Hrel as <- <- <-; split_and!; [done..|lia]].
    destruct (match g !! keyCell w with
              | Some gv => bool_decide (d + 1 < gv)
              | None => true
              end);
      [|injection Hrel as <- <- <-; split_and!; [done..|lia]].
    injection Hrel as <- <- <-.
    destruct (push_spec open (keyCell w) (d + 1 + Board.hToGoal w goalRows) Hheap)
      as [Hheap' Hperm].
    split_and!; [done| |by rewrite Hperm].
    intros x Hx. rewrite Hperm in Hx. apply elem_of_cons in Hx as [->|Hx].
    - simpl. rewrite cellOfKey_keyCell. apply Hn. by left.
    - by apply HU. }
  destruct (IH g1 fs1 open1 Hheap1 HU1) as (Hheap2 & HU2 & Hlen2).
  { intros w' Hw'. apply Hn. by right. }
  split_and!; [done..|]. simpl in *. lia.
Qed.

Lemma astar_loop_total (fuel : nat) (g fs : gmap Key Z) (open : list (Key * Z))
  (seen : gset Key) :
heapOrdered open →
(∀ x, x ∈ open → cellOfKey x.1 ∈ U) →
(length open + 4 * unseen U seen < fuel)%nat →
is_Some (Board.astar_loop fuel b goalRows g fs open seen).
Proof.
revert g fs open seen. induction fuel as [|fuel IH];
  intros g fs open seen Hheap HU Hlt; [lia|].
rewrite astar_loop_S. destruct (MinPQ.empty open) eqn:Hempty; [done|].
destruct (pop_spec open Hheap) as (k & f & open' & -> & Hheap' & Hperm & _).
{ intros ->. by rewrite (proj2 (empty_true [])) in Hempty. }
pose proof (Permutation_length Hperm) as Hlen. simpl in Hlen.
assert (∀ x, x ∈ open' → cellOfKey x.1 ∈ U) as HU'.
{ intros x Hx. apply HU. rewrite Hperm. by right. }
case_bool_decide as Hk.
- apply IH; [done..|lia].
- destruct (JSSet.has _ goalRows); [done|]. cbv zeta.
  assert (cellOfKey k ∈ U) as HkU.
  { apply (HU (k, f)). rewrite Hperm. by left. }
  destruct (astarRelax_fold_measure (g !! k) (Board.neighbors b (cellOfKey k))
              g fs open' Hheap' HU') as (Hheap2 & HU2 & Hlen2).
  { intros w Hw. by apply (U_closed (cellOfKey k)). }
  pose proof (length_neighbors b (cellOfKey k)).
  pose proof (unseen_insert U seen (cellOfKey k) HkU) as Hins.
  rewrite keyCell_cellOfKey in Hins. specialize (Hins Hk).
  apply IH; [done..|]. simpl in *. lia.
Qed.
End astar_fuel.

(** [4 * cellBound + 2] turns complete the loop of [astarDistToGoal],
    whatever the board, the start cell and the goal rows. *)
Lemma astarDistToGoal_fuel_enough (b : Board.t) (start : Cell) (goalRows : list Z) :
is_Some (Board.astarDistToGoal_fuel (4 * Board.cellBound b start + 2) b start
           goalRows).
Proof.
unfold Board.astarDistToGoal_fuel. cbv zeta.
destruct (push_spec [] (keyCell start) (Board.hToGoal start goalRows)
            heapOrdered_nil) as [Hheap Hperm].
apply (astar_loop_total b goalRows (boxCells (Board.N b) start)).
- intros v w Hv Hw. apply elem_of_boxCells. apply elem_of_boxCells in Hv.
  by apply (inBox_neighbors b start v w).
- done.
- intros x Hx. rewrite Hperm in Hx. apply list_elem_of_singleton in Hx as ->.
  simpl. rewrite cellOfKey_keyCell. apply elem_of_boxCells, inBox_start.
- rewrite (Permutation_length Hperm), unseen_empty, length_boxCells. simpl. lia.
Qed.

(** [astarDistToGoal] computes the goal distance. *)
Lemma astarDistToGoal_spec (b : Board.t) (start : Cell) (goalRows : list Z) :
goalDist b start goalRows (Board.astarDistToGoal b start goalRows).
Proof.
unfold Board.astarDistToGoal.
destruct (astarDistToGoal_fuel_enough b start goalRows) as [res Hres].
rewrite Hres. simpl. unfold Board.astarDistToGoal_fuel in Hres.
eapply (astar_loop_correct b start goalRows); [apply astarInv_init|done].
Qed.

(** C5. For every board, every start cell and every set of goal rows,
    [astarDistToGoal(start, goalRows)] returns what
    [bfsDistToGoal(start, goalRows)] returns, and that is the goal distance:
    the length of a shortest path to a cell of a goal row when there is a
    path, [null] when there is none. *)
Theorem astarDistToGoal_eq_bfsDistToGoal (b : Board.t) (start : Cell)
  (goalRows : list Z) :
Board.astarDistToGoal b start goalRows = Board.bfsDistToGoal b start goalRows
∧ goalDist b start goalRows (Board.bfsDistToGoal b start goalRows).
Proof.
split; [|apply bfsDistToGoal_spec].
eapply goalDist_unique; [apply astarDistToGoal_spec|apply bfsDistToGoal_spec].
Qed.


(** ** The next-step search always returns *)

(** [chainIn seen parent cur n]: [n] steps along [parent] lead from [cur],
    through cells that are in [seen], to a cell without a parent. *)
Inductive chainIn (seen : gset Key) (parent : gmap Key Cell) : Cell → nat → Prop :=
| chain_end cur :
    keyCell cur ∈ seen → parent !! keyCell cur = None →
    chainIn seen parent cur 0
| chain_step cur p n :
    keyCell cur ∈ seen → parent !! keyCell cur = Some p →
    chainIn seen parent p n → chainIn seen parent cur (S n).

Lemma chainIn_seen seen parent cur n :
chainIn seen parent cur n → keyCell cur ∈ seen.
Proof. by intros []. Qed.

Lemma chainIn_insert seen parent cur n (k : Key) (u : Cell) :
chainIn seen parent cur n → k ∉ seen →
chainIn ({[k]} ∪ seen) (<[k:=u]> parent) cur n.
Proof.
intros Hc Hk. induction Hc as [cur Hs Hp|cur p n Hs Hp Hc IH].
- apply chain_end; [set_solver|]. rewrite lookup_insert_ne; [done|]. set_solver.
- apply (chain_step _ _ cur p); [set_solver| |done].
  rewrite lookup_insert_ne; [done|]. set_solver.
Qed.

Lemma firstStep_loop_total seen parent start fuel cur n :
chainIn seen parent cur n → (n < fuel)%nat →
is_Some (Board.firstStep_loop fuel parent start cur (parent !! keyCell cur)).
Proof.
revert cur n. induction fuel as [|fuel IH]; intros cur n Hc Hn; [lia|].
simpl. destruct Hc as [cur Hs Hp|cur p n Hs Hp Hc].
- by rewrite Hp.
- rewrite Hp. destruct (negb _); [|done]. apply (IH p n); [done|lia].
Qed.

Lemma reconstructDist_loop_total seen parent fuel d cur n :
chainIn seen parent cur n → (n < fuel)%nat →
is_Some (Board.reconstructDist_loop fuel parent d cur).
Proof.
revert d cur n. induction fuel as [|fuel IH]; intros d cur n Hc Hn; [lia|].
simpl. destruct Hc as [cur Hs Hp|cur p n Hs Hp Hc].
- by rewrite Hp.
- rewrite Hp. apply (IH _ p n); [done|lia].
Qed.

Section bfsNext_fuel.
Variable b : Board.t.
Variable start : Cell.
Variable goalRows : list Z.
Variable U : list Cell.
Hypothesis U_closed : ∀ v w, v ∈ U → w ∈ Board.neighbors b v → w ∈ U.

(** Every cell seen has a chain of parents shorter than the number of cells
    of [U]; the cells queued are cells of [U] that have been seen. *)
Definition nextInv (seen : gset Key) (parent : gmap Key Cell) (q : list Cell)
  : Prop :=
(∀ v, keyCell v ∈ seen →
   ∃ n, chainIn seen parent v n ∧ (n + unseen U seen < length U)%nat)
∧ (∀ x, x ∈ q → x ∈ U ∧ keyCell x ∈ seen).

Lemma bfsNextVisit_fold_inv (u : Cell) (nbrs : list Cell) (seen : gset Key)
  (parent : gmap Key Cell) (q : list Cell) :
nextInv seen parent q → u ∈ U → keyCell u ∈ seen →
(∀ w, w ∈ nbrs → w ∈ U) →
let st := fold_left (Board.bfsNextVisit u) nbrs (seen, parent, q) in
nextInv st.1.1 st.1.2 st.2
∧ (unseen U st.1.1 + length st.2 ≤ unseen U seen + length q)%nat.
Proof.
revert seen parent q. induction nbrs as [|w nbrs IH];
  intros seen parent q Hinv Hu Hus Hn.
- simpl. split; [done|lia].
- cbn [fold_left].
  destruct (Board.bfsNextVisit u (seen, parent, q) w) as [[seen1 parent1] q1]
    eqn:Hv.
  assert (nextInv seen1 parent1 q1 ∧ keyCell u ∈ seen1
          ∧ (unseen U seen1 + length q1 ≤ unseen U seen + length q)%nat)
    as (Hinv1 & Hus1 & Hm1).
  { unfold Board.bfsNextVisit in Hv. cbn [fst snd] in Hv.
    case_bool_decide as Hw; injection Hv as <- <- <-; [done|].
    pose proof (unseen_insert U seen w (Hn w ltac:(by left)) Hw) as Hlt.
    destruct Hinv as [Hchain Hq]. split_and!.
    - split.
      + intros v Hv. destruct (decide (keyCell v = keyCell w)) as [Heq|Hne].
        * apply keyCell_inj in Heq as ->.
          destruct (Hchain u Hus) as (n & Hc & Hb).
          exists (S n). split; [|lia].
          apply (chain_step _ _ w u); [set_solver|by rewrite lookup_insert_eq|].
          by apply chainIn_insert.
        * destruct (Hchain v ltac:(set_solver)) as (n & Hc & Hb).
          exists n. split; [by apply chainIn_insert|lia].
      + intros x [Hx| ->%list_elem_of_singleton]%elem_of_app.
        * destruct (Hq x Hx). split; [done|set_solver].
        * split; [apply Hn; by left|set_solver].
    - set_solver.
    - rewrite length_app. simpl. lia. }
  destruct (IH seen1 parent1 q1 Hinv1 Hu Hus1) as [Hinv2 Hm2].
  { intros w' Hw'. apply Hn. by right. }
  split; [done|]. simpl in *. lia.
Qed.

Lemma bfsNext_loop_total (fuel bound : nat) (seen : gset Key)
  (parent : gmap Key Cell) (q : list Cell) :
nextInv seen parent q →
(length U ≤ bound)%nat →
(unseen U seen + length q < fuel)%nat →
is_Some (Board.bfsNext_loop fuel bound b start goalRows seen parent q).
Proof.
revert seen parent q. induction fuel as [|fuel IH];
  intros seen parent q Hinv Hbound Hlt; [lia|].
simpl. destruct q as [|u q]; [done|].
destruct (proj2 Hinv u ltac:(by left)) as [HuU Hus].
destruct (JSSet.has _ _).
- destruct (proj1 Hinv u Hus) as (n & Hc & Hn).
  destruct (firstStep_loop_total seen parent start bound u n Hc ltac:(lia))
    as [cur ->].
  destruct (reconstructDist_loop_total seen parent bound 0 u n Hc ltac:(lia))
    as [d ->].
  done.
- destruct (bfsNextVisit_fold_inv u (Board.neighbors b u) seen parent q)
    as [Hinv' Hm]; [|done|done| |].
  + destruct Hinv as [Hchain Hq]. split; [done|].
    intros x Hx. apply Hq. by right.
  + intros w Hw. by apply (U_closed u).
  + apply IH; [done..|]. simpl in Hlt. lia.
Qed.
End bfsNext_fuel.

(** [cellBound + 1] turns complete the loop of [bfsNextStepToGoal] and the
    two walks back along the parents, whatever the board, the start cell
    and the goal rows. *)
Lemma bfsNextStepToGoal_fuel_enough (b : Board.t) (start : Cell) (goalRows : list Z) :
is_Some (Board.bfsNextStepToGoal_fuel (S (Board.cellBound b start)) b start
           goalRows).
Proof.
unfold Board.bfsNextStepToGoal_fuel.
pose proof (unseen_insert (boxCells (Board.N b) start) ∅ start) as Hlt.
rewrite (right_id_L ∅ (∪)), unseen_empty in Hlt.
specialize (Hlt ltac:(apply elem_of_boxCells, inBox_start) ltac:(set_solver)).
apply (bfsNext_loop_total b start goalRows (boxCells (Board.N b) start)).
- intros v w Hv Hw. apply elem_of_boxCells. apply elem_of_boxCells in Hv.
  by apply (inBox_neighbors b start v w).
- split.
  + intros v Hv. apply elem_of_singleton in Hv. apply keyCell_inj in Hv as ->.
    exists 0%nat. split; [|lia]. apply chain_end; [set_solver|done].
  + intros x ->%list_elem_of_singleton.
    split; [apply elem_of_boxCells, inBox_start|set_solver].
- rewrite length_boxCells. lia.
- rewrite <- length_boxCells. simpl. lia.
Qed.


(** * Further properties of the engine *)

(** ** Walls of a board *)

Lemma JSSet_has_add {A} `{EqDecision A} (x k : A) (s : list A) :
JSSet.has x (JSSet.add k s) = bool_decide (x = k) || JSSet.has x s.
Proof.
apply eq_true_iff_eq. rewrite orb_true_iff, bool_decide_eq_true.
by rewrite !JSSet_has_true, JSSet_elem_of_add.
Qed.

Lemma placeWall_ret_legal (b : Board.t) (w : Wall) (owner : option Player) :
(Board.placeWall w owner b).1 = Ret tt ↔ Board.wallLegal b w = true.
Proof.
unfold Board.placeWall.
destruct (Board.wallLegal b w); simpl; [by destruct (wall_o w)|done].
Qed.

(** X1. When [placeWall(w, owner)] returns, [removeWall(w)] gives back the
    size and both wall sets of the board, hence the value of [wallLegal] for
    every wall and the neighbours of every cell; it gives back the whole
    board when the owner map of the orientation of [w] had no entry for the
    anchor of [w]. *)
Theorem placeWall_then_removeWall_restores (b : Board.t) (w : Wall)
  (owner : option Player) :
(Board.placeWall w owner b).1 = Ret tt →
let b' := (Board.removeWall w (Board.placeWall w owner b).2).2 in
Board.N b' = Board.N b
∧ Board.hWalls b' = Board.hWalls b
∧ Board.vWalls b' = Board.vWalls b
∧ (∀ w', Board.wallLegal b' w' = Board.wallLegal b w')
∧ (∀ p, Board.neighbors b' p = Board.neighbors b p)
∧ ((wall_r w, wall_c w) ∉ (ownersOf b (wall_o w)).*1 → b' = b).
Proof.
intros Hl%placeWall_ret_legal b'.
pose proof (removeWall_placeWall_geometry b w owner Hl) as Hg.
fold b' in Hg. pose proof Hg as (HN & Hh & Hv).
split_and!; try done.
- intros w'. symmetry. by apply wallLegal_geometry.
- intros p. symmetry. by apply neighbors_geometry.
- intros Hown. pose proof (wallLegal_not_placed b w Hl) as Hnp.
  unfold b', Board.placeWall, Board.removeWall. rewrite Hl. simpl.
  destruct b as [n h v ho vo], w as [r c o]. simpl in *.
  destruct o; simpl in *; rewrite JSSet_delete_add by done; f_equal;
    (destruct owner; [by apply JSMap_delete_set|by apply JSMap_delete_absent]).
Qed.

Lemma placeWall_then_removeWall_restores_witness :
(Board.removeWall (mkWall 5 5 oV)
   (Board.placeWall (mkWall 5 5 oV) (Some P1)
      (Board.mk 9 [(3, 3)] [] [((3, 3), P0)] [])).2).2
= Board.mk 9 [(3, 3)] [] [((3, 3), P0)] [].
Proof.
apply (placeWall_then_removeWall_restores
         (Board.mk 9 [(3, 3)] [] [((3, 3), P0)] []) (mkWall 5 5 oV) (Some P1)).
- reflexivity.
- simpl. apply not_elem_of_nil.
Defined.

(** Two walls clash when they have the same anchor, or the same orientation
    and anchors one apart along it. *)
Definition clashes (w w' : Wall) : bool :=
bool_decide ((wall_r w', wall_c w') = (wall_r w, wall_c w))
|| (bool_decide (wall_o w' = wall_o w)
    && bool_decide ((wall_r w', wall_c w') ∈ halfOverlapAnchors w)).

(** X2. A wall that [placeWall] has placed rules out the walls that clash
    with it and no others: after [placeWall(w, owner)] returned,
    [wallLegal(w')] is what it was before for a wall [w'] that does not
    clash with [w], and false for one that does; so a second
    [placeWall(w, .)] throws. *)
Theorem placeWall_rules_out_clashes (b : Board.t) (w : Wall)
  (owner : option Player) :
(Board.placeWall w owner b).1 = Ret tt →
(∀ w', Board.wallLegal (Board.placeWall w owner b).2 w'
       = Board.wallLegal b w' && negb (clashes w w'))
∧ ∀ owner', (Board.placeWall w owner' (Board.placeWall w owner b).2).1
            = Throw IllegalPlacement.
Proof.
intros Hl%placeWall_ret_legal.
assert (∀ w', Board.wallLegal (Board.placeWall w owner b).2 w'
              = Board.wallLegal b w' && negb (clashes w w')) as Hall.
{ intros w'. unfold Board.placeWall. rewrite Hl. simpl.
  unfold Board.wallLegal, Board.hHalfOverlap, Board.vHalfOverlap, clashes,
    halfOverlapAnchors.
  destruct w as [r c o], w' as [r' c' o']. destruct o; simpl;
    (destruct (negb _) eqn:Hrange; [done|]);
    destruct o'; simpl; rewrite !JSSet_has_add;
    repeat (case_bool_decide; simplify_eq; simpl; try done; try lia);
    repeat (destruct (JSSet.has _ _); simpl; try done);
    try (exfalso; set_unfold; rewrite ?pair_eq in *; naive_solver lia). }
split; [done|]. intros owner'.
unfold Board.placeWall at 1. rewrite Hall, Hl. simpl.
assert (clashes w w = true) as ->.
{ unfold clashes. by rewrite bool_decide_eq_true_2. }
done.
Qed.

Lemma placeWall_rules_out_clashes_witness :
(∀ w', Board.wallLegal (Board.placeWall (mkWall 3 3 oH) None (Board.new 9)).2 w'
       = Board.wallLegal (Board.new 9) w' && negb (clashes (mkWall 3 3 oH) w'))
∧ ∀ owner', (Board.placeWall (mkWall 3 3 oH) owner'
               (Board.placeWall (mkWall 3 3 oH) None (Board.new 9)).2).1
            = Throw IllegalPlacement.
Proof.
apply (placeWall_rules_out_clashes (Board.new 9) (mkWall 3 3 oH) None).
reflexivity.
Defined.

(** X3. [removeWall(w)] always returns; afterwards the anchor of [w] is in
    neither the wall set nor the owner map of the orientation of [w], the
    other anchors and the collections of the other orientation are as
    before; removing [w] once more changes nothing, and removing a wall that
    is not placed and has no owner entry leaves the board as it is. *)
Theorem removeWall_idempotent (b : Board.t) (w : Wall) :
let b' := (Board.removeWall w b).2 in
(Board.removeWall w b).1 = Ret tt
∧ (∀ k, k ∈ wallsOf b' (wall_o w) ↔ k ∈ wallsOf b (wall_o w) ∧ k ≠ (wall_r w, wall_c w))
∧ (∀ kv, kv ∈ ownersOf b' (wall_o w)
         ↔ kv ∈ ownersOf b (wall_o w) ∧ kv.1 ≠ (wall_r w, wall_c w))
∧ wallsOf b' (crossing (wall_o w)) = wallsOf b (crossing (wall_o w))
∧ ownersOf b' (crossing (wall_o w)) = ownersOf b (crossing (wall_o w))
∧ Board.removeWall w b' = (Ret tt, b')
∧ ((wall_r w, wall_c w) ∉ wallsOf b (wall_o w) →
   (wall_r w, wall_c w) ∉ (ownersOf b (wall_o w)).*1 →
   b' = b).
Proof.
destruct b as [n h v ho vo], w as [r c o].
unfold Board.removeWall, JSSet.delete, JSMap.delete.
destruct o; simpl; (split_and!; try done);
  try (intros k; rewrite list_elem_of_filter; tauto);
  try (by rewrite !list_filter_filter;
       do 2 f_equal; apply list_filter_iff; intros ?; tauto);
  intros Hw Ho; f_equal;
    solve [by apply filter_ne_id | by apply JSMap_delete_absent].
Qed.

(** ** Moves between cells *)

Lemma NoDup_neighbors (b : Board.t) (p : Cell) : NoDup (Board.neighbors b p).
Proof.
unfold Board.neighbors. apply NoDup_filter.
destruct p as [r c]. simpl.
repeat match goal with
       | |- context [if ?x then _ else _] => destruct x
       end; simpl;
  repeat (apply NoDup_cons; split;
          [set_unfold; intros ?; destruct_or?; simplify_eq; lia|]);
  apply NoDup_nil_2.
Qed.

(** X4. [neighbors(p)] returns at most four cells, no cell twice and never
    [p] itself; each is one unit step from [p] and not walled off from it,
    in either direction. When [p] is a cell of the board its neighbours are
    cells of the board and have [p] among their neighbours: between cells of
    the board the moves are undirected. *)
Theorem neighbors_undirected (b : Board.t) (p : Cell) :
(length (Board.neighbors b p) ≤ 4)%nat
∧ NoDup (Board.neighbors b p)
∧ (p ∉ Board.neighbors b p)
∧ (∀ q, q ∈ Board.neighbors b p →
        Z.abs (cell_r q - cell_r p) + Z.abs (cell_c q - cell_c p) = 1
        ∧ Board.blockedEdge b p q = false
        ∧ Board.blockedEdge b q p = false)
∧ (0 ≤ cell_r p < Board.N b ∧ 0 ≤ cell_c p < Board.N b →
   ∀ q, q ∈ Board.neighbors b p →
        (0 ≤ cell_r q < Board.N b ∧ 0 ≤ cell_c q < Board.N b)
        ∧ p ∈ Board.neighbors b q).
Proof.
split; [apply length_neighbors|]. split; [apply NoDup_neighbors|].
split; [|split].
- intros [Hadj _]%elem_of_neighbors. destruct p as [r c].
  destruct Hadj as [[? ?]|[[? ?]|[[? ?]|[? ?]]]]; simplify_eq; lia.
- intros q [Hadj Hfree]%elem_of_neighbors. split; [|split].
  + destruct Hadj as [[-> ?]|[[-> ?]|[[-> ?]|[-> ?]]]]; simpl; lia.
  + done.
  + by rewrite blockedEdge_sym.
- intros Hp q Hq. split.
  + by apply (neighbors_onBoard b p q).
  + by apply neighbors_sym.
Qed.

(** The unit edge between [p] and [q] is one of the two that the wall [w]
    spans: for an H wall anchored at (r,c), the edges between rows [r] and
    [r+1] in the columns [c] and [c+1]; for a V wall, the edges between the
    columns [c] and [c+1] in the rows [r] and [r+1]. *)
Definition spans (w : Wall) (p q : Cell) : bool :=
match wall_o w with
| oH =>
    bool_decide (cell_c p = cell_c q)
    && bool_decide (cell_c p = wall_c w ∨ cell_c p = wall_c w + 1)
    && bool_decide (Z.min (cell_r p) (cell_r q) = wall_r w)
    && bool_decide (Z.max (cell_r p) (cell_r q) = wall_r w + 1)
| oV =>
    bool_decide (cell_r p = cell_r q)
    && bool_decide (cell_r p = wall_r w ∨ cell_r p = wall_r w + 1)
    && bool_decide (Z.min (cell_c p) (cell_c q) = wall_c w)
    && bool_decide (Z.max (cell_c p) (cell_c q) = wall_c w + 1)
end.

Lemma blockedEdge_withWall (b : Board.t) (w : Wall) (owner : option Player)
  (p q : Cell) :
Board.wallLegal b w = true →
Board.blockedEdge (withWall w owner b) p q
= Board.blockedEdge b p q || spans w p q.
Proof.
intros Hl. unfold withWall, Board.placeWall. rewrite Hl. simpl.
unfold Board.blockedEdge, spans.
destruct w as [r c o], p as [pr pc], q as [qr qc].
destruct o; simpl;
  repeat match goal with
         | |- context [Z.eqb ?x ?y] => destruct (Z.eqb_spec x y)
         end; simpl; rewrite ?JSSet_has_add;
  repeat (case_bool_decide; simplify_eq; simpl; try done; try lia);
  repeat (destruct (JSSet.has _ _); simpl; try done);
  try done; try (exfalso; rewrite ?pair_eq in *; lia).
Qed.

Lemma neighbors_withWall (b : Board.t) (w : Wall) (owner : option Player)
  (p : Cell) :
Board.wallLegal b w = true →
Board.neighbors (withWall w owner b) p
= filter (λ q, spans w p q = false) (Board.neighbors b p).
Proof.
intros Hl.
assert (Board.N (withWall w owner b) = Board.N b) as HN.
{ unfold withWall, Board.placeWall. rewrite Hl. simpl. by destruct (wall_o w). }
unfold Board.neighbors. rewrite HN, list_filter_filter.
apply list_filter_iff. intros q.
rewrite (blockedEdge_withWall b w owner p q Hl), orb_false_iff. tauto.
Qed.

(** X5. A wall that [placeWall] has placed blocks the two unit edges it
    spans, in both directions, and nothing else: [_blockedEdge] afterwards
    is [_blockedEdge] before or [spans], and the neighbours of a cell are
    its former neighbours without those across the wall. *)
Theorem placeWall_blocks_spanned_edges (b : Board.t) (w : Wall)
  (owner : option Player) :
(Board.placeWall w owner b).1 = Ret tt →
let b' := (Board.placeWall w owner b).2 in
(∀ p q, Board.blockedEdge b' p q = Board.blockedEdge b p q || spans w p q)
∧ (∀ p, Board.neighbors b' p
        = filter (λ q, spans w p q = false) (Board.neighbors b p)).
Proof.
intros Hl%placeWall_ret_legal b'. split.
- intros p q. by apply blockedEdge_withWall.
- intros p. by apply neighbors_withWall.
Qed.

Lemma placeWall_blocks_spanned_edges_witness :
(∀ p q, Board.blockedEdge (Board.placeWall (mkWall 3 3 oH) None (Board.new 9)).2 p q
        = Board.blockedEdge (Board.new 9) p q || spans (mkWall 3 3 oH) p q)
∧ (∀ p, Board.neighbors (Board.placeWall (mkWall 3 3 oH) None (Board.new 9)).2 p
        = filter (λ q, spans (mkWall 3 3 oH) p q = false)
            (Board.neighbors (Board.new 9) p)).
Proof.
apply (placeWall_blocks_spanned_edges (Board.new 9) (mkWall 3 3 oH) None).
reflexivity.
Defined.

Lemma reach_fewer_walls (b b' : Board.t) (start v : Cell) (n : nat) :
(∀ p q, q ∈ Board.neighbors b' p → q ∈ Board.neighbors b p) →
reach b' start v n → reach b start v n.
Proof.
intros Hsub Hr. induction Hr as [|u v n _ IH Hv]; [constructor|].
econstructor; [done|]. by apply Hsub.
Qed.

(** X6. A placed wall closes paths and opens none: when
    [bfsDistToGoal(start, goalRows)] is a number [d'] on the board after
    [placeWall(w, owner)], it was a number [d ≤ d'] before, and when
    [pathExistsFor] is true after, it was true before. *)
Theorem placeWall_lengthens_paths (b : Board.t) (w : Wall) (owner : option Player)
  (start : Cell) (goalRows : list Z) (d' : Z) :
Board.bfsDistToGoal (Board.placeWall w owner b).2 start goalRows = Some d' →
(∃ d, Board.bfsDistToGoal b start goalRows = Some d ∧ d ≤ d')
∧ Board.pathExistsFor b start goalRows = true.
Proof.
intros Hd'.
assert (∀ p q, q ∈ Board.neighbors (Board.placeWall w owner b).2 p
               → q ∈ Board.neighbors b p) as Hsub.
{ intros p q. destruct (Board.wallLegal b w) eqn:Hl.
  - fold (withWall w owner b).
    rewrite (neighbors_withWall b w owner p Hl), list_elem_of_filter. tauto.
  - unfold Board.placeWall. by rewrite Hl. }
pose proof (bfsDistToGoal_spec (Board.placeWall w owner b).2 start goalRows)
  as Hspec'.
rewrite Hd' in Hspec'. destruct Hspec' as (v & n & -> & Hg & Hr & _).
apply (reach_fewer_walls b) in Hr; [|done].
pose proof (bfsDistToGoal_spec b start goalRows) as Hspec.
unfold Board.pathExistsFor.
destruct (Board.bfsDistToGoal b start goalRows) as [d|].
- destruct Hspec as (v0 & n0 & -> & _ & _ & Hmin).
  split; [|by apply bool_decide_eq_true_2].
  exists (Z.of_nat n0). split; [done|]. specialize (Hmin v n Hg Hr). lia.
- by destruct (Hspec v n).
Qed.

Lemma placeWall_lengthens_paths_witness :
(∃ d, Board.bfsDistToGoal (Board.new 3) (mkCell 0 0) [2] = Some d ∧ d ≤ 4)
∧ Board.pathExistsFor (Board.new 3) (mkCell 0 0) [2] = true.
Proof.
apply (placeWall_lengthens_paths (Board.new 3) (mkWall 0 0 oH) None
         (mkCell 0 0) [2] 4).
vm_compute. reflexivity.
Defined.

(** X7. [pathExistsFor(start, goalRows)] is true exactly when moves between
    neighbouring cells lead from [start] to a cell of a goal row, and
    [pathExistsFor] is true exactly when [bfsDistToGoal] and
    [astarDistToGoal] return a number, which is then not negative. *)
Theorem pathExistsFor_decides_reachability (b : Board.t) (start : Cell)
  (goalRows : list Z) :
(Board.pathExistsFor b start goalRows = true
 ↔ ∃ v n, reach b start v n ∧ cell_r v ∈ goalRows)
∧ (Board.pathExistsFor b start goalRows = true
   ↔ ∃ d, 0 ≤ d ∧ Board.bfsDistToGoal b start goalRows = Some d
          ∧ Board.astarDistToGoal b start goalRows = Some d).
Proof.
split; [apply pathExistsFor_true|].
pose proof (goalDist_unique _ _ _ _ _ (astarDistToGoal_spec b start goalRows)
              (bfsDistToGoal_spec b start goalRows)) as ->.
unfold Board.pathExistsFor. rewrite bool_decide_eq_true.
pose proof (bfsDistToGoal_spec b start goalRows) as Hspec.
destruct (Board.bfsDistToGoal b start goalRows) as [d|].
- destruct Hspec as (v & n & -> & _). split; [|done].
  intros _. exists (Z.of_nat n). split; [lia|done].
- split; [done|]. by intros (d & _ & ? & _).
Qed.

(** X8. The heuristic [_hToGoal] of A* never overestimates: it is zero on
    a goal row, not negative, at most one more than at a neighbour, and at
    most the distance [bfsDistToGoal] returns when there is a path. *)
Theorem hToGoal_admissible (b : Board.t) (start : Cell) (goalRows : list Z) :
0 ≤ Board.hToGoal start goalRows
∧ (cell_r start ∈ goalRows → Board.hToGoal start goalRows = 0)
∧ (∀ q, q ∈ Board.neighbors b start →
        Board.hToGoal start goalRows ≤ Board.hToGoal q goalRows + 1)
∧ (∀ d, Board.bfsDistToGoal b start goalRows = Some d →
        Board.hToGoal start goalRows ≤ d).
Proof.
split_and!.
- apply hToGoal_nonneg.
- apply hToGoal_goal.
- intros q. apply hToGoal_step.
- intros d Hd. pose proof (bfsDistToGoal_spec b start goalRows) as Hspec.
  rewrite Hd in Hspec. destruct Hspec as (v & n & -> & Hg & Hr & _).
  apply hToGoal_goal in Hg.
  assert (∀ u m, reach b start u m →
                 Board.hToGoal start goalRows
                 ≤ Board.hToGoal u goalRows + Z.of_nat m) as Hall.
  { intros u m Hu. induction Hu as [|u u' m _ IH Hstep]; [lia|].
    pose proof (hToGoal_step b u u' goalRows Hstep). lia. }
  specialize (Hall v n Hr). lia.
Qed.

(** ** The priority queue *)

(** X9. The priority queue of A*. [push] on a queue in heap order leaves a
    queue in heap order that holds the entries it held and the new one, and
    is not empty. [pop] on such a queue, when it is not empty, returns the
    key of an entry whose priority is the least in the queue and leaves the
    other entries, in heap order. On the empty queue, which is in heap
    order, [pop] returns [null] and changes nothing. *)
Theorem MinPQ_keeps_heap_order (a : list (Key * Z)) (k : Key) (pri : Z) :
heapOrdered a →
(heapOrdered (MinPQ.push a k pri)
 ∧ MinPQ.push a k pri ≡ₚ (k, pri) :: a
 ∧ MinPQ.empty (MinPQ.push a k pri) = false)
∧ (a ≠ [] →
   ∃ k' pri' a', MinPQ.pop a = (Some k', a')
                 ∧ a ≡ₚ (k', pri') :: a'
                 ∧ (∀ x, x ∈ a → pri' ≤ x.2)
                 ∧ heapOrdered a')
∧ heapOrdered [] ∧ MinPQ.empty [] = true ∧ MinPQ.pop [] = (None, []).
Proof.
intros Hh. destruct (push_spec a k pri Hh) as [Hh' Hperm].
split; [|split].
- split_and!; [done..|].
  unfold MinPQ.empty. apply bool_decide_eq_false_2. by rewrite Hperm.
- intros Hne.
  destruct (pop_spec a Hh Hne) as (k' & f & a' & Hpop & Hha' & Hperm' & Hmin).
  by exists k', f, a'.
- split; [apply heapOrdered_nil|done].
Qed.

Lemma MinPQ_keeps_heap_order_witness :
(heapOrdered (MinPQ.push [((1, 1), 2); ((0, 0), 5)] (2, 2) 1)
 ∧ MinPQ.push [((1, 1), 2); ((0, 0), 5)] (2, 2) 1
   ≡ₚ ((2, 2), 1) :: [((1, 1), 2); ((0, 0), 5)]
 ∧ MinPQ.empty (MinPQ.push [((1, 1), 2); ((0, 0), 5)] (2, 2) 1) = false)
∧ ([((1, 1), 2); ((0, 0), 5)] ≠ [] →
   ∃ k' pri' a', MinPQ.pop [((1, 1), 2); ((0, 0), 5)] = (Some k', a')
                 ∧ [((1, 1), 2); ((0, 0), 5)] ≡ₚ (k', pri') :: a'
                 ∧ (∀ x, x ∈ [((1, 1), 2); ((0, 0), 5)] → pri' ≤ x.2)
                 ∧ heapOrdered a')
∧ heapOrdered [] ∧ MinPQ.empty [] = true ∧ MinPQ.pop [] = (None, []).
Proof.
apply (MinPQ_keeps_heap_order [((1, 1), 2); ((0, 0), 5)] (2, 2) 1).
intros j Hj. unfold priAt.
destruct j as [|[|j]]; [lia|simpl; lia|].
rewrite (lookup_ge_None_2 _ (S (S j))) by (simpl; lia). apply ole_None_r.
Defined.

(** ** Pawn moves *)

Lemma NoDup_dedup (seen : list Key) (out : list Cell) :
NoDup (GameState.dedup seen out).
Proof.
revert seen. induction out as [|m out IH]; intros seen; simpl.
- apply NoDup_nil_2.
- destruct (JSSet.has (keyCell m) seen); simpl; [apply IH|].
  apply NoDup_cons. split; [|apply IH].
  rewrite elem_of_dedup, JSSet_elem_of_add. tauto.
Qed.

Lemma dedup_NoDup (seen : list Key) (out : list Cell) :
NoDup out → (∀ m, m ∈ out → keyCell m ∉ seen) →
GameState.dedup seen out = out.
Proof.
revert seen. induction out as [|m out IH]; intros seen Hnd Hseen; [done|].
apply NoDup_cons in Hnd as [Hm Hnd]. simpl.
rewrite (proj2 (JSSet_has_false _ _)) by (apply Hseen; by left). simpl.
f_equal. apply IH; [done|]. intros m' Hm'.
rewrite JSSet_elem_of_add. intros [Hk|Hk].
- apply keyCell_inj in Hk as ->. done.
- revert Hk. apply Hseen. by right.
Qed.

Lemma existsb_sameCell (to : Cell) (l : list Cell) :
existsb (λ p, sameCell p to) l = true ↔ to ∈ l.
Proof.
rewrite existsb_exists. split.
- intros (p & Hp & ->%sameCell_true). by apply list_elem_of_In.
- intros Hto. exists to. split; [by apply list_elem_of_In|by apply sameCell_true].
Qed.

Section pawn_moves_more.
Import GameState.

(** X10. [legalPawnMoves()] returns no cell twice. When the opponent's
    pawn is on a neighbour of the mover's pawn and the straight jump is off
    the board or walled off, it returns the other neighbours of the mover's
    pawn and every cell one unit step from the opponent's pawn that is on
    the board and not walled off from it. The mover's own cell, when on the
    board, is such a cell: [apply] then accepts the PAWN move to it, which
    leaves both pawns where they are and passes the turn. *)
Theorem legalPawnMoves_blocked_jump (s : t) (rec : bool) :
NoDup (legalPawnMoves s)
∧ (at2 (pawns s) (other (toMove s))
     ∈ Board.neighbors (board s) (at2 (pawns s) (toMove s)) →
   inBounds s (straightJump s)
   && negb (Board.blockedEdge (board s) (at2 (pawns s) (other (toMove s)))
              (straightJump s)) = false →
   (∀ q, q ∈ legalPawnMoves s ↔
      (q ∈ Board.neighbors (board s) (at2 (pawns s) (toMove s))
       ∧ q ≠ at2 (pawns s) (other (toMove s)))
      ∨ (Z.abs (cell_r q - cell_r (at2 (pawns s) (other (toMove s))))
         + Z.abs (cell_c q - cell_c (at2 (pawns s) (other (toMove s)))) = 1
         ∧ inBounds s q = true
         ∧ Board.blockedEdge (board s) (at2 (pawns s) (other (toMove s))) q
           = false))
   ∧ (inBounds s (at2 (pawns s) (toMove s)) = true →
      at2 (pawns s) (toMove s) ∈ legalPawnMoves s
      ∧ (apply (PAWN (at2 (pawns s) (toMove s))) rec s).1 = Ret tt
      ∧ pawns (apply (PAWN (at2 (pawns s) (toMove s))) rec s).2 = pawns s
      ∧ toMove (apply (PAWN (at2 (pawns s) (toMove s))) rec s).2
        = other (toMove s))).
Proof.
split; [apply NoDup_dedup|].
unfold straightJump. cbv zeta.
set (myp := at2 (pawns s) (toMove s)).
set (opp := at2 (pawns s) (other (toMove s))).
intros Hopp Hjump.
pose proof Hopp as [Hadj Hfree]%elem_of_neighbors.
assert (∀ q, (∃ d, d ∈ sideOffsets
                   ∧ q = mkCell (cell_r opp + cell_r d) (cell_c opp + cell_c d))
             ↔ Z.abs (cell_r q - cell_r opp) + Z.abs (cell_c q - cell_c opp) = 1)
  as Hunit.
{ intros [rq cq]. destruct opp as [ro co]. unfold sideOffsets. simpl. split.
  - intros (d & Hd & [= -> ->]). set_unfold.
    destruct Hd as [->|[->|[->|[->|[]]]]]; simpl; lia.
  - intros Habs.
    assert ((rq = ro - 1 ∧ cq = co) ∨ (rq = ro + 1 ∧ cq = co)
            ∨ (rq = ro ∧ cq = co - 1) ∨ (rq = ro ∧ cq = co + 1))
      as [[-> ->]|[[-> ->]|[[-> ->]|[-> ->]]]] by lia.
    + exists (mkCell (-1) 0). split; [set_solver|simpl; f_equal; lia].
    + exists (mkCell 1 0). split; [set_solver|simpl; f_equal; lia].
    + exists (mkCell 0 (-1)). split; [set_solver|simpl; f_equal; lia].
    + exists (mkCell 0 1). split; [set_solver|simpl; f_equal; lia]. }
assert (∀ q, q ∈ legalPawnMoves s ↔
          (q ∈ Board.neighbors (board s) myp ∧ q ≠ opp)
          ∨ (Z.abs (cell_r q - cell_r opp) + Z.abs (cell_c q - cell_c opp) = 1
             ∧ inBounds s q = true
             ∧ Board.blockedEdge (board s) opp q = false)) as Hchar.
{ intros q. rewrite elem_of_legalPawnMoves. fold myp opp. split.
  - intros (nb & Hnb & Hq). unfold pawnTargets in Hq.
    destruct (sameCell nb opp) eqn:Hsame.
    + rewrite Hjump in Hq. apply elem_of_sides in Hq as (Hd & Hin & Hb & _).
      right. by rewrite <- Hunit.
    + apply list_elem_of_singleton in Hq as ->.
      apply sameCell_false in Hsame. by left.
  - intros [[Hq Hne]|(Hstep & Hin & Hb)].
    + exists q. split; [done|]. unfold pawnTargets.
      rewrite (proj2 (sameCell_false q opp) Hne). by apply list_elem_of_singleton.
    + exists opp. split; [done|]. unfold pawnTargets.
      rewrite (proj2 (sameCell_true opp opp) eq_refl), Hjump.
      apply elem_of_sides. by rewrite Hunit. }
split; [done|]. intros Hmy.
assert (myp ∈ legalPawnMoves s) as Hin.
{ apply Hchar. right. split_and!; [|done|by rewrite blockedEdge_sym].
  unfold adjacentOnBoard in Hadj. destruct myp as [rm cm], opp as [ro co].
  simpl in *. destruct_or?; destruct_and?; simplify_eq; lia. }
split; [done|]. rewrite apply_pawn_eq.
rewrite (proj2 (existsb_sameCell myp _) Hin). simpl.
unfold myp. by destruct rec, (toMove s), (pawns s).
Qed.

Lemma legalPawnMoves_blocked_jump_witness :
mkCell 4 1 ∈ legalPawnMoves Samples.jumpAtEdge
∧ (apply (PAWN (mkCell 4 1)) true Samples.jumpAtEdge).1 = Ret tt
∧ pawns (apply (PAWN (mkCell 4 1)) true Samples.jumpAtEdge).2
  = pawns Samples.jumpAtEdge
∧ toMove (apply (PAWN (mkCell 4 1)) true Samples.jumpAtEdge).2 = P1.
Proof.
apply (legalPawnMoves_blocked_jump Samples.jumpAtEdge true).
- apply (bool_decide_unpack _). by vm_compute.
- reflexivity.
- reflexivity.
Defined.

Lemma bind_singleton_id {A} (f : A → list A) (l : list A) :
(∀ x, x ∈ l → f x = [x]) → l ≫= f = l.
Proof.
induction l as [|x l IH]; intros Hf; [done|].
cbn [mbind list_bind]. rewrite Hf by (by left). simpl. f_equal.
apply IH. intros y Hy. apply Hf. by right.
Qed.

(** X11. When the opponent's pawn is not on a neighbour of the mover's
    pawn, [legalPawnMoves()] returns the neighbours of the mover's pawn, in
    the order of [neighbors]. *)
Theorem legalPawnMoves_without_contact (s : t) :
at2 (pawns s) (other (toMove s))
  ∉ Board.neighbors (board s) (at2 (pawns s) (toMove s)) →
legalPawnMoves s = Board.neighbors (board s) (at2 (pawns s) (toMove s)).
Proof.
intros Hopp. unfold legalPawnMoves. cbv zeta.
rewrite bind_singleton_id.
- apply dedup_NoDup; [apply NoDup_neighbors|]. intros m _. apply not_elem_of_nil.
- intros q Hq. unfold pawnTargets.
  destruct (sameCell q _) eqn:Hsame; [|done].
  apply sameCell_true in Hsame as ->. done.
Qed.

Lemma legalPawnMoves_without_contact_witness :
legalPawnMoves (new 9)
= Board.neighbors (board (new 9)) (at2 (pawns (new 9)) (toMove (new 9))).
Proof.
apply (legalPawnMoves_without_contact (new 9)).
apply (bool_decide_unpack _). by vm_compute.
Defined.

Lemma bind_singleton_fmap {A B} (f : A → list B) (g : A → B) (l : list A) :
(∀ x, x ∈ l → f x = [g x]) → l ≫= f = g <$> l.
Proof.
induction l as [|x l IH]; intros Hf; [done|].
cbn [mbind list_bind]. rewrite Hf by (by left). simpl. f_equal.
apply IH. intros y Hy. apply Hf. by right.
Qed.

(** X12. When the opponent's pawn is on a neighbour of the mover's pawn and
    the cell behind it is on the board and not walled off from it,
    [legalPawnMoves()] returns the neighbours of the mover's pawn with the
    opponent's cell replaced by the cell behind it: the straight jump is
    offered, the opponent's cell and the cells perpendicular to the jump are
    not. *)
Theorem legalPawnMoves_straight_jump (s : t) :
at2 (pawns s) (other (toMove s))
  ∈ Board.neighbors (board s) (at2 (pawns s) (toMove s)) →
inBounds s (straightJump s)
&& negb (Board.blockedEdge (board s) (at2 (pawns s) (other (toMove s)))
           (straightJump s)) = true →
(legalPawnMoves s
 = (λ q, if sameCell q (at2 (pawns s) (other (toMove s)))
         then straightJump s else q)
   <$> Board.neighbors (board s) (at2 (pawns s) (toMove s)))
∧ straightJump s ∈ legalPawnMoves s
∧ (at2 (pawns s) (other (toMove s)) ∉ legalPawnMoves s)
∧ ∀ side, perpendicularSide s side → side ∉ legalPawnMoves s.
Proof.
unfold straightJump, perpendicularSide. cbv zeta.
set (myp := at2 (pawns s) (toMove s)).
set (opp := at2 (pawns s) (other (toMove s))).
set (dest := mkCell _ _).
intros Hopp Hjump.
pose proof Hopp as [Hadj _]%elem_of_neighbors.
assert (legalPawnMoves s
        = (λ q, if sameCell q opp then dest else q)
          <$> Board.neighbors (board s) myp) as Heq.
{ unfold legalPawnMoves. cbv zeta. fold myp opp.
  rewrite (bind_singleton_fmap _ (λ q, if sameCell q opp then dest else q)).
  - apply dedup_NoDup; [|intros m _; apply not_elem_of_nil].
    apply NoDup_fmap_2_strong; [|apply NoDup_neighbors].
    intros x y Hx Hy.
    apply elem_of_neighbors in Hx as [Hx _].
    apply elem_of_neighbors in Hy as [Hy _].
    destruct (sameCell x opp) eqn:Ex, (sameCell y opp) eqn:Ey;
      rewrite ?sameCell_true, ?sameCell_false in *; subst; try done;
      intros Hxy; exfalso; unfold dest, adjacentOnBoard in *;
      destruct myp as [rm cm], opp as [ro co]; simpl in *;
      destruct_or?; destruct_and?; simplify_eq; lia.
  - intros q Hq. unfold pawnTargets. fold dest.
    destruct (sameCell q opp); [|done]. by rewrite Hjump. }
split; [done|]. rewrite Heq.
assert (∀ q, q ∈ (λ q, if sameCell q opp then dest else q)
                 <$> Board.neighbors (board s) myp
             ↔ (q = dest ∨ q ∈ Board.neighbors (board s) myp) ∧ q ≠ opp)
  as Hin.
{ intros q. rewrite list_elem_of_fmap. split.
  - intros (x & -> & Hx). destruct (sameCell x opp) eqn:Ex.
    + split; [by left|]. unfold dest, adjacentOnBoard in *.
      destruct myp as [rm cm], opp as [ro co]; simpl in *.
      intros ?. destruct_or?; destruct_and?; simplify_eq; lia.
    + apply sameCell_false in Ex. split; [by right|done].
  - intros [[->|Hq] Hne].
    + exists opp. split; [|done].
      by rewrite (proj2 (sameCell_true opp opp) eq_refl).
    + exists q. split; [|done].
      by rewrite (proj2 (sameCell_false q opp) Hne). }
split_and!.
- apply Hin. split; [by left|]. unfold dest, adjacentOnBoard in *.
  destruct myp as [rm cm], opp as [ro co]; simpl in *.
  intros ?. destruct_or?; destruct_and?; simplify_eq; lia.
- rewrite Hin. tauto.
- intros side Hside. rewrite Hin. intros [[->|Hnb] _].
  + unfold dest, adjacentOnBoard in *.
    destruct myp as [rm cm], opp as [ro co]; simpl in *.
    destruct_or?; destruct_and?; simplify_eq; lia.
  + apply elem_of_neighbors in Hnb as [Hnb _].
    unfold adjacentOnBoard in *.
    destruct myp as [rm cm], opp as [ro co]; simpl in *.
    destruct_or?; destruct_and?; simplify_eq; lia.
Qed.
Lemma legalPawnMoves_straight_jump_witness :
legalPawnMoves Samples.faceToFace = [mkCell 3 4; mkCell 5 4; mkCell 4 3; mkCell 4 6]
∧ mkCell 4 6 ∈ legalPawnMoves Samples.faceToFace
∧ (mkCell 4 5 ∉ legalPawnMoves Samples.faceToFace)
∧ ∀ side, perpendicularSide Samples.faceToFace side → side ∉ legalPawnMoves Samples.faceToFace.
Proof.
apply (legalPawnMoves_straight_jump Samples.faceToFace).
- apply (bool_decide_unpack _). by vm_compute.
- reflexivity.
Defined.
End pawn_moves_more.

(** ** [apply], [undo], [snapshot] and [restore] *)

Section apply_more.
Import GameState.

(** X13. A PAWN move: [apply] throws IllegalMove when the destination is
    not a cell of [legalPawnMoves()], and then pawns, wall sets, owner maps,
    walls-left and side-to-move are as before the call; otherwise it
    returns, the mover's pawn is on the destination, the other pawn, the
    board and the walls-left counters are as before, and the side to move is
    the other player. Either way the history has the snapshot of the state
    before the call appended when [recordHistory] is true and is as before
    when it is false. *)
Theorem apply_pawn_cases (s : t) (to : Cell) (rec : bool) :
let r := apply (PAWN to) rec s in
(to ∉ legalPawnMoves s → r.1 = Throw IllegalMove ∧ snapshot r.2 = snapshot s)
∧ (to ∈ legalPawnMoves s →
   r.1 = Ret tt
   ∧ at2 (pawns r.2) (toMove s) = to
   ∧ at2 (pawns r.2) (other (toMove s)) = at2 (pawns s) (other (toMove s))
   ∧ board r.2 = board s
   ∧ wallsLeft r.2 = wallsLeft s
   ∧ toMove r.2 = other (toMove s))
∧ history r.2 = (if rec then history s ++ [snapshot s] else history s).
Proof.
intros r. unfold r. split_and!; [| |apply apply_frame].
- intros Hto. rewrite apply_pawn_eq.
  destruct (existsb _ _) eqn:Hex; [by apply existsb_sameCell in Hex|].
  simpl. split; [done|apply snapshot_recorded].
- intros Hto%existsb_sameCell. rewrite apply_pawn_eq, Hto. simpl.
  destruct rec, (toMove s), (pawns s); done.
Qed.

Lemma elem_of_wallCandidates (n : Z) (w : Wall) :
w ∈ wallCandidates n ↔ 0 ≤ wall_r w < n - 1 ∧ 0 ≤ wall_c w < n - 1.
Proof.
unfold wallCandidates. rewrite list_elem_of_bind. split.
- intros (r & (c & (o & ->%list_elem_of_singleton & _)%list_elem_of_bind
            & Hc%elem_of_seqZ)%list_elem_of_bind & Hr%elem_of_seqZ).
  simpl. lia.
- intros [Hr Hc]. destruct w as [r c o]. simpl in *.
  exists r. split; [|apply elem_of_seqZ; lia].
  apply list_elem_of_bind. exists c. split; [|apply elem_of_seqZ; lia].
  destruct o; set_solver.
Qed.

Lemma wallLegal_in_range (b : Board.t) (w : Wall) :
Board.wallLegal b w = true →
0 ≤ wall_r w < Board.N b - 1 ∧ 0 ≤ wall_c w < Board.N b - 1.
Proof.
unfold Board.wallLegal. destruct (negb _) eqn:Hrange; [done|]. intros _.
apply negb_false_iff in Hrange.
rewrite !andb_true_iff, !Z.leb_le, !Z.ltb_lt in Hrange. lia.
Qed.

(** X14. In a state whose board has the size of the game, [apply(mv)]
    returns exactly for the moves of [legalMoves()], with or without the
    history record. *)
Theorem apply_returns_iff_legal (s : t) (mv : Move) (rec : bool) :
Board.N (board s) = N s →
∃ mvs, (legalMoves s).1 = Ret mvs
       ∧ ((apply mv rec s).1 = Ret tt ↔ mv ∈ mvs).
Proof.
intros HN. destruct (legalMoves_run s) as (s' & Hrun & _).
exists (legalMoveList s). rewrite Hrun. split; [done|].
unfold legalMoveList. rewrite elem_of_app, !list_elem_of_fmap.
destruct mv as [to|w].
- rewrite apply_pawn_eq. split.
  + destruct (existsb _ _) eqn:Hex; [|done]. intros _.
    left. exists to. split; [done|]. by apply existsb_sameCell.
  + intros [(q & [= <-] & Hq)|(w & ? & _)]; [|done].
    apply existsb_sameCell in Hq. by rewrite Hq.
- rewrite apply_wall_eq. cbv zeta. unfold legalWalls.
  rewrite bothConnected_recorded.
  rewrite (bothConnected_geometry s _ (withWall w None (board s)))
    by apply withWall_geometry.
  split.
  + case_bool_decide; [done|].
    destruct (Board.wallLegal (board s) w) eqn:Hl; [|done]. simpl.
    destruct (bothConnected _) eqn:Hc; [|done]. intros _.
    right. exists w. split; [done|].
    apply list_elem_of_filter. split; [unfold wallOk; by rewrite Hl, Hc|].
    apply elem_of_wallCandidates. rewrite <- HN. by apply wallLegal_in_range.
  + intros [(q & ? & _)|(w' & [= <-] & Hw)]; [done|].
    case_bool_decide; [by apply elem_of_nil in Hw|].
    apply list_elem_of_filter in Hw as [Hok _]. unfold wallOk in Hok.
    apply andb_true_iff in Hok as [-> ->]. done.
Qed.

Lemma apply_returns_iff_legal_witness :
∃ mvs, (legalMoves Samples.shutIn).1 = Ret mvs
       ∧ ((apply (WALL Samples.shutInWall) true Samples.shutIn).1 = Ret tt
          ↔ WALL Samples.shutInWall ∈ mvs).
Proof.
apply (apply_returns_iff_legal Samples.shutIn (WALL Samples.shutInWall) true).
reflexivity.
Defined.

(** X15. [legalWallMoves()] and [legalMoves()] never throw, and the probes
    leave no trace: size, wall sets, pawns, walls-left, side to move and
    history are as before ([sameButOwners]), and so are the owner maps when
    their entries name placed walls. [legalMoves()] is the pawn moves
    followed by the wall moves. No wall is offered when the mover has none
    left; every wall offered has its anchor in [0..N-2] x [0..N-2], passes
    [wallLegal] and leaves both players a path once placed. *)
Theorem legalMoves_is_a_query (s : t) :
∃ wm s1 s2,
  legalWallMoves s = (Ret wm, s1)
  ∧ legalMoves s = (Ret ((PAWN <$> legalPawnMoves s) ++ (WALL <$> wm)), s2)
  ∧ sameButOwners s s1 ∧ sameButOwners s s2
  ∧ (ownersWf (board s) → s1 = s ∧ s2 = s)
  ∧ (at2 (wallsLeft s) (toMove s) ≤ 0 → wm = [])
  ∧ ∀ w, w ∈ wm →
      (0 ≤ wall_r w < N s - 1 ∧ 0 ≤ wall_c w < N s - 1)
      ∧ Board.wallLegal (board s) w = true
      ∧ bothConnected (setBoard (Board.placeWall w None (board s)).2 s) = true.
Proof.
destruct (legalWallMoves_run s) as (s1 & Hwm & Hs1 & Heq1 & _).
destruct (legalMoves_run s) as (s2 & Hmv & Hs2 & Heq2 & _).
exists (legalWalls s), s1, s2. split_and!; try done.
- intros Hwf. split; [by apply Heq1|by apply Heq2].
- intros Hwl. unfold legalWalls. by rewrite bool_decide_eq_true_2.
- intros w. unfold legalWalls. case_bool_decide; [by intros ?%elem_of_nil|].
  intros [Hok Hc%elem_of_wallCandidates]%list_elem_of_filter.
  unfold wallOk in Hok. apply andb_true_iff in Hok as [Hl Hconn]. done.
Qed.

(** X16. [restore(sn)] always returns; it sets the fields a snapshot holds
    to those of [sn], so [snapshot()] afterwards is [sn], and leaves the
    history and both sizes alone. Hence [restore(s.snapshot())], called on a
    state with the sizes and the history of [s], gives [s]. *)
Theorem snapshot_restore_round_trip (s s2 : t) (sn : Snapshot) :
(restore sn s).1 = Ret tt
∧ snapshot (restore sn s).2 = sn
∧ history (restore sn s).2 = history s
∧ N (restore sn s).2 = N s
∧ Board.N (board (restore sn s).2) = Board.N (board s)
∧ (N s2 = N s → Board.N (board s2) = Board.N (board s) →
   history s2 = history s → restore (snapshot s) s2 = (Ret tt, s)).
Proof.
split_and!; try done; [by destruct sn|]. apply restore_frame.
Qed.

Lemma undo_frame (s : t) :
(undo s).1 = Ret tt
∧ N (undo s).2 = N s
∧ Board.N (board (undo s).2) = Board.N (board s).
Proof.
destruct (history s) as [|sn0 h0] eqn:Hh using rev_ind.
- unfold undo. unfold_monad. by rewrite Hh.
- by rewrite (undo_last s h0 sn0 Hh).
Qed.

(** X17. [undo()] never throws. With an empty history it changes nothing;
    otherwise it takes the last snapshot off the history and restores it,
    leaving the sizes alone. *)
Theorem undo_pops_last_snapshot (s : t) :
(undo s).1 = Ret tt
∧ N (undo s).2 = N s
∧ Board.N (board (undo s).2) = Board.N (board s)
∧ (history s = [] → (undo s).2 = s)
∧ (∀ h sn, history s = h ++ [sn] →
           snapshot (undo s).2 = sn ∧ history (undo s).2 = h).
Proof.
destruct (undo_frame s) as (Hret & HN & HbN). split_and!; try done.
- intros Hh. unfold undo. unfold_monad. by rewrite Hh.
- intros h sn Hh. rewrite (undo_last s h sn Hh). by destruct sn.
Qed.

(** [recordedPlay s0 n s]: [n] calls of [apply] with [recordHistory = true],
    returning or throwing, lead from [s0] to [s]. *)
Inductive recordedPlay (s0 : t) : nat → t → Prop :=
| play_start : recordedPlay s0 0 s0
| play_apply n s mv :
    recordedPlay s0 n s → recordedPlay s0 (S n) (apply mv true s).2.

(** X18. After [n] calls of [apply] with [recordHistory = true], whether
    they returned or threw, the history is [n] snapshots longer and [n]
    calls of [undo()] give back the state the play started from. *)
Theorem undo_all_restores (s0 s : t) (n : nat) :
recordedPlay s0 n s →
length (history s) = (length (history s0) + n)%nat
∧ Nat.iter n (λ x, (undo x).2) s = s0.
Proof.
induction 1 as [|n s mv _ [IHlen IHundo]]; [by rewrite Nat.add_0_r|].
split.
- destruct (apply_frame s mv true) as (-> & _).
  rewrite length_app. simpl. lia.
- rewrite Nat.iter_succ_r, undo_apply. done.
Qed.

Lemma undo_all_restores_witness :
length (history (apply (WALL Samples.shutInWall) true
                   (apply (PAWN (mkCell 0 2)) true Samples.shutIn).2).2)
= (length (history Samples.shutIn) + 2)%nat
∧ Nat.iter 2 (λ x, (undo x).2)
    (apply (WALL Samples.shutInWall) true
       (apply (PAWN (mkCell 0 2)) true Samples.shutIn).2).2
  = Samples.shutIn.
Proof.
apply (undo_all_restores Samples.shutIn).
apply play_apply, play_apply, play_start.
Defined.
End apply_more.

(** ** Invariants of the engine *)

Lemma wallLegal_true_iff (b : Board.t) (w : Wall) :
Board.wallLegal b w = true ↔
  (0 ≤ wall_r w < Board.N b - 1 ∧ 0 ≤ wall_c w < Board.N b - 1)
  ∧ ((wall_r w, wall_c w) ∉ Board.hWalls b)
  ∧ ((wall_r w, wall_c w) ∉ Board.vWalls b)
  ∧ ∀ k, k ∈ halfOverlapAnchors w → k ∉ wallsOf b (wall_o w).
Proof.
unfold Board.wallLegal, Board.hHalfOverlap, Board.vHalfOverlap,
  halfOverlapAnchors.
destruct w as [r c o]; simpl.
destruct (negb _) eqn:Hrange.
- apply negb_true_iff in Hrange.
  rewrite !andb_false_iff, !Z.leb_gt, !Z.ltb_ge in Hrange.
  split; [done|]. lia.
- apply negb_false_iff in Hrange.
  rewrite !andb_true_iff, !Z.leb_le, !Z.ltb_lt in Hrange.
  destruct o; simpl; unfold JSSet.has;
    repeat case_bool_decide; simpl; set_unfold;
    (split; [intros ?|intros ?]); try done; naive_solver lia.
Qed.

(** The walls of a board keep apart: no anchor twice in a wall set, every
    anchor in [0..N-2] x [0..N-2], no H and V wall at the same anchor, no
    two walls of the same orientation with anchors one apart along it. *)
Record wallsApart (b : Board.t) : Prop := {
  wa_h_nodup : NoDup (Board.hWalls b);
  wa_v_nodup : NoDup (Board.vWalls b);
  wa_range : ∀ k, k ∈ Board.hWalls b ∨ k ∈ Board.vWalls b →
                  0 ≤ k.1 < Board.N b - 1 ∧ 0 ≤ k.2 < Board.N b - 1;
  wa_cross : ∀ k, k ∈ Board.hWalls b → k ∉ Board.vWalls b;
  wa_h_half : ∀ r c, (r, c) ∈ Board.hWalls b → (r, c + 1) ∉ Board.hWalls b;
  wa_v_half : ∀ r c, (r, c) ∈ Board.vWalls b → (r + 1, c) ∉ Board.vWalls b
}.

Lemma wallsApart_new (n : Z) : wallsApart (Board.new n).
Proof.
split; simpl; try apply NoDup_nil_2; try (intros ? ? ?%elem_of_nil; done);
  try (intros ? ?%elem_of_nil; done).
intros k [?%elem_of_nil|?%elem_of_nil]; done.
Qed.

Lemma JSSet_add_absent {A} `{EqDecision A} (x : A) (s : list A) :
x ∉ s → JSSet.add x s = s ++ [x].
Proof.
intros Hx. unfold JSSet.add. by rewrite (proj2 (JSSet_has_false _ _) Hx).
Qed.

Lemma JSMap_set_absent {K V} `{EqDecision K} (k : K) (v : V) (m : list (K * V)) :
k ∉ m.*1 → JSMap.set k v m = m ++ [(k, v)].
Proof.
intros Hk. unfold JSMap.set, JSMap.has. by rewrite bool_decide_eq_false_2.
Qed.

Lemma wallsApart_withWall (b : Board.t) (w : Wall) (owner : option Player) :
Board.wallLegal b w = true → wallsApart b → wallsApart (withWall w owner b).
Proof.
intros Hl [Hh Hv Hrange Hcross Hhh Hvh].
pose proof Hl as ((Hr & Hc) & Hnh & Hnv & Hhalf)%wallLegal_true_iff.
unfold withWall, Board.placeWall. rewrite Hl. simpl.
destruct w as [r c o]. unfold halfOverlapAnchors in Hhalf. simpl in *.
destruct o; simpl in *.
- rewrite JSSet_add_absent by done. split; simpl.
  + apply NoDup_app. split_and!; [done| |apply NoDup_singleton].
    intros k Hk ->%list_elem_of_singleton. done.
  + done.
  + intros k [[Hk| ->%list_elem_of_singleton]%elem_of_app|Hk]; auto.
  + intros k [Hk| ->%list_elem_of_singleton]%elem_of_app; auto.
  + intros r0 c0. rewrite !elem_of_app, !list_elem_of_singleton.
    intros [Hk|Heq] [Hk'|Heq'].
    * by apply (Hhh r0 c0).
    * assert ((r0, c0) = (r, c - 1)) as Heq0
        by (injection Heq' as ? ?; f_equal; lia).
      rewrite Heq0 in Hk. apply (Hhalf (r, c - 1)); [set_solver|done].
    * injection Heq as -> ->. apply (Hhalf (r, c + 1)); [set_solver|done].
    * injection Heq as ? ?. injection Heq' as ? ?. lia.
  + done.
- rewrite JSSet_add_absent by done. split; simpl.
  + done.
  + apply NoDup_app. split_and!; [done| |apply NoDup_singleton].
    intros k Hk ->%list_elem_of_singleton. done.
  + intros k [Hk|[Hk| ->%list_elem_of_singleton]%elem_of_app]; auto.
  + intros k Hk [Hk'| ->%list_elem_of_singleton]%elem_of_app;
      [by apply (Hcross k)|done].
  + done.
  + intros r0 c0. rewrite !elem_of_app, !list_elem_of_singleton.
    intros [Hk|Heq] [Hk'|Heq'].
    * by apply (Hvh r0 c0).
    * assert ((r0, c0) = (r - 1, c)) as Heq0
        by (injection Heq' as ? ?; f_equal; lia).
      rewrite Heq0 in Hk. apply (Hhalf (r - 1, c)); [set_solver|done].
    * injection Heq as -> ->. apply (Hhalf (r + 1, c)); [set_solver|done].
    * injection Heq as ? ?. injection Heq' as ? ?. lia.
Qed.

Section engine.
Import GameState Search.

(** The walls a player owns on a board. *)
Definition ownedBy (p : Player) (b : Board.t) : nat :=
length (filter (λ kv : Key * Player, kv.2 = p)
          (Board.hOwners b ++ Board.vOwners b)).

(** What the engine keeps true of a position: the state is well formed and
    both players have a path ([goodState]), the walls keep apart, the owner
    maps list the walls of the wall sets, in their order, each player has
    placed the walls missing from their ten, and on a board of two rows or
    more the pawns stand on different cells. *)
Record engineInv (s : t) : Prop := {
  ei_good : goodState s;
  ei_apart : wallsApart (board s);
  ei_hkeys : (Board.hOwners (board s)).*1 = Board.hWalls (board s);
  ei_vkeys : (Board.vOwners (board s)).*1 = Board.vWalls (board s);
  ei_count : ∀ p, Z.of_nat (ownedBy p (board s)) = 10 - at2 (wallsLeft s) p;
  ei_pawns : 2 ≤ N s → at2 (pawns s) P0 ≠ at2 (pawns s) P1
}.

(** Two states with the same position: the same fields of a snapshot and
    the same sizes; the history and nothing else may differ. *)
Definition samePos (s s' : t) : Prop :=
snapshot s' = snapshot s ∧ N s' = N s
∧ Board.N (board s') = Board.N (board s).

Lemma samePos_eq (s s' : t) :
samePos s s' → s' = setHistory (history s') s.
Proof.
destruct s as [[] ? ? ? ? ?], s' as [[] ? ? ? ? ?].
unfold samePos, snapshot, setHistory. simpl. intros ([=] & ? & ?). by subst.
Qed.

Lemma engineInv_setHistory (s : t) (h : list Snapshot) :
engineInv s → engineInv (setHistory h s).
Proof.
intros [[[HN Hp0 Hp1 Hown Hw0 Hw1] Hconn] Hap Hhk Hvk Hcnt Hpw].
split; try done.
Qed.

Lemma engineInv_samePos (s s' : t) : samePos s s' → engineInv s → engineInv s'.
Proof.
intros ->%samePos_eq. apply engineInv_setHistory.
Qed.

(** The invariant of a state and of the positions its history holds. *)
Definition engineInvH (s : t) : Prop :=
engineInv s ∧ ∀ sn, sn ∈ history s → engineInv (restore sn s).2.

Lemma samePos_restore (sn : Snapshot) (s s' : t) :
N s' = N s → Board.N (board s') = Board.N (board s) →
samePos (restore sn s).2 (restore sn s').2.
Proof. intros HN HbN. unfold samePos. simpl. by rewrite HN, HbN. Qed.

Lemma samePos_restore_snapshot (s s' : t) :
N s' = N s → Board.N (board s') = Board.N (board s) →
samePos s (restore (snapshot s) s').2.
Proof.
intros HN HbN. unfold samePos. simpl. rewrite HN, HbN.
by destruct s as [[] ? ? ? ? ?].
Qed.

Lemma engineInv_new (n : Z) : 0 < n → engineInv (new n).
Proof.
intros Hn. split; simpl.
- by apply goodState_new.
- apply wallsApart_new.
- done.
- done.
- by intros [].
- intros Hn2 [=]. lia.
Qed.

Lemma ownedBy_withWall (b : Board.t) (w : Wall) (me p : Player) :
Board.wallLegal b w = true →
(Board.hOwners b).*1 = Board.hWalls b →
(Board.vOwners b).*1 = Board.vWalls b →
(Board.hOwners (withWall w (Some me) b)).*1 = Board.hWalls (withWall w (Some me) b)
∧ (Board.vOwners (withWall w (Some me) b)).*1 = Board.vWalls (withWall w (Some me) b)
∧ ownedBy p (withWall w (Some me) b)
  = (ownedBy p b + (if decide (p = me) then 1 else 0))%nat.
Proof.
intros Hl Hhk Hvk.
pose proof Hl as (_ & Hnh & Hnv & _)%wallLegal_true_iff.
unfold withWall, Board.placeWall, ownedBy. rewrite Hl. simpl.
destruct (wall_o w); simpl.
- assert ((wall_r w, wall_c w) ∉ (Board.hOwners b).*1) as Hno
    by (by rewrite Hhk).
  rewrite JSSet_add_absent by done. rewrite (JSMap_set_absent _ _ _ Hno).
  rewrite fmap_app, Hhk. split_and!; [done..|].
  rewrite !filter_app, !length_app. simpl.
  case_decide as Hp.
  + rewrite filter_cons_True by (by simpl). simpl. lia.
  + rewrite filter_cons_False by (simpl; congruence). simpl. lia.
- assert ((wall_r w, wall_c w) ∉ (Board.vOwners b).*1) as Hno
    by (by rewrite Hvk).
  rewrite JSSet_add_absent by done. rewrite (JSMap_set_absent _ _ _ Hno).
  rewrite fmap_app, Hvk. split_and!; [done..|].
  rewrite !filter_app, !length_app. simpl.
  case_decide as Hp.
  + rewrite filter_cons_True by (by simpl). simpl. lia.
  + rewrite filter_cons_False by (simpl; congruence). simpl. lia.
Qed.

Lemma engineInv_apply (s : t) (mv : Move) (rec : bool) :
engineInv s → (apply mv rec s).1 = Ret tt → engineInv (apply mv rec s).2.
Proof.
intros Hinv Hret.
pose proof (goodState_apply s mv rec (ei_good s Hinv) Hret) as Hgood.
destruct Hinv as [[Hwf Hconn] Hap Hhk Hvk Hcnt Hpw].
revert Hret Hgood. destruct mv as [to|w].
- rewrite apply_pawn_eq. destruct (existsb _ _) eqn:Hex; simpl; [|done].
  intros _ Hgood. apply existsb_sameCell in Hex.
  assert (board (recorded rec s) = board s) as Hb by (by destruct rec).
  assert (wallsLeft (recorded rec s) = wallsLeft s) as Hwl by (by destruct rec).
  assert (N (recorded rec s) = N s) as HNr by (by destruct rec).
  assert (pawns (recorded rec s) = pawns s) as Hpr by (by destruct rec).
  split; simpl; rewrite ?Hb, ?Hwl, ?HNr, ?Hpr; try done.
  intros Hn2.
  apply elem_of_legalPawnMoves in Hex as (nb & Hnb & Hto).
  destruct (pawnTargets_on_board s nb to) as [_ Hne]; [apply Hwf| |done..|].
  { apply inBounds_onBoard. by apply wf_pawn. }
  destruct (toMove s), (pawns s); simpl in *; congruence.
- rewrite apply_wall_eq. cbv zeta.
  case_bool_decide as Hwl; [done|].
  destruct (Board.wallLegal (board s) w) eqn:Hl; simpl; [|done].
  destruct (bothConnected (setBoard _ _)) eqn:Hc; simpl; [|done].
  intros _ Hgood.
  assert (board (recorded rec s) = board s) as Hb by (by destruct rec).
  assert (N (recorded rec s) = N s) as HNr by (by destruct rec).
  assert (pawns (recorded rec s) = pawns s) as Hpr by (by destruct rec).
  destruct (ownedBy_withWall (board s) w (toMove s) P0 Hl Hhk Hvk)
    as (Hhk' & Hvk' & Hc0).
  destruct (ownedBy_withWall (board s) w (toMove s) P1 Hl Hhk Hvk)
    as (_ & _ & Hc1).
  split; simpl; rewrite ?HNr, ?Hpr; try done.
  + by apply wallsApart_withWall.
  + intros p. pose proof (Hcnt P0). pose proof (Hcnt P1).
    destruct p; [rewrite Hc0|rewrite Hc1];
      destruct (wallsLeft s) as [w0 w1], (toMove s); simpl in *;
      repeat case_decide; try done; lia.
Qed.

Lemma engineInvH_apply (s : t) (mv : Move) (rec : bool) :
engineInvH s → engineInvH (apply mv rec s).2.
Proof.
intros [Hinv Hhist].
destruct (apply_frame s mv rec) as (Hh & HN & HbN).
split.
- destruct (apply mv rec s).1 as [[]|e] eqn:Hret.
  + by apply engineInv_apply.
  + apply (engineInv_samePos s); [|done]. split_and!; [|done..].
    apply (apply_throw_snapshot s mv rec e); [|done].
    apply Hinv.
- intros sn Hsn. rewrite Hh in Hsn.
  assert (sn ∈ history s ∨ sn = snapshot s) as [Hold| ->].
  { destruct rec; [|by left].
    apply elem_of_app in Hsn as [?| ->%list_elem_of_singleton]; auto. }
  + apply (engineInv_samePos (restore sn s).2); [|by apply Hhist].
    by apply samePos_restore.
  + apply (engineInv_samePos s); [|done]. by apply samePos_restore_snapshot.
Qed.

Lemma engineInvH_undo (s : t) : engineInvH s → engineInvH (undo s).2.
Proof.
intros [Hinv Hhist].
destruct (history s) as [|sn h] eqn:Hh using rev_ind.
- assert ((undo s).2 = s) as ->.
  { unfold undo. unfold_monad. by rewrite Hh. }
  split; [done|]. intros sn. rewrite Hh. by intros ?%elem_of_nil.
- clear IHh. rewrite (undo_last s h sn Hh). simpl.
  assert (engineInv (restore sn s).2) as Hsn.
  { apply Hhist. apply elem_of_app. right. by apply list_elem_of_singleton. }
  split.
  + revert Hsn. apply engineInv_samePos. by split_and!.
  + simpl. intros sn' Hsn'.
    apply (engineInv_samePos (restore sn' s).2); [by split_and!|].
    apply Hhist. apply elem_of_app. by left.
Qed.

(** The states the calls of the engine lead to from [s0]: [apply],
    returning or throwing, with or without the history record, [undo],
    [legalMoves] and [searchWithTime]. *)
Inductive engineReach (s0 : t) : t → Prop :=
| engine_start : engineReach s0 s0
| engine_apply s mv rec :
    engineReach s0 s → engineReach s0 (apply mv rec s).2
| engine_undo s : engineReach s0 s → engineReach s0 (undo s).2
| engine_legalMoves s : engineReach s0 s → engineReach s0 (legalMoves s).2
| engine_search s distFn maxDepth timeLimitMs now :
    engineReach s0 s →
    engineReach s0 (searchWithTime distFn maxDepth timeLimitMs now s).2.

Lemma engineReach_inv (n : Z) (s : t) :
0 < n → engineReach (new n) s → engineInvH s.
Proof.
intros Hn Hr. induction Hr as [|s mv rec _ IH|s _ IH|s _ IH|s d m l c _ IH].
- split; [by apply engineInv_new|]. by intros sn ?%elem_of_nil.
- by apply engineInvH_apply.
- by apply engineInvH_undo.
- destruct (legalMoves_run s) as (s' & -> & _ & Heq & _). simpl.
  rewrite Heq; [done|]. apply IH.
- destruct (searchWithTime_run d m l c s) as (r & s' & -> & (_ & Heq & _) & _).
  simpl. rewrite Heq; [done|]. apply IH.
Qed.

Lemma engineReach_size (s0 s : t) : engineReach s0 s → N s = N s0.
Proof.
intros Hr. induction Hr as [|s mv rec _ IH|s _ IH|s _ IH|s d m l c _ IH].
- done.
- by destruct (apply_frame s mv rec) as (_ & -> & _).
- by destruct (undo_frame s) as (_ & -> & _).
- destruct (legalMoves_run s) as (s' & -> & (_ & HN & _) & _).
  simpl. by rewrite HN.
- destruct (searchWithTime_run d m l c s)
    as (r & s' & -> & [(_ & HN & _) _] & _).
  simpl. by rewrite HN.
Qed.

(** X19. In every state the calls of the engine lead to from
    [new GameState(N)], [N > 0] - calls of [apply] that return or throw,
    with or without the history record, of [undo], [legalMoves] and
    [searchWithTime] - both players have a path to their goal row, the board
    has the size of the game and both pawns are on it; the same holds of
    every position the history holds, once restored. *)
Theorem engine_keeps_connectivity (n : Z) (s : t) :
0 < n → engineReach (new n) s →
(Board.pathExistsFor (board s) (at2 (pawns s) P0) [N s - 1] = true
 ∧ Board.pathExistsFor (board s) (at2 (pawns s) P1) [0] = true
 ∧ Board.N (board s) = N s ∧ N s = n
 ∧ ∀ p, inBounds s (at2 (pawns s) p) = true)
∧ ∀ sn, sn ∈ history s →
    bothConnected (restore sn s).2 = true
    ∧ ∀ p, inBounds s (at2 (s_pawns sn) p) = true.
Proof.
intros Hn Hr. destruct (engineReach_inv n s Hn Hr) as [Hinv Hhist].
pose proof (engineReach_size _ _ Hr) as HNn. simpl in HNn.
split.
- destruct (ei_good s Hinv) as [Hwf Hconn].
  unfold bothConnected in Hconn. apply andb_true_iff in Hconn as [? ?].
  split_and!; try done; [apply Hwf|].
  intros p. apply inBounds_onBoard. by apply wf_pawn.
- intros sn Hsn. destruct (ei_good _ (Hhist sn Hsn)) as [Hwf Hconn].
  split; [done|]. intros p.
  apply (inBounds_onBoard (restore sn s).2). by apply (wf_pawn _ p) in Hwf.
Qed.
Lemma engine_keeps_connectivity_witness :
(Board.pathExistsFor (board Samples.afterWall) (at2 (pawns Samples.afterWall) P0)
   [N Samples.afterWall - 1] = true
 ∧ Board.pathExistsFor (board Samples.afterWall) (at2 (pawns Samples.afterWall) P1) [0] = true
 ∧ Board.N (board Samples.afterWall) = N Samples.afterWall ∧ N Samples.afterWall = 3
 ∧ ∀ p, inBounds Samples.afterWall (at2 (pawns Samples.afterWall) p) = true)
∧ ∀ sn, sn ∈ history Samples.afterWall →
    bothConnected (restore sn Samples.afterWall).2 = true
    ∧ ∀ p, inBounds Samples.afterWall (at2 (s_pawns sn) p) = true.
Proof.
apply (engine_keeps_connectivity 3 Samples.afterWall); [lia|].
apply engine_undo, engine_apply, engine_apply, engine_start.
Defined.

(** X20. In every state the calls of the engine lead to from
    [new GameState(N)], [N > 0], the walls keep apart: no anchor is twice
    in a wall set, every anchor lies in [0..N-2] x [0..N-2], no H wall and
    V wall share an anchor, and no two walls of the same orientation have
    anchors one apart along it (which would make them share a segment). *)
Theorem engine_keeps_walls_apart (n : Z) (s : t) :
0 < n → engineReach (new n) s →
NoDup (Board.hWalls (board s))
∧ NoDup (Board.vWalls (board s))
∧ (∀ k, k ∈ Board.hWalls (board s) ∨ k ∈ Board.vWalls (board s) →
        0 ≤ k.1 < n - 1 ∧ 0 ≤ k.2 < n - 1)
∧ (∀ k, k ∈ Board.hWalls (board s) → k ∉ Board.vWalls (board s))
∧ (∀ r c, (r, c) ∈ Board.hWalls (board s) → (r, c + 1) ∉ Board.hWalls (board s))
∧ (∀ r c, (r, c) ∈ Board.vWalls (board s) → (r + 1, c) ∉ Board.vWalls (board s)).
Proof.
intros Hn Hr. destruct (engineReach_inv n s Hn Hr) as [Hinv _].
pose proof (engineReach_size _ _ Hr) as HNn. simpl in HNn.
destruct (ei_good s Hinv) as [Hwf _]. pose proof (wf_size s Hwf) as HN.
destruct (ei_apart s Hinv) as [? ? Hrange ? ? ?].
split_and!; try done. intros k Hk. rewrite <- HNn, <- HN. by apply Hrange.
Qed.

Lemma engine_keeps_walls_apart_witness :
NoDup (Board.hWalls (board Samples.afterWall))
∧ NoDup (Board.vWalls (board Samples.afterWall))
∧ (∀ k, k ∈ Board.hWalls (board Samples.afterWall) ∨ k ∈ Board.vWalls (board Samples.afterWall) →
        0 ≤ k.1 < 3 - 1 ∧ 0 ≤ k.2 < 3 - 1)
∧ (∀ k, k ∈ Board.hWalls (board Samples.afterWall) → k ∉ Board.vWalls (board Samples.afterWall))
∧ (∀ r c, (r, c) ∈ Board.hWalls (board Samples.afterWall) →
          (r, c + 1) ∉ Board.hWalls (board Samples.afterWall))
∧ (∀ r c, (r, c) ∈ Board.vWalls (board Samples.afterWall) →
          (r + 1, c) ∉ Board.vWalls (board Samples.afterWall)).
Proof.
apply (engine_keeps_walls_apart 3 Samples.afterWall); [lia|].
apply engine_undo, engine_apply, engine_apply, engine_start.
Defined.

Lemma length_filter_players (l : list (Key * Player)) :
(length (filter (λ kv : Key * Player, kv.2 = P0) l)
 + length (filter (λ kv : Key * Player, kv.2 = P1) l))%nat = length l.
Proof.
induction l as [|[k []] l IH]; [done| |].
- rewrite filter_cons_True, filter_cons_False by done. simpl. lia.
- rewrite filter_cons_False, filter_cons_True by done. simpl. lia.
Qed.

(** X21. In every state the calls of the engine lead to from
    [new GameState(N)], [N > 0], the walls are accounted for: the owner maps
    list the anchors of the wall sets, in the same order; the walls a player
    owns are the walls missing from that player's ten; no counter leaves
    [0..10]; the walls on the board and the walls left add up to twenty. *)
Theorem engine_wall_accounting (n : Z) (s : t) :
0 < n → engineReach (new n) s →
(Board.hOwners (board s)).*1 = Board.hWalls (board s)
∧ (Board.vOwners (board s)).*1 = Board.vWalls (board s)
∧ (∀ p, Z.of_nat (ownedBy p (board s)) = 10 - at2 (wallsLeft s) p
        ∧ 0 ≤ at2 (wallsLeft s) p ≤ 10)
∧ Z.of_nat (length (Board.hWalls (board s)) + length (Board.vWalls (board s)))
  + at2 (wallsLeft s) P0 + at2 (wallsLeft s) P1 = 20.
Proof.
intros Hn Hr. destruct (engineReach_inv n s Hn Hr) as [Hinv _].
destruct Hinv as [[[_ _ _ _ Hw0 Hw1] _] _ Hhk Hvk Hcnt _].
split_and!; try done.
- intros p. split; [done|]. specialize (Hcnt p). destruct p; lia.
- pose proof (Hcnt P0). pose proof (Hcnt P1).
  rewrite <- Hhk, <- Hvk, !length_fmap, <- length_app.
  rewrite <- (length_filter_players (_ ++ _)). unfold ownedBy in *. lia.
Qed.

Lemma engine_wall_accounting_witness :
(Board.hOwners (board Samples.afterWall)).*1 = Board.hWalls (board Samples.afterWall)
∧ (Board.vOwners (board Samples.afterWall)).*1 = Board.vWalls (board Samples.afterWall)
∧ (∀ p, Z.of_nat (ownedBy p (board Samples.afterWall)) = 10 - at2 (wallsLeft Samples.afterWall) p
        ∧ 0 ≤ at2 (wallsLeft Samples.afterWall) p ≤ 10)
∧ Z.of_nat (length (Board.hWalls (board Samples.afterWall))
            + length (Board.vWalls (board Samples.afterWall)))
  + at2 (wallsLeft Samples.afterWall) P0 + at2 (wallsLeft Samples.afterWall) P1 = 20.
Proof.
apply (engine_wall_accounting 3 Samples.afterWall); [lia|].
apply engine_undo, engine_apply, engine_apply, engine_start.
Defined.

(** X22. On a board of two rows or more the pawns never share a cell: in
    every state the calls of the engine lead to from [new GameState(N)],
    [N ≥ 2], the two pawns are on different cells of the board. *)
Theorem engine_keeps_pawns_apart (n : Z) (s : t) :
2 ≤ n → engineReach (new n) s →
at2 (pawns s) P0 ≠ at2 (pawns s) P1
∧ ∀ p, 0 ≤ cell_r (at2 (pawns s) p) < n ∧ 0 ≤ cell_c (at2 (pawns s) p) < n.
Proof.
intros Hn Hr.
destruct (engineReach_inv n s ltac:(lia) Hr) as [Hinv _].
pose proof (engineReach_size _ _ Hr) as HNn. simpl in HNn.
split.
- apply (ei_pawns s Hinv). lia.
- intros p. destruct (ei_good s Hinv) as [Hwf _].
  rewrite <- HNn. by apply (wf_pawn s p).
Qed.

Lemma engine_keeps_pawns_apart_witness :
at2 (pawns Samples.afterWall) P0 ≠ at2 (pawns Samples.afterWall) P1
∧ ∀ p, 0 ≤ cell_r (at2 (pawns Samples.afterWall) p) < 3
       ∧ 0 ≤ cell_c (at2 (pawns Samples.afterWall) p) < 3.
Proof.
apply (engine_keeps_pawns_apart 3 Samples.afterWall); [lia|].
apply engine_undo, engine_apply, engine_apply, engine_start.
Defined.
End engine.

(** ** The next step of a shortest path *)

Section bfs_next.
Variable b : Board.t.
Variable start : Cell.
Variable goalRows : list Z.

(** [backPath seen parent cur n]: [n] entries of [parent] lead from [cur]
    back to [start], each from a cell to a cell it is a neighbour of, through
    cells of [seen]; [start] has no entry. *)
Inductive backPath (seen : gset Key) (parent : gmap Key Cell) : Cell → nat → Prop :=
| back_start :
    keyCell start ∈ seen → parent !! keyCell start = None →
    backPath seen parent start 0
| back_step cur p n :
    keyCell cur ∈ seen → parent !! keyCell cur = Some p →
    cur ∈ Board.neighbors b p → backPath seen parent p n →
    backPath seen parent cur (S n).

Lemma backPath_start seen parent cur n :
backPath seen parent cur n → parent !! keyCell start = None.
Proof. induction 1; done. Qed.

Lemma backPath_insert seen parent cur n (k : Key) (u : Cell) :
k ∉ seen → backPath seen parent cur n →
backPath ({[k]} ∪ seen) (<[k:=u]> parent) cur n.
Proof.
intros Hk. induction 1 as [Hs Hp|cur p n Hs Hp Hnb _ IH].
- apply back_start; [set_solver|]. rewrite lookup_insert_ne; [done|set_solver].
- eapply back_step; [set_solver| |done..].
  rewrite lookup_insert_ne; [done|set_solver].
Qed.

Lemma reconstructDist_backPath seen parent fuel d0 cur n d :
backPath seen parent cur n →
Board.reconstructDist_loop fuel parent d0 cur = Some d → d = d0 + Z.of_nat n.
Proof.
intros Hbp. revert fuel d0.
induction Hbp as [Hs Hp|cur p n Hs Hp Hnb _ IH]; intros [|fuel] d0; simpl;
  try done.
- rewrite Hp. intros [= <-]. lia.
- rewrite Hp. intros Hd%IH. lia.
Qed.

(** The walk back stops on the first cell after [start]. *)
Lemma firstStep_backPath seen parent fuel cur n c1 :
backPath seen parent cur (S n) →
Board.firstStep_loop fuel parent start cur (parent !! keyCell cur) = Some c1 →
c1 ∈ Board.neighbors b start ∧ reach b c1 cur n.
Proof.
revert fuel cur. induction n as [|n IH]; intros [|fuel] cur Hbp; simpl; try done.
- inversion Hbp as [|cur' p n' Hs Hp Hnb Hbp']; subst.
  inversion Hbp'; subst. rewrite Hp.
  rewrite (proj2 (sameCell_true start start) eq_refl). simpl.
  intros [= <-]. split; [done|constructor].
- inversion Hbp as [|cur' p n' Hs Hp Hnb Hbp']; subst. rewrite Hp.
  destruct (sameCell p start) eqn:Hsame.
  + apply sameCell_true in Hsame as ->.
    inversion Hbp' as [|? ? ? ? Hp0]; subst.
    by rewrite (backPath_start _ _ _ _ Hbp) in Hp0.
  + simpl. intros Hc1. destruct (IH fuel p Hbp' Hc1) as [Hc1nb Hreach].
    split; [done|]. by econstructor.
Qed.

Lemma firstStep_backPath_0 seen parent fuel c1 :
backPath seen parent start 0 →
Board.firstStep_loop fuel parent start start (parent !! keyCell start) = Some c1 →
c1 = start.
Proof.
intros Hbp. rewrite (backPath_start _ _ _ _ Hbp).
destruct fuel; simpl; [done|]. by intros [= <-].
Qed.

(** The cells of the queue have their way back in [parent], as long as
    their distance. *)
Definition queueBacked (seen : gset Key) (parent : gmap Key Cell)
  (dq : list (Cell * Z)) : Prop :=
∀ x, x ∈ dq → ∃ n, x.2 = Z.of_nat n ∧ backPath seen parent x.1 n.

(** The [for] loop of [bfsNextStepToGoal] next to that of [bfsDistToGoal]. *)
Lemma bfsNextVisit_fold_sim (u : Cell) (nu : nat) (nbrs : list Cell)
  (seen : gset Key) (parent : gmap Key Cell) (dq : list (Cell * Z)) :
(∀ w, w ∈ nbrs → w ∈ Board.neighbors b u) →
backPath seen parent u nu →
queueBacked seen parent dq →
let st := fold_left (Board.bfsVisit (Z.of_nat nu)) nbrs (seen, dq) in
let st' := fold_left (Board.bfsNextVisit u) nbrs (seen, parent, dq.*1) in
st'.1.1 = st.1 ∧ st'.2 = st.2.*1 ∧ queueBacked st.1 st'.1.2 st.2.
Proof.
revert seen parent dq.
induction nbrs as [|w nbrs IH]; intros seen parent dq Hnb Hu Hq; [done|].
cbv zeta. cbn [fold_left].
destruct (decide (keyCell w ∈ seen)) as [Hw|Hw].
- assert (Board.bfsVisit (Z.of_nat nu) (seen, dq) w = (seen, dq)) as ->.
  { unfold Board.bfsVisit. simpl. by rewrite bool_decide_eq_true_2. }
  assert (Board.bfsNextVisit u (seen, parent, dq.*1) w = (seen, parent, dq.*1))
    as ->.
  { unfold Board.bfsNextVisit. simpl. by rewrite bool_decide_eq_true_2. }
  apply (IH seen parent dq); [|done..]. intros w' Hw'. apply Hnb. by right.
- assert (Board.bfsVisit (Z.of_nat nu) (seen, dq) w
          = ({[keyCell w]} ∪ seen, dq ++ [(w, Z.of_nat nu + 1)])) as ->.
  { unfold Board.bfsVisit. simpl. by rewrite bool_decide_eq_false_2. }
  assert (Board.bfsNextVisit u (seen, parent, dq.*1) w
          = ({[keyCell w]} ∪ seen, <[keyCell w:=u]> parent,
             (dq ++ [(w, Z.of_nat nu + 1)]).*1)) as ->.
  { unfold Board.bfsNextVisit. simpl. rewrite bool_decide_eq_false_2 by done.
    by rewrite fmap_app. }
  apply (IH ({[keyCell w]} ∪ seen) (<[keyCell w:=u]> parent)
           (dq ++ [(w, Z.of_nat nu + 1)])).
  + intros w' Hw'. apply Hnb. by right.
  + by apply backPath_insert.
  + intros x [Hx| ->%list_elem_of_singleton]%elem_of_app.
    * destruct (Hq x Hx) as (n & Hn & Hbp). exists n.
      split; [done|]. by apply backPath_insert.
    * exists (S nu). split; [simpl; lia|]. simpl.
      eapply back_step; [set_solver|by rewrite lookup_insert_eq| |].
      -- apply Hnb. by left.
      -- by apply backPath_insert.
Qed.

(** What [bfsNextStepToGoal] is to return. *)
Definition nextStepSpec (r : Board.PathStep) : Prop :=
goalDist b start goalRows (Board.dist r)
∧ match Board.dist r with
  | None => Board.next r = None
  | Some d =>
      ∃ nx, Board.next r = Some nx
            ∧ (d = 0 → nx = start)
            ∧ (0 < d →
               nx ∈ Board.neighbors b start
               ∧ ∃ v, isGoal goalRows v ∧ reach b nx v (Z.to_nat (d - 1)))
  end.

Lemma bfsNext_loop_correct (fuel bound : nat) n0 seen parent q1 q2 r :
bfsInv b start goalRows n0 seen q1 q2 →
queueBacked seen parent (q1 ++ q2) →
Board.bfsNext_loop fuel bound b start goalRows seen parent (q1 ++ q2).*1 = Some r →
nextStepSpec r.
Proof.
revert n0 seen parent q1 q2.
induction fuel as [|fuel IH]; intros n0 seen parent q1 q2; [done|].
assert (∀ n0 seen parent u d q1 q2,
  bfsInv b start goalRows n0 seen ((u, d) :: q1) q2 →
  queueBacked seen parent (((u, d) :: q1) ++ q2) →
  Board.bfsNext_loop (S fuel) bound b start goalRows seen parent
    (((u, d) :: q1) ++ q2).*1 = Some r →
  nextStepSpec r) as Hcons.
{ clear n0 seen parent q1 q2. intros n0 seen parent u d q1 q2 Hinv Hq.
  destruct (Hq (u, d)) as (nu & Hnu & Hbp); [by left|]. simpl in Hnu, Hbp.
  subst d. cbn [fmap list_fmap app fst Board.bfsNext_loop].
  destruct (JSSet.has (cell_r u) goalRows) eqn:Hg.
  - apply JSSet_has_isGoal in Hg.
    destruct (Board.firstStep_loop _ _ _ _ _) as [cur|] eqn:Hcur; [|done].
    destruct (Board.reconstructDist_loop _ _ _ _) as [d|] eqn:Hd; [|done].
    cbn. intros [= <-].
    apply (reconstructDist_backPath _ _ _ _ _ _ _ Hbp) in Hd. subst d.
    replace (0 + Z.of_nat nu) with (Z.of_nat nu) by lia.
    split; [by eapply bfsInv_goal|]. simpl.
    assert ((if sameCell cur start then start else cur) = cur) as ->.
    { destruct (sameCell cur start) eqn:Hsame; [|done].
      by apply sameCell_true in Hsame. }
    exists cur. split; [done|]. destruct nu as [|nu].
    + inversion Hbp; subst. split; [|lia]. intros _.
      by apply (firstStep_backPath_0 _ _ _ _ Hbp Hcur).
    + split; [lia|]. intros _.
      destruct (firstStep_backPath _ _ _ _ _ _ Hbp Hcur) as [Hnb Hreach].
      split; [done|]. exists u. split; [done|].
      by replace (Z.to_nat (Z.of_nat (S nu) - 1)) with nu by lia.
  - assert (¬ isGoal goalRows u) as Hng.
    { rewrite <- JSSet_has_isGoal. by rewrite Hg. }
    destruct (bfsInv_step _ _ _ _ _ _ _ _ _ Hinv Hng) as (new & Hfold & Hinv').
    destruct (bfsNextVisit_fold_sim u nu (Board.neighbors b u) seen parent
                (q1 ++ q2)) as (Hseen & Hqueue & Hbacked); [done..| |].
    { intros x Hx. apply Hq. by right. }
    rewrite Hfold in Hseen, Hqueue, Hbacked. cbn [fst snd] in *.
    cbv zeta. rewrite Hseen, Hqueue.
    apply (IH n0 _ _ q1 (q2 ++ new) Hinv' Hbacked). }
intros Hinv Hq. destruct q1 as [|[u d] q1].
- destruct q2 as [|[u d] q2].
  + simpl. intros [= <-]. split; [by eapply bfsInv_empty|done].
  + apply bfsInv_level_up in Hinv. rewrite app_nil_l.
    rewrite <- (app_nil_r ((u, d) :: q2)). apply (Hcons (S n0)); [done|].
    by rewrite app_nil_r.
- by apply (Hcons n0).
Qed.
End bfs_next.

Lemma bfsNextStepToGoal_spec (b : Board.t) (start : Cell) (goalRows : list Z) :
nextStepSpec b start goalRows (Board.bfsNextStepToGoal b start goalRows).
Proof.
unfold Board.bfsNextStepToGoal.
destruct (bfsNextStepToGoal_fuel_enough b start goalRows) as [r Hr].
rewrite Hr. simpl. unfold Board.bfsNextStepToGoal_fuel in Hr.
apply (bfsNext_loop_correct b start goalRows (S (Board.cellBound b start))
         (S (Board.cellBound b start)) 0%nat {[keyCell start]} ∅
         [(start, 0)] [] r).
- apply bfsInv_init.
- intros x ->%list_elem_of_singleton. exists 0%nat. split; [done|].
  apply back_start; [set_solver|done].
- done.
Qed.

(** What the next-step searches return, in terms of [bfsDistToGoal]. *)
Definition firstStepOfShortest (b : Board.t) (start : Cell) (goalRows : list Z)
  (r : Board.PathStep) : Prop :=
Board.dist r = Board.bfsDistToGoal b start goalRows
∧ match Board.dist r with
  | None => Board.next r = None
  | Some d =>
      ∃ nx, Board.next r = Some nx
            ∧ (d = 0 → nx = start ∧ cell_r start ∈ goalRows)
            ∧ (d ≠ 0 →
               nx ∈ Board.neighbors b start
               ∧ Board.bfsDistToGoal b nx goalRows = Some (d - 1))
  end.

Lemma nextStepSpec_firstStep (b : Board.t) (start : Cell) (goalRows : list Z)
  (r : Board.PathStep) :
nextStepSpec b start goalRows r → firstStepOfShortest b start goalRows r.
Proof.
intros [Hdist Hnext]. split.
{ eapply goalDist_unique; [done|apply bfsDistToGoal_spec]. }
destruct (Board.dist r) as [d|]; [|done].
destruct Hnext as (nx & Hnx & H0 & Hpos). exists nx. split; [done|].
destruct Hdist as (v & n & -> & Hg & Hr & Hmin). split.
- intros Hd. split; [by apply H0|].
  assert (n = 0%nat) as -> by lia. by inversion Hr; subst.
- intros Hd. destruct Hpos as (Hnb & v' & Hg' & Hr'); [lia|].
  split; [done|].
  eapply goalDist_unique; [apply bfsDistToGoal_spec|].
  exists v', (Z.to_nat (Z.of_nat n - 1)). split_and!; [lia|done..|].
  intros v2 m Hg2 Hr2.
  pose proof (reach_trans b start nx v2 1 m (reach_edge b start nx Hnb) Hr2) as Hr3.
  specialize (Hmin v2 _ Hg2 Hr3). lia.
Qed.

(** X23. [bfsNextStepToGoal(start, goalRows)] returns the distance that
    [bfsDistToGoal] returns. When that is [null], [next] is [null]; when it
    is 0, [next] is [start], which is on a goal row; otherwise [next] is a
    neighbour of [start] from which [bfsDistToGoal] is one less: the first
    step of a shortest path. *)
Theorem bfsNextStepToGoal_first_step (b : Board.t) (start : Cell)
  (goalRows : list Z) :
let r := Board.bfsNextStepToGoal b start goalRows in
Board.dist r = Board.bfsDistToGoal b start goalRows
∧ match Board.dist r with
  | None => Board.next r = None
  | Some d =>
      ∃ nx, Board.next r = Some nx
            ∧ (d = 0 → nx = start ∧ cell_r start ∈ goalRows)
            ∧ (d ≠ 0 →
               nx ∈ Board.neighbors b start
               ∧ Board.bfsDistToGoal b nx goalRows = Some (d - 1))
  end.
Proof.
apply (nextStepSpec_firstStep b start goalRows), bfsNextStepToGoal_spec.
Qed.

(** ** The search *)

Section search_more.
Import GameState Search.

(** X24. The fast path of [searchWithTime]: when the mover has no walls
    left and the next step [shortestPathNext] returns is a cell of
    [legalPawnMoves()], [searchWithTime] returns the pawn move to that cell,
    whatever the depth, the time limit and the clock, and leaves the state
    untouched; and when the mover is not on the goal row the step is to a
    neighbour of the mover's cell from which [bfsDistToGoal] is one less. *)
Theorem searchWithTime_fast_path (distFn : DistFn) (maxDepth : Z)
  (timeLimitMs : PrimFloat.float) (now : nat → PrimFloat.float) (s : t)
  (nx : Cell) :
at2 (wallsLeft s) (toMove s) ≤ 0 →
Board.next (shortestPathNext s (toMove s)) = Some nx →
nx ∈ legalPawnMoves s →
searchWithTime distFn maxDepth timeLimitMs now s = (Ret (Some (PAWN nx)), s)
∧ ∀ d, Board.bfsDistToGoal (board s) (at2 (pawns s) (toMove s))
         (goalRows s (toMove s)) = Some d →
       d ≠ 0 →
       nx ∈ Board.neighbors (board s) (at2 (pawns s) (toMove s))
       ∧ Board.bfsDistToGoal (board s) nx (goalRows s (toMove s)) = Some (d - 1).
Proof.
intros Hwl Hnx Hlegal. split.
- unfold searchWithTime. unfold_monad. cbv beta iota zeta.
  rewrite bool_decide_eq_true_2 by done. rewrite Hnx.
  by rewrite (proj2 (existsb_sameCell nx _) Hlegal).
- intros d Hd Hd0. unfold shortestPathNext in Hnx.
  destruct (nextStepSpec_firstStep _ _ _ _
              (bfsNextStepToGoal_spec (board s) (at2 (pawns s) (toMove s))
                 (goalRows s (toMove s)))) as [Hdist Hnext].
  rewrite Hdist, Hd in Hnext.
  destruct Hnext as (nx' & Hnx' & _ & Hpos). rewrite Hnx in Hnx'.
  injection Hnx' as <-. by apply Hpos.
Qed.

Lemma searchWithTime_fast_path_witness :
searchWithTime Board.astarDistToGoal 5 1000 (λ _, 0%float) Samples.endgame
= (Ret (Some (PAWN (mkCell 5 4))), Samples.endgame)
∧ ∀ d, Board.bfsDistToGoal (board Samples.endgame) (at2 (pawns Samples.endgame) (toMove Samples.endgame))
         (goalRows Samples.endgame (toMove Samples.endgame)) = Some d →
       d ≠ 0 →
       mkCell 5 4 ∈ Board.neighbors (board Samples.endgame)
                      (at2 (pawns Samples.endgame) (toMove Samples.endgame))
       ∧ Board.bfsDistToGoal (board Samples.endgame) (mkCell 5 4)
           (goalRows Samples.endgame (toMove Samples.endgame)) = Some (d - 1).
Proof.
apply (searchWithTime_fast_path Board.astarDistToGoal 5 1000 (λ _, 0%float)
         Samples.endgame (mkCell 5 4)).
- simpl. lia.
- vm_compute. reflexivity.
- apply (bool_decide_unpack _). by vm_compute.
Defined.

(** X25. [orderedMoves(state)] never throws and returns the moves of
    [legalMoves()], each once, in some order; size, wall sets, pawns,
    walls-left, side to move and history are afterwards as before, and so
    are the owner maps when their entries name placed walls. *)
Theorem orderedMoves_permutes_legalMoves (distFn : DistFn) (s : t) :
∃ mvs oms s',
  (legalMoves s).1 = Ret mvs
  ∧ orderedMoves distFn s = (Ret oms, s')
  ∧ oms ≡ₚ mvs
  ∧ sameButOwners s s'
  ∧ (ownersWf (board s) → s' = s).
Proof.
destruct (legalMoves_run s) as (s0 & Hmvs & _).
destruct (orderedMoves_run distFn s)
  as (oms & s' & Hrun & (Hsb & Heq & _) & Hperm).
exists (legalMoveList s), oms, s'. by rewrite Hmvs.
Qed.

Lemma negamaxLoop_seen recurse (beta : PrimFloat.float) (s : t)
  (mvs : list Move) (st : Best) :
(∀ a b s1, ∃ r s1', recurse a b (seenKeys st) s1 = (Ret r, s1')
                    ∧ sameButOwners s1 s1' ∧ r.2 = seenKeys st) →
(∀ mv, mv ∈ mvs → mv ∈ legalMoveList s) →
∃ st', negamaxLoop recurse beta mvs st s = (Ret st', s)
       ∧ seenKeys st' = seenKeys st.
Proof.
revert st. induction mvs as [|mv mvs IH]; intros st Hrec Hmvs.
- by exists st.
- assert (mv ∈ legalMoveList s) as Hmv by (apply Hmvs; by left).
  destruct (apply_legal s mv Hmv) as [Hret _].
  pose proof (λ s2, restore_apply s s2 mv) as Hres.
  simpl. unfold_monad. cbv beta iota zeta.
  destruct (apply mv false s) as [o s1]. simpl in Hret, Hres. subst o.
  destruct (Hrec (PrimFloat.opp beta) (PrimFloat.opp (alpha st)) s1)
    as (c & s1' & -> & Hs1' & Hseen).
  rewrite (Hres s1' Hs1'). rewrite Hseen.
  destruct (PrimFloat.leb beta _); [by eexists|].
  match goal with
  | |- context [mkBest ?a ?b ?m ?k] => set (st1 := mkBest a b m k)
  end.
  destruct (IH st1) as (st' & -> & Hst'); [done| |by exists st'].
  intros mv' Hmv'. apply Hmvs. by right.
Qed.

(** X26. [negamax(state, depth, alpha, beta, seen)] never throws and
    returns with the set [seen] as it got it, the position key it added
    deleted again; size, wall sets, pawns, walls-left, side to move and
    history are afterwards as before, and so are the owner maps when their
    entries name placed walls. The move it returns is [null] or a move of
    [legalMoves()]; it is [null] at a position whose key is in [seen], at a
    won position and at depth 0. *)
Theorem negamax_restores_seen (distFn : DistFn) (depth : nat)
  (a b : PrimFloat.float) (seen : list PosKey) (s : t) :
∃ val mv s',
  negamax distFn depth a b seen s = (Ret (val, mv, seen), s')
  ∧ sameButOwners s s'
  ∧ (ownersWf (board s) → s' = s)
  ∧ (∀ m, mv = Some m → ∃ mvs, (legalMoves s).1 = Ret mvs ∧ m ∈ mvs)
  ∧ (posKey s ∈ seen ∨ winner s ≠ None ∨ depth = 0%nat → mv = None).
Proof.
assert (∀ k, k ∉ seen → JSSet.delete k (JSSet.add k seen) = seen) as Hdel
  by (intros k; apply JSSet_delete_add).
destruct (negamax_run distFn depth a b seen s)
  as (r & s' & Hrun & (Hsb & Heq & _) & Hr).
assert (∀ depth a b seen s, ∃ r s',
          negamax distFn depth a b seen s = (Ret r, s')
          ∧ sameButOwners s s' ∧ r.2 = seen
          ∧ (posKey s ∈ seen ∨ winner s ≠ None ∨ depth = 0%nat → r.1.2 = None))
  as Hseen.
{ clear. intros depth. induction depth as [|depth IH]; intros a b seen s.
  - simpl. unfold_monad. cbv beta iota zeta.
    destruct (JSSet.has _ _) eqn:Hhas;
      [eexists _, s; split_and!; [done|apply sameButOwners_refl|done..]|].
    apply JSSet_has_false in Hhas.
    destruct (winner s); eexists _, s;
      (split_and!; [done|apply sameButOwners_refl| |done]);
      simpl; by apply JSSet_delete_add.
  - simpl. unfold_monad. cbv beta iota zeta.
    destruct (JSSet.has _ _) eqn:Hhas;
      [eexists _, s; split_and!; [done|apply sameButOwners_refl|done..]|].
    apply JSSet_has_false in Hhas.
    destruct (winner s) eqn:Hwin.
    { eexists _, s. split_and!; [done|apply sameButOwners_refl| |done].
      simpl. by apply JSSet_delete_add. }
    destruct (orderedMoves_run distFn s) as (oms & s' & -> & Hs' & Hperm).
    edestruct (negamaxLoop_seen (negamax distFn depth) b s' oms)
      as (st' & -> & Hst').
    + intros a' b' s1. simpl.
      destruct (IH a' b' (JSSet.add (posKey s) seen) s1)
        as (r & s1' & -> & Hsb & Hr & _). eauto.
    + intros mv Hmv. rewrite (legalMoveList_sameButOwners s s') by apply Hs'.
      by rewrite <- Hperm.
    + eexists _, s'. split_and!; [done|apply Hs'| |].
      * simpl. rewrite Hst'. simpl. by apply JSSet_delete_add.
      * intros [?|[?|?]]; done. }
destruct (Hseen depth a b seen s) as (r' & s'' & Hrun' & _ & Hr' & Hnone).
rewrite Hrun in Hrun'. injection Hrun' as <- <-.
destruct r as [[val mv] seen']. simpl in *. subst seen'.
exists val, mv, s'. split_and!; try done.
intros m ->. destruct Hr as [?|(m' & [= <-] & Hm)]; [done|].
destruct (legalMoves_run s) as (s0 & -> & _). eauto.
Qed.

(** X27. In every state the calls of the engine lead to from
    [new GameState(N)], [N > 0], [evaluate(me)] never takes its defensive
    branch: both distances are numbers, and the value is ten times their
    difference plus half the difference of the walls-left counters. *)
Theorem evaluate_uses_both_distances (n : Z) (s : t) (me : Player) :
0 < n → engineReach (new n) s →
∃ dMe dYou,
  Board.bfsDistToGoal (board s) (at2 (pawns s) me) (goalRows s me) = Some dMe
  ∧ Board.bfsDistToGoal (board s) (at2 (pawns s) (other me))
      (goalRows s (other me)) = Some dYou
  ∧ 0 ≤ dMe ∧ 0 ≤ dYou
  ∧ GameEval.evaluate s me
    = PrimFloat.add
        (PrimFloat.mul (Z2F (dYou - dMe)) 10%float)
        (PrimFloat.mul
           (Z2F (at2 (wallsLeft s) me - at2 (wallsLeft s) (other me)))
           0.5%float).
Proof.
intros Hn Hr. destruct (engineReach_inv n s Hn Hr) as [Hinv _].
destruct (ei_good s Hinv) as [_ Hconn].
unfold bothConnected, Board.pathExistsFor in Hconn.
apply andb_true_iff in Hconn as [H0%bool_decide_eq_true H1%bool_decide_eq_true].
assert (∀ p, ∃ d, Board.bfsDistToGoal (board s) (at2 (pawns s) p) (goalRows s p)
                  = Some d ∧ 0 ≤ d) as Hd.
{ intros p.
  pose proof (bfsDistToGoal_spec (board s) (at2 (pawns s) p) (goalRows s p))
    as Hspec.
  destruct (Board.bfsDistToGoal (board s) (at2 (pawns s) p) (goalRows s p))
    as [d|] eqn:Hdp; [|by destruct p].
  destruct Hspec as (v & m & -> & _). exists (Z.of_nat m). split; [done|lia]. }
destruct (Hd me) as (dMe & HdMe & ?). destruct (Hd (other me)) as (dYou & HdYou & ?).
exists dMe, dYou. split_and!; try done.
unfold GameEval.evaluate. by rewrite HdMe, HdYou.
Qed.

Lemma evaluate_uses_both_distances_witness :
∃ dMe dYou,
  Board.bfsDistToGoal (board Samples.afterWall) (at2 (pawns Samples.afterWall) P0)
    (goalRows Samples.afterWall P0) = Some dMe
  ∧ Board.bfsDistToGoal (board Samples.afterWall) (at2 (pawns Samples.afterWall) (other P0))
      (goalRows Samples.afterWall (other P0)) = Some dYou
  ∧ 0 ≤ dMe ∧ 0 ≤ dYou
  ∧ GameEval.evaluate Samples.afterWall P0
    = PrimFloat.add
        (PrimFloat.mul (Z2F (dYou - dMe)) 10%float)
        (PrimFloat.mul
           (Z2F (at2 (wallsLeft Samples.afterWall) P0 - at2 (wallsLeft Samples.afterWall) (other P0)))
           0.5%float).
Proof.
apply (evaluate_uses_both_distances 3 Samples.afterWall P0); [lia|].
apply engine_undo, engine_apply, engine_apply, engine_start.
Defined.
End search_more.

Section search_history.
Import GameState Search.

Lemma recent_loop_spec (history : list Snapshot) (me : Player) (k : nat)
  (fuel : nat) (i : Z) (m : nat) (squares : list Cell) :
-2 ≤ i < Z.of_nat (length history) →
2 * Z.of_nat m ≤ i + 2 < 2 * Z.of_nat m + 2 →
(m ≤ fuel)%nat →
(length squares ≤ k)%nat →
let r := recent_loop fuel history me k i squares in
length r = Nat.min k (length squares + m)
∧ (∀ j, (j < length squares)%nat → r !! j = squares !! j)
∧ (∀ j, (length squares ≤ j < length r)%nat →
        r !! j = (λ sn, at2 (s_pawns sn) me)
                 <$> history !! Z.to_nat (i - 2 * Z.of_nat (j - length squares))).
Proof.
revert i m squares. induction fuel as [|fuel IH]; intros i m squares Hi Hm Hf Hk.
- assert (m = 0%nat) as -> by lia. simpl. split_and!; [lia|done|lia].
- simpl. destruct (Z.leb_spec 0 i) as [Hi0|Hi0]; simpl.
  + case_bool_decide as Hlt.
    * destruct (lookup_lt_is_Some_2 history (Z.to_nat i)) as [snap Hsnap]; [lia|].
      rewrite Hsnap.
      destruct (IH (i - 2) (m - 1)%nat (squares ++ [at2 (s_pawns snap) me]))
        as (Hlen & Hold & Hnew); [lia..|rewrite length_app; simpl; lia|].
      rewrite length_app in Hlen, Hold, Hnew. simpl in Hlen, Hold, Hnew.
      split_and!.
      -- rewrite Hlen. lia.
      -- intros j Hj. rewrite Hold by lia. by rewrite lookup_app_l.
      -- intros j Hj. destruct (decide (j = length squares)) as [->|Hne].
         ++ rewrite Hold by lia. rewrite lookup_app_r by lia.
            rewrite Nat.sub_diag. simpl.
            replace (Z.to_nat (i - 2 * Z.of_nat 0)) with (Z.to_nat i) by lia.
            by rewrite Hsnap.
         ++ rewrite Hnew by lia. do 2 f_equal. lia.
    * split_and!; [lia|done|lia].
  + assert (m = 0%nat) as -> by lia. split_and!; [lia|done|lia].
Qed.

(** X28. [recentMySquares(history, me, k)] returns the squares of [me] in
    the snapshots [history[n-2]], [history[n-4]], ... ([n] the length of the
    history), most recent first, as many as there are but at most [k]. When
    [k] is not zero the first of them is the square
    [lastMyTurnSquareFromHistory(history, me)] returns, which is also the
    [backSquare] of [orderedMoves]; both are missing when the history has
    fewer than two snapshots. *)
Theorem recentMySquares_spec (history : list Snapshot) (me : Player) (k : nat) :
length (recentMySquares history me k) = Nat.min k (length history / 2)
∧ (∀ j, (j < length (recentMySquares history me k))%nat →
        recentMySquares history me k !! j
        = (λ sn, at2 (s_pawns sn) me)
          <$> history !! (length history - 2 - 2 * j)%nat)
∧ (k ≠ 0%nat →
   head (recentMySquares history me k)
   = lastMyTurnSquareFromHistory history me)
∧ lastMyTurnSquareFromHistory history me
  = (if bool_decide (2 ≤ length history)%nat
     then (λ sn, at2 (s_pawns sn) me) <$> history !! (length history - 2)%nat
     else None).
Proof.
pose proof (Nat.div_mod_eq (length history) 2) as Hdiv.
pose proof (Nat.mod_upper_bound (length history) 2) as Hmod.
destruct (recent_loop_spec history me k (length history)
            (Z.of_nat (length history) - 2) (length history / 2) [])
  as (Hlen & _ & Hnew); [lia..|simpl; lia|].
cbn [length Nat.add] in Hlen, Hnew.
fold (recentMySquares history me k) in Hlen, Hnew.
assert (∀ j, (j < length (recentMySquares history me k))%nat →
             recentMySquares history me k !! j
             = (λ sn, at2 (s_pawns sn) me)
               <$> history !! (length history - 2 - 2 * j)%nat) as Hidx.
{ intros j Hj. rewrite Hnew by lia. do 2 f_equal. lia. }
split_and!; [done..| |].
- intros Hk. unfold lastMyTurnSquareFromHistory. rewrite head_lookup.
  case_bool_decide as Hshort.
  + apply lookup_ge_None_2. lia.
  + rewrite Hidx by lia. do 2 f_equal. lia.
- unfold lastMyTurnSquareFromHistory.
  repeat case_bool_decide; try done; lia.
Qed.
End search_history.

(** ** The handlers of the user interface *)

Section app.
Import GameState App.

Lemma cloneFrom_eq (base : t) :
Board.N (board base) = N base → cloneFrom base = base.
Proof.
intros HN. unfold cloneFrom. simpl.
destruct base as [[] ? ? ? ? ?]. simpl in *. by subst.
Qed.

(** The states of a game played from [new GameState(n)] by calls of
    [apply] with the history record that returned, and nothing else. *)
Inductive gamePlayed (n : Z) : t → Prop :=
| game_new : gamePlayed n (new n)
| game_move s mv :
    gamePlayed n s → (apply mv true s).1 = Ret tt →
    gamePlayed n (apply mv true s).2.

Lemma gamePlayed_size (n : Z) (s : t) :
gamePlayed n s → N s = n ∧ Board.N (board s) = n.
Proof.
induction 1 as [|s mv _ [IHN IHb] _]; [done|].
destruct (apply_frame s mv true) as (_ & -> & ->). done.
Qed.

Lemma gamePlayed_undo (n : Z) (s : t) : gamePlayed n s → gamePlayed n (undo s).2.
Proof.
intros [|s0 mv Hs0 _]; [apply game_new|]. by rewrite undo_apply.
Qed.

Lemma gamePlayed_reachable (n : Z) (s : t) :
gamePlayed n s → reachableFrom (new n) s.
Proof.
induction 1 as [|s mv _ IH Hret]; [constructor|]. by constructor.
Qed.

Lemma apply_outcome_rec (s : t) (mv : Move) (rec : bool) :
(apply mv rec s).1 = (apply mv false s).1.
Proof.
destruct mv as [to|w].
- rewrite !apply_pawn_eq. by destruct (negb _).
- rewrite !apply_wall_eq. cbv zeta. rewrite !bothConnected_recorded.
  case_bool_decide; [done|]. destruct (negb (Board.wallLegal _ _)); [done|].
  by destruct (negb (bothConnected _)).
Qed.

(** The states of the component: from [new GameState(9)], the handlers. *)
Inductive uiReach : t → Prop :=
| ui_start : uiReach (new 9)
| ui_pawn gs rc : uiReach gs → uiReach (doPawnMove rc gs).2
| ui_wall gs r c o : uiReach gs → uiReach (onAnchorClick r c o gs).2
| ui_ai gs distFn now : uiReach gs → uiReach (onAIMove distFn now gs).2
| ui_undo gs : uiReach gs → uiReach (onUndo gs).2
| ui_reset gs : uiReach gs → uiReach (onReset gs).2.

Lemma onAIMove_run (distFn : Search.DistFn) (now : nat → PrimFloat.float)
  (gs : t) :
gamePlayed 9 gs →
(onAIMove distFn now gs).1 = Ret tt ∧ gamePlayed 9 (onAIMove distFn now gs).2.
Proof.
intros Hgs. destruct (gamePlayed_size 9 gs Hgs) as [HN HbN].
unfold onAIMove. rewrite cloneFrom_eq by congruence. cbv zeta.
pose proof (reachable_good _ _ (goodState_new 9 ltac:(lia))
              (gamePlayed_reachable 9 gs Hgs)) as [Hwf _].
destruct (searchWithTime_run distFn 5 1000%float now gs)
  as (r & s' & -> & (_ & Heq & _) & Hr & _).
cbn [fst snd]. rewrite (Heq (wf_owners gs Hwf)).
destruct Hr as [->|(mv & -> & Hmv)]; [done|].
destruct (apply_legal gs mv Hmv) as [Hret _].
rewrite <- (apply_outcome_rec gs mv true) in Hret. rewrite Hret.
split; [done|]. by apply game_move.
Qed.

Lemma uiReach_gamePlayed (gs : t) : uiReach gs → gamePlayed 9 gs.
Proof.
induction 1 as [|gs rc _ IH|gs r c o _ IH|gs distFn now _ IH|gs _ IH|gs _ IH].
- apply game_new.
- destruct (gamePlayed_size 9 gs IH) as [HN HbN].
  unfold doPawnMove. rewrite cloneFrom_eq by congruence. cbv zeta.
  destruct (apply (PAWN rc) true gs).1 as [[]|e] eqn:Hret; [|done].
  by apply game_move.
- destruct (gamePlayed_size 9 gs IH) as [HN HbN].
  unfold onAnchorClick. rewrite cloneFrom_eq by congruence. cbv zeta.
  destruct (apply (WALL _) true gs).1 as [[]|e] eqn:Hret; [|done].
  by apply game_move.
- by apply onAIMove_run.
- destruct (gamePlayed_size 9 gs IH) as [HN HbN].
  unfold onUndo. rewrite cloneFrom_eq by congruence. cbv zeta.
  destruct (undo_frame gs) as (-> & _). by apply gamePlayed_undo.
- unfold onReset. simpl. destruct (gamePlayed_size 9 gs IH) as [-> _].
  apply game_new.
Qed.

(** X29. Every state of the component [App] is a game played from
    [new GameState(9)] by calls of [apply] that returned (so it is a state of
    [reachableFrom]): a rejected click, an undo or a reset leave no other
    trace, and [cloneFrom] copies the state exactly. In such a state no exception leaves a handler; in
    particular the move [searchWithTime] returns in [onAIMove] is accepted
    by [apply]. *)
Theorem ui_states_are_played_games (gs : t) :
uiReach gs →
gamePlayed 9 gs
∧ reachableFrom (new 9) gs
∧ cloneFrom gs = gs
∧ (∀ rc, (doPawnMove rc gs).1 = Ret tt)
∧ (∀ r c o, (onAnchorClick r c o gs).1 = Ret tt)
∧ (∀ distFn now, (onAIMove distFn now gs).1 = Ret tt)
∧ (onUndo gs).1 = Ret tt.
Proof.
intros Hgs%uiReach_gamePlayed.
destruct (gamePlayed_size 9 gs Hgs) as [HN HbN].
split_and!; try done.
- by apply gamePlayed_reachable.
- apply cloneFrom_eq. congruence.
- intros rc. unfold doPawnMove. by destruct (apply _ _ _).1.
- intros r c o. unfold onAnchorClick. by destruct (apply _ _ _).1.
- intros distFn now. by apply onAIMove_run.
- unfold onUndo. rewrite cloneFrom_eq by congruence. cbv zeta.
  by destruct (undo_frame gs) as (-> & _).
Qed.

Lemma ui_states_are_played_games_witness :
gamePlayed 9 (onUndo (doPawnMove (mkCell 1 4) (new 9)).2).2
∧ reachableFrom (new 9) (onUndo (doPawnMove (mkCell 1 4) (new 9)).2).2
∧ cloneFrom (onUndo (doPawnMove (mkCell 1 4) (new 9)).2).2
  = (onUndo (doPawnMove (mkCell 1 4) (new 9)).2).2
∧ (∀ rc, (doPawnMove rc (onUndo (doPawnMove (mkCell 1 4) (new 9)).2).2).1 = Ret tt)
∧ (∀ r c o, (onAnchorClick r c o (onUndo (doPawnMove (mkCell 1 4) (new 9)).2).2).1
            = Ret tt)
∧ (∀ distFn now, (onAIMove distFn now (onUndo (doPawnMove (mkCell 1 4) (new 9)).2).2).1
                 = Ret tt)
∧ (onUndo (onUndo (doPawnMove (mkCell 1 4) (new 9)).2).2).1 = Ret tt.
Proof.
apply (ui_states_are_played_games (onUndo (doPawnMove (mkCell 1 4) (new 9)).2).2).
apply ui_undo, ui_pawn, ui_start.
Defined.
End app.

(** ** The next step by A* *)

Lemma backPath_update (b : Board.t) (start : Cell) seen parent cur n
  (k : Key) (u : Cell) :
k ∉ seen → backPath b start seen parent cur n →
backPath b start seen (<[k:=u]> parent) cur n.
Proof.
intros Hk. induction 1 as [Hs Hp|cur p n Hs Hp Hnb _ IH].
- apply back_start; [done|]. rewrite lookup_insert_ne; [done|set_solver].
- eapply back_step; [done| |done..].
  rewrite lookup_insert_ne; [done|set_solver].
Qed.

Lemma backPath_mono (b : Board.t) (start : Cell) seen seen' parent cur n :
seen ⊆ seen' → backPath b start seen parent cur n →
backPath b start seen' parent cur n.
Proof.
intros Hsub. induction 1 as [Hs Hp|cur p n Hs Hp Hnb _ IH].
- apply back_start; [set_solver|done].
- eapply back_step; [set_solver|done..].
Qed.

Lemma backPath_chainIn (b : Board.t) (start : Cell) seen parent cur n :
backPath b start seen parent cur n → chainIn seen parent cur n.
Proof.
induction 1 as [Hs Hp|cur p n Hs Hp Hnb _ IH].
- by apply chain_end.
- by eapply chain_step.
Qed.

Section astar_next.
Variable b : Board.t.
Variable start : Cell.
Variable goalRows : list Z.
Variable U : list Cell.
Hypothesis U_closed : ∀ v w, v ∈ U → w ∈ Board.neighbors b v → w ∈ U.

(** What the loop of [astarNextStepToGoal] keeps true of [cameFrom]: the
    start cell has no entry; a cell with a score [d] other than the start
    cell has as its entry a closed cell it is a neighbour of, from which
    [d - 1] entries lead back to the start cell through closed cells; and a
    score is less than the number of cells closed so far, counted in [U]. *)
Record cameInv (g : gmap Key Z) (cf : gmap Key Cell) (seen : gset Key) : Prop := {
  c_start : cf !! keyCell start = None;
  c_path :
    ∀ v d, g !! keyCell v = Some d →
      (v = start ∧ d = 0)
      ∨ ∃ p n, cf !! keyCell v = Some p ∧ v ∈ Board.neighbors b p
               ∧ d = Z.of_nat (S n)
               ∧ backPath b start ({[keyCell start]} ∪ seen) cf p n;
  c_bound :
    ∀ v d, g !! keyCell v = Some d →
      (Z.to_nat d + unseen U seen ≤ length U)%nat
}.

Lemma cameInv_closed g cf seen u d :
cameInv g cf seen → g !! keyCell u = Some d →
∃ n, d = Z.of_nat n
     ∧ backPath b start ({[keyCell u]} ∪ ({[keyCell start]} ∪ seen)) cf u n.
Proof.
intros [Hstart Hpath _] Hgu.
destruct (Hpath u d Hgu) as [[-> ->]|(p & n & Hp & Hnb & -> & Hbp)].
- exists 0%nat. split; [done|]. apply back_start; [set_solver|done].
- exists (S n). split; [done|].
  eapply back_step; [set_solver|done..|].
  eapply backPath_mono; [|done]. set_solver.
Qed.

(** One neighbour relaxed by the two searches. *)
Lemma astarNextRelax_sim u w rest g fs cf open seen d :
astarInv b start goalRows u (w :: rest) g open seen →
cameInv g cf seen →
keyCell u ∈ seen → g !! keyCell u = Some d → w ∈ Board.neighbors b u →
(Z.to_nat d + 1 + unseen U seen ≤ length U)%nat →
let st := Board.astarRelax goalRows (Some d) (g, fs, open) w in
let st' := Board.astarNextRelax u goalRows (Some d) (g, fs, cf, open) w in
st'.1.1.1 = st.1.1 ∧ st'.1.1.2 = st.1.2 ∧ st'.2 = st.2
∧ cameInv st.1.1 st'.1.2 seen.
Proof.
intros Hinv Hcame Hu Hgu Hw Hbound.
pose proof Hinv as [Hheap Hstart Hreach Hclosed Hopen Hent].
destruct (Hreach u d Hgu) as (nu & Hd & Hrn).
assert (reach b start w (S nu)) as Hrw by (by econstructor).
unfold Board.astarRelax, Board.astarNextRelax. cbn [fst snd].
destruct (match g !! keyCell w with
          | Some gv => bool_decide (d + 1 < gv)
          | None => true
          end) eqn:Hcond; cbn [fst snd]; [|done].
assert (∀ gv, g !! keyCell w = Some gv → d + 1 < gv) as Hbetter.
{ intros gv Hgv. rewrite Hgv in Hcond. by apply bool_decide_eq_true in Hcond. }
assert (keyCell w ∉ seen) as Hws.
{ intros Hws. destruct (Hclosed w Hws) as (_ & dw & Hgw & Hopt & _).
  specialize (Hbetter _ Hgw). specialize (Hopt _ Hrw). lia. }
assert (keyCell w ≠ keyCell start) as Hnstart.
{ intros Heq. rewrite <- Heq in Hstart. specialize (Hbetter _ Hstart). lia. }
split_and!; try done.
destruct (cameInv_closed g cf seen u d Hcame Hgu) as (n & Hn & Hbp).
assert (n = nu) as -> by lia.
assert (backPath b start ({[keyCell start]} ∪ seen) cf u nu) as Hbp'.
{ eapply backPath_mono; [|done]. set_solver. }
destruct Hcame as [Hcs Hpath Hcb]. split.
- by rewrite lookup_insert_ne.
- intros v dv. destruct (decide (keyCell w = keyCell v)) as [Heq|Hne].
  + rewrite Heq, !lookup_insert_eq. intros [= <-].
    apply keyCell_inj in Heq as <-. right. exists u, nu.
    split_and!; [done..|lia|]. apply backPath_update; [set_solver|done].
  + rewrite !lookup_insert_ne by done. intros Hgv.
    destruct (Hpath v dv Hgv) as [?|(p & n & Hp & Hnb & -> & Hbpp)]; [by left|].
    right. exists p, n. split_and!; [done..|].
    apply backPath_update; [set_solver|done].
- intros v dv. destruct (decide (keyCell w = keyCell v)) as [Heq|Hne].
  + rewrite Heq, lookup_insert_eq. intros [= <-]. lia.
  + rewrite lookup_insert_ne by done. apply Hcb.
Qed.

Lemma astarNextRelax_fold_sim u pending g fs cf open seen d :
astarInv b start goalRows u pending g open seen →
cameInv g cf seen →
keyCell u ∈ seen → g !! keyCell u = Some d →
(∀ w, w ∈ pending → w ∈ Board.neighbors b u) →
(Z.to_nat d + 1 + unseen U seen ≤ length U)%nat →
let st := fold_left (Board.astarRelax goalRows (Some d)) pending (g, fs, open) in
let st' := fold_left (Board.astarNextRelax u goalRows (Some d)) pending
             (g, fs, cf, open) in
st'.1.1.1 = st.1.1 ∧ st'.1.1.2 = st.1.2 ∧ st'.2 = st.2
∧ cameInv st.1.1 st'.1.2 seen.
Proof.
revert g fs cf open.
induction pending as [|w rest IH]; intros g fs cf open Hinv Hcame Hu Hgu Hp Hb.
- done.
- cbv zeta. cbn [fold_left].
  destruct (astarRelax_inv b start goalRows u w rest g fs open seen d Hinv Hu Hgu)
    as [Hinv' Hgu']; [apply Hp; by left|].
  destruct (astarNextRelax_sim u w rest g fs cf open seen d Hinv Hcame Hu Hgu)
    as (Hg & Hfs & Hopen & Hcame'); [apply Hp; by left|done|].
  destruct (Board.astarRelax goalRows (Some d) (g, fs, open) w)
    as [[g1 fs1] open1].
  destruct (Board.astarNextRelax u goalRows (Some d) (g, fs, cf, open) w)
    as [[[g2 fs2] cf2] open2].
  cbn [fst snd] in *. subst g2 fs2 open2.
  apply (IH g1 fs1 cf2 open1); try done.
  intros w' Hw'. apply Hp. by right.
Qed.

(** The two loops side by side: where [astarDistToGoal] returns,
    [astarNextStepToGoal] returns the same distance and a next step. *)
Lemma astarNext_loop_sim (fuel bound : nat) u g fs cf open seen res :
astarInv b start goalRows u [] g open seen →
cameInv g cf seen →
(∀ x, x ∈ open → cellOfKey x.1 ∈ U) →
(length U ≤ bound)%nat →
Board.astar_loop fuel b goalRows g fs open seen = Some res →
∃ r, Board.astarNext_loop fuel bound b start goalRows g fs cf open seen = Some r
     ∧ Board.dist r = res
     ∧ match res with
       | None => Board.next r = None
       | Some d =>
           ∃ nx, Board.next r = Some nx
                 ∧ (d = 0 → nx = start)
                 ∧ (0 < d →
                    nx ∈ Board.neighbors b start
                    ∧ ∃ v, isGoal goalRows v ∧ reach b nx v (Z.to_nat (d - 1)))
       end.
Proof.
revert u g fs cf open seen. induction fuel as [|fuel IH];
  intros u g fs cf open seen Hinv Hcame HU Hbound; [done|].
rewrite astar_loop_S. cbn [Board.astarNext_loop].
destruct (MinPQ.empty open) eqn:Hempty.
{ intros [= <-]. by eexists. }
destruct (pop_spec open) as (k & f & open' & -> & Hheap' & Hperm & Hmin).
{ apply Hinv. }
{ intros ->. by rewrite (proj2 (empty_true [])) in Hempty. }
assert (∀ x, x ∈ open' → cellOfKey x.1 ∈ U) as HU'.
{ intros x Hx. apply HU. rewrite Hperm. by right. }
case_bool_decide as Hk.
{ apply (IH u); try done. by eapply astarInv_skip. }
destruct (astar_pop_optimal b start goalRows u g open open' seen k f Hinv Hperm
            Hmin Hk) as (n & Hgk & Hrn & Hnf & Hlow).
assert (cellOfKey k ∈ U) as HkU.
{ apply (HU (k, f)). rewrite Hperm. by left. }
pose proof (unseen_insert U seen (cellOfKey k) HkU) as Hins.
rewrite keyCell_cellOfKey in Hins. specialize (Hins Hk).
pose proof (c_bound _ _ _ Hcame (cellOfKey k) (Z.of_nat n)) as Hcb.
rewrite keyCell_cellOfKey in Hcb. specialize (Hcb Hgk).
cbv zeta.
destruct (JSSet.has _ goalRows) eqn:Hgoal.
- rewrite Hgk. intros [= <-]. apply JSSet_has_isGoal in Hgoal.
  destruct (cameInv_closed g cf seen (cellOfKey k) (Z.of_nat n) Hcame)
    as (n' & Hn' & Hbp); [by rewrite keyCell_cellOfKey|].
  assert (n' = n) as -> by lia.
  destruct (firstStep_loop_total _ _ start bound _ _ (backPath_chainIn _ _ _ _ _ _ Hbp))
    as [cur Hcur]; [lia|].
  destruct (reconstructDist_loop_total _ _ bound 0 _ _ (backPath_chainIn _ _ _ _ _ _ Hbp))
    as [d Hd]; [lia|].
  rewrite Hcur, Hd. cbn.
  apply (reconstructDist_backPath _ _ _ _ _ _ _ _ _ Hbp) in Hd. subst d.
  replace (0 + Z.of_nat n) with (Z.of_nat n) by lia.
  eexists. split; [done|]. split; [done|]. simpl.
  assert ((if sameCell cur start then start else cur) = cur) as ->.
  { destruct (sameCell cur start) eqn:Hsame; [|done].
    by apply sameCell_true in Hsame. }
  exists cur. split; [done|]. destruct n as [|n].
  + assert (cellOfKey k = start) as Hks by (by inversion Hbp).
    rewrite Hks in Hbp, Hcur. split; [|lia]. intros _.
    by apply (firstStep_backPath_0 _ _ _ _ _ _ Hbp Hcur).
  + split; [lia|]. intros _.
    destruct (firstStep_backPath _ _ _ _ _ _ _ _ Hbp Hcur) as [Hnb Hreach].
    split; [done|]. exists (cellOfKey k). split; [done|].
    by replace (Z.to_nat (Z.of_nat (S n) - 1)) with n by lia.
- assert (¬ isGoal goalRows (cellOfKey k)) as Hng.
  { rewrite <- JSSet_has_isGoal. by rewrite Hgoal. }
  assert (∀ m, reach b start (cellOfKey k) m → Z.of_nat n ≤ Z.of_nat m) as Hopt.
  { intros m Hm. specialize (Hlow _ m Hm). rewrite keyCell_cellOfKey in Hlow.
    specialize (Hlow Hk). lia. }
  rewrite Hgk.
  assert (astarInv b start goalRows (cellOfKey k) (Board.neighbors b (cellOfKey k))
            g open' ({[k]} ∪ seen)) as Hinv1.
  { destruct Hinv as [Hheap Hstart Hreach Hclosed Hopen Hent].
    split; try done.
    - intros v Hv. apply elem_of_union in Hv as [Hv|Hv].
      + apply elem_of_singleton in Hv.
        assert (v = cellOfKey k) as -> by (by rewrite <- Hv, cellOfKey_keyCell).
        split; [done|]. exists (Z.of_nat n). rewrite keyCell_cellOfKey.
        split_and!; [done..|]. intros w Hw. by left.
      + destruct (Hclosed v Hv) as (? & d & ? & ? & Hnbs).
        split; [done|]. exists d. split_and!; [done..|].
        intros w Hw. destruct (Hnbs w Hw) as [[_ []%elem_of_nil]|?].
        by right.
    - intros v d Hgv Hvs. pose proof (Hopen v d Hgv ltac:(set_solver)) as Hin.
      rewrite Hperm in Hin.
      apply elem_of_cons in Hin as [[= <- _]|Hin]; [set_solver|done].
    - intros k' f' Hin. apply Hent. rewrite Hperm. by right. }
  assert (cameInv g cf ({[k]} ∪ seen)) as Hcame1.
  { destruct Hcame as [Hcs Hpath Hcbd]. split; [done| |].
    - intros v d Hgv.
      destruct (Hpath v d Hgv) as [?|(p & n0 & Hp & Hnb & -> & Hbpp)]; [by left|].
      right. exists p, n0. split_and!; [done..|].
      eapply backPath_mono; [|done]. set_solver.
    - intros v d Hgv. specialize (Hcbd v d Hgv). lia. }
  pose proof (astarRelax_fold_inv b start goalRows (cellOfKey k)
                (Board.neighbors b (cellOfKey k)) g fs open' ({[k]} ∪ seen)
                (Z.of_nat n) Hinv1) as Hinv2.
  rewrite keyCell_cellOfKey in Hinv2.
  specialize (Hinv2 ltac:(set_solver) Hgk ltac:(done)).
  destruct (astarNextRelax_fold_sim (cellOfKey k) (Board.neighbors b (cellOfKey k))
              g fs cf open' ({[k]} ∪ seen) (Z.of_nat n) Hinv1 Hcame1)
    as (Hg & Hfs & Hopen2 & Hcame2);
    [rewrite keyCell_cellOfKey; set_solver|by rewrite keyCell_cellOfKey|done|lia|].
  destruct (astarRelax_fold_measure goalRows U (Some (Z.of_nat n))
              (Board.neighbors b (cellOfKey k)) g fs open' Hheap' HU')
    as (_ & HU2 & _).
  { intros w Hw. by apply (U_closed (cellOfKey k)). }
  rewrite Hg, Hfs, Hopen2. intros Hres.
  apply (IH (cellOfKey k) _ _ _ _ _ Hinv2 Hcame2 HU2 Hbound Hres).
Qed.
End astar_next.

Lemma astarNextStepToGoal_spec (b : Board.t) (start : Cell) (goalRows : list Z) :
nextStepSpec b start goalRows (Board.astarNextStepToGoal b start goalRows).
Proof.
unfold Board.astarNextStepToGoal, Board.astarNextStepToGoal_fuel. cbv zeta.
destruct (astarDistToGoal_fuel_enough b start goalRows) as [res Hres].
unfold Board.astarDistToGoal_fuel in Hres. cbv zeta in Hres.
destruct (push_spec [] (keyCell start) (Board.hToGoal start goalRows)
            heapOrdered_nil) as [Hheap Hperm].
destruct (astarNext_loop_sim b start goalRows (boxCells (Board.N b) start)
            ltac:(intros v w Hv Hw; apply elem_of_boxCells;
                  apply elem_of_boxCells in Hv;
                  by apply (inBox_neighbors b start v w))
            (4 * Board.cellBound b start + 2) (Board.cellBound b start)
            start {[keyCell start := 0]}
            {[keyCell start := Board.hToGoal start goalRows]} ∅
            (MinPQ.push [] (keyCell start) (Board.hToGoal start goalRows)) ∅ res)
  as (r & -> & Hdist & Hnext).
- apply astarInv_init.
- split.
  + done.
  + intros v d Hv. apply lookup_singleton_Some in Hv as [Hk <-].
    apply keyCell_inj in Hk as <-. by left.
  + intros v d Hv. apply lookup_singleton_Some in Hv as [_ <-].
    rewrite unseen_empty. simpl. lia.
- intros x Hx. rewrite Hperm in Hx. apply list_elem_of_singleton in Hx as ->.
  simpl. rewrite cellOfKey_keyCell. apply elem_of_boxCells, inBox_start.
- by rewrite length_boxCells.
- done.
- simpl. split.
  + rewrite Hdist.
    by apply (astar_loop_correct b start goalRows _ _ _ _ _ _ _
                (astarInv_init b start goalRows) Hres).
  + by rewrite Hdist.
Qed.

(** X30. [astarNextStepToGoal(start, goalRows)] returns the distance that
    [astarDistToGoal], [bfsDistToGoal] and [bfsNextStepToGoal] return. When
    that is [null], [next] is [null]; when it is 0, [next] is [start], which
    is on a goal row; otherwise [next] is a neighbour of [start] from which
    [bfsDistToGoal] is one less: the first step of a shortest path. *)
Theorem astarNextStepToGoal_first_step (b : Board.t) (start : Cell)
  (goalRows : list Z) :
let r := Board.astarNextStepToGoal b start goalRows in
Board.dist r = Board.astarDistToGoal b start goalRows
∧ Board.dist r = Board.bfsDistToGoal b start goalRows
∧ Board.dist r = Board.dist (Board.bfsNextStepToGoal b start goalRows)
∧ match Board.dist r with
  | None => Board.next r = None
  | Some d =>
      ∃ nx, Board.next r = Some nx
            ∧ (d = 0 → nx = start ∧ cell_r start ∈ goalRows)
            ∧ (d ≠ 0 →
               nx ∈ Board.neighbors b start
               ∧ Board.bfsDistToGoal b nx goalRows = Some (d - 1))
  end.
Proof.
intros r.
destruct (nextStepSpec_firstStep _ _ _ _ (astarNextStepToGoal_spec b start goalRows))
  as [Hdist Hnext].
destruct (nextStepSpec_firstStep _ _ _ _ (bfsNextStepToGoal_spec b start goalRows))
  as [Hbfs _].
fold r in Hdist, Hnext. split_and!; try done; [|congruence].
rewrite Hdist. symmetry.
eapply goalDist_unique; [apply astarDistToGoal_spec|apply bfsDistToGoal_spec].
Qed.


(** ** The samples of the specification *)

Example bfs_empty_board :
Board.bfsDistToGoal (Board.new 9) (mkCell 0 4) [8] = Some 8
∧ Board.bfsNextStepToGoal (Board.new 9) (mkCell 0 4) [8]
  = Board.mkPathStep (Some 8) (Some (mkCell 1 4))
∧ Board.astarDistToGoal (Board.new 9) (mkCell 0 4) [8] = Some 8.
Proof. by vm_compute. Qed.

Example straight_jump_offered :
let s := GameState.setPawns (mkCell 4 4, mkCell 4 5) (GameState.new 9) in
mkCell 4 6 ∈ GameState.legalPawnMoves s
∧ (mkCell 3 5 ∉ GameState.legalPawnMoves s)
∧ (mkCell 5 5 ∉ GameState.legalPawnMoves s).
Proof. vm_compute. set_solver. Qed.

Example shutting_wall_rejected :
(WALL Samples.shutInWall ∉ legalMoveList Samples.shutIn)
∧ (GameState.apply (WALL Samples.shutInWall) true Samples.shutIn).1
  = Throw BlocksAllPaths.
Proof. split; [vm_compute; set_solver|by vm_compute]. Qed.
